(** * Audio-Transcription backend: job orchestration, embedded in Rocq

    Shallow embedding of [backend/src/index.js].  The file holds two
    revisions of the server: the first ("legacy") revision, embedded in
    [Module Legacy], and the current revision, embedded at top level.

    The server is a single-threaded Node.js process.  Every callback
    (request handler, child-process event, stream event) runs to
    completion, followed by the promise continuations it made runnable,
    before the next callback starts.  The embedding therefore is a
    labelled transition system: one [step] per callback, over an explicit
    record of the module-level variables ([transcriptions],
    [transcriptionQueue], [isProcessing], [activeJobs]) and of the live
    closures (spawned child processes, running YouTube downloads).

    Request fields ([model], [language], [youtubeUrl]) are strings or
    absent.  A string is a JavaScript string whose code units are below
    256, one [ascii] per code unit.  Console output and [getMemoryInfo],
    which only feeds it, are left out. *)

From stdpp Require Import base decidable option list strings gmap pretty.
From Stdlib Require Import ZArith Lia Ascii.

Local Open Scope Z_scope.
Local Open Scope string_scope.
Local Open Scope list_scope.
Local Set Warnings "-register-all".

(** ** The Node.js runtime

    Built-ins of Node and of the libraries the server calls, and the process
    environment.  They are not code of this repository, so they are taken
    as an interface. *)

Inductive json :=
| JNull
| JBool (b : bool)
| JNum (num : Z) (den : positive)
| JStr (s : string)
| JArr (elems : list json)
| JObj (fields : list (string * json)).

Class Runtime := {
  (* process.env.UPLOAD_DIR || '/var/www/whisper-app/backend/uploads' *)
  UPLOAD_DIR : string;
  (* process.env.USE_FASTER_WHISPER === 'true' || false *)
  USE_FASTER_WHISPER : bool;
  (* process.env.WHISPER_THREADS *)
  WHISPER_THREADS : option string;
  (* path.basename(p) and path.basename(p, ext) *)
  path_basename : string -> string;
  path_basename_ext : string -> string -> string;
  (* path.extname(p), path.join(a, b), path.resolve(p) *)
  path_extname : string -> string;
  path_join : string -> string -> string;
  path_resolve : string -> string;
  (* JSON.parse(text); None when it throws SyntaxError *)
  JSON_parse : string -> option json;
  (* spawn(command, args): the message of the exception it throws (for
     arguments it refuses, such as one with a null byte), None when it
     returns a child process.  A spawn that fails later is reported by the
     'error' event of the child. *)
  spawn_throws : string -> list string -> option string
}.

(** What a callback observes of the outside world while it runs: the clock
    ([Date.now()], [new Date()]) and the file system ([fs.existsSync],
    [fs.readFileSync(p, 'utf8')]).  One callback sees one clock reading and
    one state of the disk. *)
Record World := mkWorld {
  now : Z;
  existsSync : string -> bool;
  readFileSync : string -> string
}.

(** JavaScript's [a || b] on an optional string: [undefined] and the empty
    string are falsy. *)
Definition js_or (a : option string) (b : string) : string :=
  match a with
  | Some s => if decide (s = "") then b else s
  | None => b
  end.

(** Truthiness of a string: [if (language && ...)]. *)
Definition truthy_string (s : string) : bool := bool_decide (s <> "").

Definition truthy_json (v : json) : bool :=
  match v with
  | JNull => false
  | JBool b => b
  | JNum n _ => bool_decide (n <> 0)
  | JStr s => truthy_string s
  | JArr _ | JObj _ => true
  end.

(** Property read [o.key] on a parsed object: the last binding wins, as in
    JSON.parse. *)
Fixpoint get_field (key : string) (fields : list (string * json)) : option json :=
  match fields with
  | [] => None
  | (k, v) :: rest =>
      match get_field key rest with
      | Some v' => Some v'
      | None => if decide (k = key) then Some v else None
      end
  end.

(** [Date.now().toString()] *)
Definition toString (n : Z) : string := pretty n.

(** ** JavaScript numbers

    A number is an IEEE 754 binary64 value.  [DFinite m e] is [m * 2^e]; the
    sign of zero is left out ([JSON.stringify] and string conversion print
    both zeros as [0]). *)

Inductive double :=
| DNaN
| DInfinity (negative : bool)
| DFinite (m e : Z).

Global Instance double_eq_dec : EqDecision double.
Proof. solve_decision. Defined.

(** The numbers that [Math.round] and [parseInt] return: integers, the
    infinities and NaN. *)
Inductive number :=
| NaN
| Infinity (negative : bool)
| Num (n : Z).

Global Instance number_eq_dec : EqDecision number.
Proof. solve_decision. Defined.

(** The double nearest to the rational [p / q], for [0 < q]: round to
    nearest, ties to even, with gradual underflow and overflow to infinity.
    [l] is the binary exponent of the quotient, [2^l <= |p / q| < 2^(l+1)],
    and [e] the exponent of the last place. *)
Definition nearest_double (p q : Z) : double :=
  if (p =? 0)%Z then DFinite 0 0
  else
    let a := Z.abs p in
    let l0 := Z.log2 a - Z.log2 q in
    let l :=
      if (a * 2 ^ Z.max 0 (- l0) <? q * 2 ^ Z.max 0 l0)%Z then l0 - 1 else l0 in
    let e := Z.max (l - 52) (-1074) in
    let num := a * 2 ^ Z.max 0 (- e) in
    let den := q * 2 ^ Z.max 0 e in
    let m0 := num / den in
    let r := num mod den in
    let m :=
      if ((den <? 2 * r)%Z || ((den =? 2 * r)%Z && Z.odd m0))%bool
      then m0 + 1 else m0 in
    if (2 ^ (1024 - e) <=? m)%Z then DInfinity (p <? 0)%Z
    else if (m =? 0)%Z then DFinite 0 0
    else if (m =? 2 ^ 53)%Z then DFinite (Z.sgn p * 2 ^ 52) (e + 1)
    else DFinite (Z.sgn p * m) e.

(** An integer as a number. *)
Definition double_of_Z (n : Z) : double := nearest_double n 1.

(** [x / y] *)
Definition double_div (x y : double) : double :=
  match x, y with
  | DNaN, _ | _, DNaN => DNaN
  | DInfinity _, DInfinity _ => DNaN
  | DInfinity s, DFinite m _ => DInfinity (xorb s (m <? 0)%Z)
  | DFinite _ _, DInfinity _ => DFinite 0 0
  | DFinite m1 e1, DFinite m2 e2 =>
      if (m2 =? 0)%Z then (if (m1 =? 0)%Z then DNaN else DInfinity (m1 <? 0)%Z)
      else nearest_double (Z.sgn m2 * m1 * 2 ^ Z.max 0 (e1 - e2))
                          (Z.abs m2 * 2 ^ Z.max 0 (e2 - e1))
  end.

(** [x * y] *)
Definition double_mul (x y : double) : double :=
  match x, y with
  | DNaN, _ | _, DNaN => DNaN
  | DInfinity s, DInfinity s' => DInfinity (xorb s s')
  | DInfinity s, DFinite m _ | DFinite m _, DInfinity s =>
      if (m =? 0)%Z then DNaN else DInfinity (xorb s (m <? 0)%Z)
  | DFinite m1 e1, DFinite m2 e2 =>
      nearest_double (m1 * m2 * 2 ^ Z.max 0 (e1 + e2)) (2 ^ Z.max 0 (- (e1 + e2)))
  end.

(** [Math.round(x)]: the integer nearest to [x], a tie going up. *)
Definition Math_round (x : double) : number :=
  match x with
  | DNaN => NaN
  | DInfinity s => Infinity s
  | DFinite m e =>
      Num (if (0 <=? e)%Z then m * 2 ^ e else (2 * m + 2 ^ (- e)) / 2 ^ (1 - e))
  end.

(** Truthiness of a number: [if (progress.percent)]. *)
Definition truthy_double (x : double) : bool :=
  match x with
  | DNaN => false
  | DInfinity _ => true
  | DFinite m _ => negb (m =? 0)%Z
  end.

(** [parseInt(digits, 10)] for a run of decimal digits whose value is [v]:
    the double nearest to [v], which is an integer or infinity. *)
Definition parseInt_value (v : Z) : number := Math_round (double_of_Z v).

(** String conversion of a number, as in [`${progressPercent}`].  The digits
    are those of the shortest decimal that denotes the same double
    ([shortest], at most 17 significant digits, the nearest one when there
    are several); the exponent form is used from [1e21] on. *)
Fixpoint strip_zeros (rev_digits : string) : string :=
  match rev_digits with
  | String "0" s => strip_zeros s
  | _ => rev_digits
  end.

Definition exponent_form (v : Z) : string :=
  let all := pretty v in
  let digits := String.rev (strip_zeros (String.rev all)) in
  let exponent := pretty (Z.of_nat (String.length all) - 1) in
  match digits with
  | String c EmptyString => String c "" +:+ "e+" +:+ exponent
  | String c rest => String c "" +:+ "." +:+ rest +:+ "e+" +:+ exponent
  | EmptyString => all
  end.

Fixpoint shortest (fuel : nat) (k : Z) (a : Z) : Z :=
  match fuel with
  | O => a
  | S fuel' =>
      let unit := 10 ^ (Z.of_nat (String.length (pretty a)) - k) in
      let c1 := a / unit * unit in
      let c2 := c1 + unit in
      let ok1 := bool_decide (double_of_Z c1 = double_of_Z a) in
      let ok2 := bool_decide (double_of_Z c2 = double_of_Z a) in
      if ok1 && ok2 then
        (if (a - c1 <? c2 - a)%Z then c1
         else if (c2 - a <? a - c1)%Z then c2
         else if Z.even (c1 / unit) then c1 else c2)
      else if ok1 then c1
      else if ok2 then c2
      else shortest fuel' (k + 1) a
  end.

Definition Number_toString (v : number) : string :=
  match v with
  | NaN => "NaN"
  | Infinity false => "Infinity"
  | Infinity true => "-Infinity"
  | Num n =>
      let v := shortest 17 1 (Z.abs n) in
      (if (n <? 0)%Z then "-" else "")
      +:+ (if (v <? 10 ^ 21)%Z then pretty v else exponent_form v)
  end.

(** ** Static configuration *)

Definition MAX_CONCURRENT_JOBS : Z := 1.

Record ModelInfo := mkModel {
  m_id : string;
  m_name : string;
  m_description : string
}.

Definition AVAILABLE_MODELS : list ModelInfo :=
  [ mkModel "tiny" "Tiny" "Fastest, least accurate";
    mkModel "base" "Base" "Fast, reasonable accuracy";
    mkModel "small" "Small" "Good balance of speed and accuracy";
    mkModel "medium" "Medium" "High accuracy, slower";
    mkModel "large" "Large" "Highest accuracy, slowest" ].

(** The table served by GET /api/languages. *)
Definition LANGUAGES : list (string * string) :=
  [ ("auto", "Auto-detect"); ("en", "English"); ("fr", "French");
    ("de", "German"); ("es", "Spanish"); ("it", "Italian");
    ("pt", "Portuguese"); ("nl", "Dutch"); ("ru", "Russian");
    ("zh", "Chinese"); ("ar", "Arabic"); ("ja", "Japanese");
    ("ko", "Korean"); ("hi", "Hindi"); ("yo", "Yoruba");
    ("ha", "Hausa"); ("ig", "Igbo") ].

Definition language_codes : list string := fst <$> LANGUAGES.

(** ** Registry entries

    The values stored in the [transcriptions] map.  The objects the code
    stores have one of five shapes; [status] is their [status] field. *)

Inductive Status := started | processing | completed | error.

Global Instance Status_eq_dec : EqDecision Status.
Proof. solve_decision. Defined.

Record VideoDetails := mkVideoDetails {
  v_title : string;
  (* parseInt(lengthSeconds); None is NaN *)
  v_duration : option Z;
  v_author : string;
  v_thumbnailUrl : string
}.

Inductive JobRecord :=
| JStarted (filename : string) (filesize : Z) (model language : string)
           (startedAt : Z)
| JStartedYoutube (filename videoId : string) (details : VideoDetails)
                  (model language : string) (startedAt : Z)
| JProcessing (progress : option number) (details : string)
| JCompleted (transcription : string) (segments : json)
             (model language inputFile txt : string) (json_file : option string)
             (completedAt : Z)
| JError (msg : string) (details : option string).

Definition status (r : JobRecord) : Status :=
  match r with
  | JStarted _ _ _ _ _ | JStartedYoutube _ _ _ _ _ _ => started
  | JProcessing _ _ => processing
  | JCompleted _ _ _ _ _ _ _ _ => completed
  | JError _ _ => error
  end.

(** ** Server state *)

Record QueueItem := mkItem {
  filePath : string;
  q_jobId : string;
  q_model : string;
  q_language : string
}.

(** The closure of one [transcribeAudio] call whose child process has been
    spawned: the variables its event handlers read and write.  [c_settled]
    is whether the promise returned by [transcribeAudio] has been resolved
    or rejected already (a second resolve or reject does nothing). *)
Record Child := mkChild {
  c_inputPath : string;
  c_jobId : string;
  c_validModel : string;
  c_language : string;
  c_output : string;
  c_errorOutput : string;
  c_settled : bool
}.

(** The closure of one [downloadYoutubeAudio] call, with the [model] and
    [language] of the request handler that awaits it.  [d_failed] is
    whether ffmpeg has reported an error, so that the promise is rejected
    and the handler's [catch] block has run; the ['progress'] handlers stay
    registered. *)
Record Download := mkDownload {
  d_videoId : string;
  d_jobId : string;
  d_outputPath : string;
  d_model : string;
  d_language : string;
  d_failed : bool
}.

Record State := mkState {
  transcriptions : gmap string JobRecord;
  transcriptionQueue : list QueueItem;
  isProcessing : bool;
  activeJobs : Z;
  (* live closures, in creation order *)
  children : list Child;
  downloads : list Download
}.

Definition init : State := mkState ∅ [] false 0 [] [].

Definition set_transcriptions (f : gmap string JobRecord -> gmap string JobRecord)
    (st : State) : State :=
  mkState (f (transcriptions st)) (transcriptionQueue st) (isProcessing st)
          (activeJobs st) (children st) (downloads st).

Definition set_queue (q : list QueueItem) (st : State) : State :=
  mkState (transcriptions st) q (isProcessing st) (activeJobs st)
          (children st) (downloads st).

Definition set_isProcessing (b : bool) (st : State) : State :=
  mkState (transcriptions st) (transcriptionQueue st) b (activeJobs st)
          (children st) (downloads st).

Definition set_activeJobs (n : Z) (st : State) : State :=
  mkState (transcriptions st) (transcriptionQueue st) (isProcessing st) n
          (children st) (downloads st).

Definition set_children (cs : list Child) (st : State) : State :=
  mkState (transcriptions st) (transcriptionQueue st) (isProcessing st)
          (activeJobs st) cs (downloads st).

Definition set_downloads (ds : list Download) (st : State) : State :=
  mkState (transcriptions st) (transcriptionQueue st) (isProcessing st)
          (activeJobs st) (children st) ds.

(** [transcriptions.set(jobId, r)] *)
Definition record_job (jobId : string) (r : JobRecord) (st : State) : State :=
  set_transcriptions (fun m => <[jobId := r]> m) st.

(** ** Observable actions

    What a callback does towards the outside, and two trace points of the
    scheduler: [EPush] for [transcriptionQueue.push(item)] and [EDispatch]
    for the call [transcribeAudio(...)] made by [processQueue] (the line
    "Starting transcription for: ..." of the log). *)

Inductive Response :=
| RError (msg : string)
| RTooLong (msg : string) (duration : option Z)
| RJob (jobId : string) (position : nat)
| RJobYoutube (jobId : string) (details : VideoDetails) (position : nat).

Inductive Effect :=
| EPush (item : QueueItem)
| EDispatch (item : QueueItem)
| ESpawn (cmd : string) (args : list string)
| EStartDownload (videoId jobId outputPath : string)
| ERespond (code : Z) (body : Response).

(** How the promise of [transcribeAudio] stands when a callback is done with
    it. *)
Inductive Settle :=
| Resolved
| Rejected (message : string).

(** ** The adapter: [transcribeAudio] *)

Section Adapter.
Context `{RT : Runtime}.

(** [AVAILABLE_MODELS.find(m => m.id === model) ? model : 'medium'] *)
Definition validModel_of (model : string) : string :=
  match List.find (fun m => bool_decide (m_id m = model)) AVAILABLE_MODELS with
  | Some _ => model
  | None => "medium"
  end.

(** [if (language && language !== 'auto') whisperArgs.push('--language', language)] *)
Definition language_args (language : string) : list string :=
  if truthy_string language && bool_decide (language <> "auto")
  then ["--language"; language]
  else [].

(** [whisperCmd] and [whisperArgs] *)
Definition whisper_command (absolutePath validModel language : string)
  : string * list string :=
  if USE_FASTER_WHISPER then
    ("faster-whisper",
     ["--model"; validModel; "--output_dir"; UPLOAD_DIR;
      "--output_format"; "all";
      "--threads"; js_or WHISPER_THREADS "4";
      "--beam_size"; "5"; "--best_of"; "5"; "--temperature"; "0"]
     ++ language_args language ++ [absolutePath])
  else
    ("whisper",
     [absolutePath; "--model"; validModel; "--output_dir"; UPLOAD_DIR;
      "--device"; "cpu"; "--threads"; js_or WHISPER_THREADS "2"]
     ++ language_args language).

(** The synchronous part of [transcribeAudio]: the existence check, then the
    promise executor up to the registration of the handlers.  The result is
    [Some Resolved] when the function returned before creating the promise
    (its own promise is then resolved); [Some (Rejected message)] when
    [spawn] threw inside the executor, which rejects the promise before any
    handler is registered (the [try] around [new Promise] sees no
    exception); [None] when the child was spawned and the promise is
    pending.  [ESpawn] records the call of [spawn], whether it throws or
    not. *)
Definition transcribeAudio (w : World) (inputPath jobId model language : string)
    (st : State) : State * option Settle * list Effect :=
  if negb (existsSync w inputPath) then
    (record_job jobId (JError ("Input file not found: " +:+ inputPath) None) st,
     Some Resolved, [])
  else
    let absolutePath := path_resolve inputPath in
    let validModel := validModel_of model in
    let '(whisperCmd, whisperArgs) :=
      whisper_command absolutePath validModel language in
    match spawn_throws whisperCmd whisperArgs with
    | Some message => (st, Some (Rejected message), [ESpawn whisperCmd whisperArgs])
    | None =>
        (set_children
           (children st ++ [mkChild inputPath jobId validModel language "" "" false])
           st,
         None, [ESpawn whisperCmd whisperArgs])
    end.

(** [message.match(/(\d+)%/)]: the leftmost run of decimal digits that a
    percent sign follows, given by its value.  [acc] is the value of the
    digit run being read. *)
Definition digit_value (c : Ascii.ascii) : option Z :=
  let n := Z.of_N (Ascii.N_of_ascii c) in
  if ((48 <=? n)%Z && (n <=? 57)%Z)%bool then Some (n - 48) else None.

Fixpoint match_percent (acc : option Z) (s : string) : option Z :=
  match s with
  | EmptyString => None
  | String c s' =>
      match digit_value c with
      | Some d => match_percent (Some (10 * default 0 acc + d)) s'
      | None =>
          if decide (c = "%"%char) then
            match acc with
            | Some n => Some n
            | None => match_percent None s'
            end
          else match_percent None s'
      end
  end.

(** The progress that the stdout handler stores:
    [parseInt(progressMatch[1], 10)] when the message matches. *)
Definition progressMatch (message : string) : option number :=
  parseInt_value <$> match_percent None message.

(** [transcriptionProcess.stdout.on('data', ...)] *)
Definition on_stdout (message : string) (c : Child) (st : State) : Child * State :=
  let output := c_output c +:+ message in
  let c' := mkChild (c_inputPath c) (c_jobId c) (c_validModel c) (c_language c)
                    output (c_errorOutput c) (c_settled c) in
  (c', record_job (c_jobId c) (JProcessing (progressMatch message) output) st).

(** [transcriptionProcess.stderr.on('data', ...)] *)
Definition on_stderr (message : string) (c : Child) : Child :=
  mkChild (c_inputPath c) (c_jobId c) (c_validModel c) (c_language c)
          (c_output c) (c_errorOutput c +:+ message) (c_settled c).

Definition baseName_of (inputPath : string) : string :=
  path_basename_ext inputPath (path_extname inputPath).

Definition txtFile_of (inputPath : string) : string :=
  path_join UPLOAD_DIR (baseName_of inputPath +:+ ".txt").

Definition jsonFile_of (inputPath : string) : string :=
  path_join UPLOAD_DIR (baseName_of inputPath +:+ ".json").

(** [jsonData.segments || []]; None when the property read throws (on
    [null]). *)
Definition segments_of (jsonData : json) : option json :=
  match jsonData with
  | JNull => None
  | JObj fields =>
      match get_field "segments" fields with
      | Some v => Some (if truthy_json v then v else JArr [])
      | None => Some (JArr [])
      end
  | _ => Some (JArr [])
  end.

(** The [segments] variable after the [if (fs.existsSync(jsonFile))] block:
    it keeps its initial value [[]] when the file is absent and when the
    [try] block throws. *)
Definition read_segments (w : World) (jsonFile : string) : json :=
  if existsSync w jsonFile then
    match JSON_parse (readFileSync w jsonFile) with
    | Some jsonData => default (JArr []) (segments_of jsonData)
    | None => JArr []
    end
  else JArr [].

(** [transcriptionProcess.on('close', async (code) => ...)]: the new
    registry and how the handler settles the promise.  [code] is the exit
    code, [None] for [null]; the handler only logs it. *)
Definition on_close (w : World) (code : option Z) (c : Child) (st : State)
  : State * Settle :=
  let txtFile := txtFile_of (c_inputPath c) in
  let jsonFile := jsonFile_of (c_inputPath c) in
  if existsSync w txtFile then
    let transcription := readFileSync w txtFile in
    let segments := read_segments w jsonFile in
    (record_job (c_jobId c)
       (JCompleted transcription segments (c_validModel c)
          (js_or (Some (c_language c)) "auto")
          (path_basename (c_inputPath c))
          (path_basename txtFile)
          (if existsSync w jsonFile then Some (path_basename jsonFile) else None)
          (now w)) st,
     Resolved)
  else
    (record_job (c_jobId c)
       (JError "Failed to generate transcription output"
          (Some (js_or (Some (c_errorOutput c))
                   "Unknown error during transcription process"))) st,
     Rejected "Transcription file not found").

(** [transcriptionProcess.on('error', (err) => ...)], [message] being
    [err.message]. *)
Definition on_error (message : string) (c : Child) (st : State) : State * Settle :=
  (record_job (c_jobId c) (JError message None) st, Rejected message).

End Adapter.

(** ** The scheduler: [processQueue] *)

Section Scheduler.
Context `{RT : Runtime}.

(** Where a call of [processQueue] stands when its synchronous part is over:
    [None] when it returned at the guard; [Some (jobId, p)] when it is at
    its [await], [p] being the state of the awaited promise ([None] while
    pending). *)
Definition Awaiting : Type := option (string * option Settle).

(** [processQueue] from its entry to its [await]. *)
Definition processQueue_sync (w : World) (st : State)
  : State * Awaiting * list Effect :=
  if isProcessing st
     || bool_decide (length (transcriptionQueue st) = 0%nat)
     || bool_decide (MAX_CONCURRENT_JOBS <= activeJobs st)
  then (st, None, [])
  else
    match transcriptionQueue st with
    | [] => (st, None, [])
    | item :: rest =>
        let st1 := set_queue rest (set_isProcessing true st) in
        let st2 := set_activeJobs (activeJobs st1 + 1) st1 in
        let '(st3, p, effs) :=
          transcribeAudio w (filePath item) (q_jobId item) (q_model item)
                          (q_language item) st2 in
        (st3, Some (q_jobId item, p), EDispatch item :: effs)
    end.

(** [processQueue] after its [await], up to (not including) the final call
    [processQueue()]: the rest of the [try] block or the [catch] block, then
    [isProcessing = false]. *)
Definition processQueue_resume (jobId : string) (p : Settle) (st : State) : State :=
  match p with
  | Resolved =>
      set_isProcessing false (set_activeJobs (activeJobs st - 1) st)
  | Rejected message =>
      set_isProcessing false
        (record_job jobId
           (JError "Failed to process file in queue" (Some message))
           (set_activeJobs (activeJobs st - 1) st))
  end.

(** The promise continuations that run once a callback is over: a settled
    [await] resumes [processQueue], whose final call [processQueue()] runs
    its own synchronous part, and so on while the awaited promise is settled
    at once.  Every round takes one item off the queue, so [fuel] above the
    queue length is never used up ([await_loop_fuel]). *)
Fixpoint await_loop (fuel : nat) (w : World) (a : Awaiting) (st : State)
  : State * list Effect :=
  match a, fuel with
  | Some (jobId, Some p), S fuel' =>
      let '(st1, a', effs) := processQueue_sync w (processQueue_resume jobId p st) in
      let '(st2, effs') := await_loop fuel' w a' st1 in
      (st2, effs ++ effs')
  | _, _ => (st, [])
  end.

Definition microtasks (w : World) (a : Awaiting) (st : State) : State * list Effect :=
  await_loop (S (length (transcriptionQueue st))) w a st.

(** A call [processQueue()] whose caller does nothing afterwards. *)
Definition processQueue (w : World) (st : State) : State * list Effect :=
  let '(st1, a, effs) := processQueue_sync w st in
  let '(st2, effs') := microtasks w a st1 in
  (st2, effs ++ effs').

End Scheduler.

(** ** The video reference: [extractYoutubeVideoId]

    A backtracking matcher for the constructs of the regular expression of
    [extractYoutubeVideoId], with JavaScript's priorities: the leftmost
    start, the first alternative first, the longest repetition first.  The
    last argument of [rmatch] is what remains to be matched after [r]; its
    failure makes [r] try its next way of matching. *)

Inductive regex :=
| RChar (p : ascii -> bool)
| REmpty
| RSeq (r1 r2 : regex)
| RAlt (r1 r2 : regex)
| RStar (r : regex).

Fixpoint rmatch {A} (r : regex) (s : string) (k : string -> option A) : option A :=
  match r with
  | RChar p =>
      match s with
      | String c s' => if p c then k s' else None
      | EmptyString => None
      end
  | REmpty => k s
  | RSeq r1 r2 => rmatch r1 s (fun s' => rmatch r2 s' k)
  | RAlt r1 r2 =>
      match rmatch r1 s k with
      | Some x => Some x
      | None => rmatch r2 s k
      end
  | RStar r1 =>
      (fix star (n : nat) (s : string) {struct n} : option A :=
         match n with
         | O => k s
         | S n' =>
             match rmatch r1 s (fun s' =>
                     if (String.length s' <? String.length s)%nat
                     then star n' s' else None) with
             | Some x => Some x
             | None => k s
             end
         end) (String.length s) s
  end.

(** A match starting at the first position where there is one. *)
Fixpoint search {A} (r : regex) (s : string) (k : string -> option A) : option A :=
  match rmatch r s k with
  | Some x => Some x
  | None =>
      match s with
      | String _ s' => search r s' k
      | EmptyString => None
      end
  end.

Definition code (c : ascii) : N := N_of_ascii c.

(** The [i] flag: characters are compared after upper-casing. *)
Definition upper (c : ascii) : ascii :=
  if ((97 <=? code c) && (code c <=? 122))%N then ascii_of_N (code c - 32) else c.

Definition lit (c : ascii) : regex := RChar (fun x => bool_decide (upper x = upper c)).

Fixpoint lits (s : string) : regex :=
  match s with
  | EmptyString => REmpty
  | String c s' => RSeq (lit c) (lits s')
  end.

(** [.] matches all but line terminators; [\s] is white space and line
    terminators (among the code units below 256: tab to carriage return,
    space, no-break space). *)
Definition is_line_terminator (c : ascii) : bool :=
  bool_decide (code c = 10%N) || bool_decide (code c = 13%N).

Definition is_space (c : ascii) : bool :=
  ((9 <=? code c) && (code c <=? 13))%N
  || bool_decide (code c = 32%N) || bool_decide (code c = 160%N).

Definition any : regex := RChar (fun c => negb (is_line_terminator c)).
Definition not_slash : regex := RChar (fun c => negb (bool_decide (c = "/"%char))).
Definition plus (r : regex) : regex := RSeq r (RStar r).
Definition opt (r : regex) : regex := RAlt r REmpty.

(** The class of the capture group: any character but the double quote,
    [&], [?], [/] and white space. *)
Definition id_char (c : ascii) : bool :=
  negb (bool_decide (c = "034"%char) || bool_decide (c = "&"%char)
        || bool_decide (c = "?"%char) || bool_decide (c = "/"%char) || is_space c).

(** [(?:youtube\.com\/(?:[^\/]+\/.+\/|(?:v|e(?:mbed)?)\/|.*[?&]v=)|youtu\.be\/)] *)
Definition youtube_prefix : regex :=
  RAlt
    (RSeq (lits "youtube.com/")
       (RAlt (RSeq (plus not_slash) (RSeq (lit "/") (RSeq (plus any) (lit "/"))))
          (RAlt (RSeq (RAlt (lit "v") (RSeq (lit "e") (opt (lits "mbed")))) (lit "/"))
                (RSeq (RStar any)
                   (RSeq (RChar (fun c => bool_decide (c = "?"%char)
                                          || bool_decide (c = "&"%char)))
                         (lits "v="))))))
    (lits "youtu.be/").

Fixpoint all_chars (P : ascii -> bool) (s : string) : bool :=
  match s with
  | EmptyString => true
  | String c s' => P c && all_chars P s'
  end.

(** The capture group, eleven characters of that class, which ends the
    expression. *)
Definition group1 (s : string) : option string :=
  let id := String.substring 0 11 s in
  if (String.length id =? 11)%nat && all_chars id_char id then Some id else None.

(** [url.match(regex)], then [match ? match[1] : null]. *)
Definition extractYoutubeVideoId (url : string) : option string :=
  search youtube_prefix url group1.

(** ** Request handlers and stream events *)

Record UploadedFile := mkFile {
  f_path : string;
  f_originalname : string;
  f_size : Z
}.

Section Handlers.
Context `{RT : Runtime}.

(** POST /api/transcribe.  [file] is [req.file]; [body_model] and
    [body_language] are the form fields. *)
Definition post_transcribe (w : World) (file : option UploadedFile)
    (body_model body_language : option string) (st : State)
  : State * list Effect :=
  match file with
  | None => (st, [ERespond 400 (RError "No audio file provided")])
  | Some f =>
      let jobId := toString (now w) in
      let model := js_or body_model "medium" in
      let language := js_or body_language "en" in
      let st1 :=
        record_job jobId
          (JStarted (f_originalname f) (f_size f) model language (now w)) st in
      let item := mkItem (f_path f) jobId model language in
      let st2 := set_queue (transcriptionQueue st1 ++ [item]) st1 in
      let '(st3, a, effs) := processQueue_sync w st2 in
      let response :=
        ERespond 200 (RJob jobId (length (transcriptionQueue st3))) in
      let '(st4, effs') := microtasks w a st3 in
      (st4, EPush item :: effs ++ response :: effs')
  end.

(** [videoDetails.duration > 1800]; a comparison with NaN is false. *)
Definition too_long (duration : option Z) : bool :=
  match duration with
  | Some d => bool_decide (1800 < d)
  | None => false
  end.

(** POST /api/transcribe-youtube, from the point where
    [getYoutubeVideoDetails] has answered ([info], None when it threw); the
    handler touches no state before that.  [dl_now] is the clock read by
    [downloadYoutubeAudio]; [dl_throws] is the message of an exception
    raised while the download pipeline is set up, if any. *)
Definition post_transcribe_youtube (w : World)
    (youtubeUrl body_model body_language : option string)
    (info : option VideoDetails) (dl_now : Z) (dl_throws : option string)
    (st : State) : State * list Effect :=
  let model := default "medium" body_model in
  let language := default "en" body_language in
  if decide (js_or youtubeUrl "" = "") then
    (st, [ERespond 400 (RError "No YouTube URL provided")])
  else
    match extractYoutubeVideoId (js_or youtubeUrl "") with
    | None => (st, [ERespond 400 (RError "Invalid YouTube URL")])
    | Some videoId =>
        if decide (videoId = "") then
          (st, [ERespond 400 (RError "Invalid YouTube URL")])
        else
          match info with
          | None =>
              (st, [ERespond 400 (RError
                 "Unable to fetch video details. The video might be private or not exist.")])
          | Some videoDetails =>
              if too_long (v_duration videoDetails) then
                (st, [ERespond 400
                        (RTooLong "Video is too long. Maximum duration is 30 minutes."
                                  (v_duration videoDetails))])
              else
                let jobId := toString (now w) in
                let st1 :=
                  record_job jobId
                    (JStartedYoutube ("YouTube: " +:+ v_title videoDetails)
                       videoId videoDetails model language (now w)) st in
                let response :=
                  ERespond 200
                    (RJobYoutube jobId videoDetails
                       (length (transcriptionQueue st1))) in
                (* downloadYoutubeAudio(videoId, jobId) *)
                let outputPath :=
                  path_join UPLOAD_DIR
                    (toString dl_now +:+ "-youtube-" +:+ videoId +:+ ".mp3") in
                let st2 :=
                  record_job jobId
                    (JProcessing (Some (Num 0)) "Downloading audio from YouTube...")
                    st1 in
                match dl_throws with
                | Some message =>
                    (record_job jobId
                       (JError "Failed to process YouTube video" (Some message)) st2,
                     [response])
                | None =>
                    (set_downloads
                       (downloads st2
                        ++ [mkDownload videoId jobId outputPath model language false])
                       st2,
                     [response; EStartDownload videoId jobId outputPath])
                end
          end
    end.

(** [Math.round((downloaded / total) * 100)] *)
Definition round_percent (downloaded total : Z) : number :=
  Math_round
    (double_mul (double_div (double_of_Z downloaded) (double_of_Z total))
                (double_of_Z 100)).

(** [videoStream.on('progress', (_, downloaded, total) => ...)]; the byte
    counts are integers. *)
Definition on_ytdl_progress (downloaded total : Z) (d : Download) (st : State) : State :=
  if bool_decide (0 < total) then
    let progressPercent := round_percent downloaded total in
    record_job (d_jobId d)
      (JProcessing (Some progressPercent)
         ("Downloading audio from YouTube... "
          +:+ Number_toString progressPercent +:+ "%")) st
  else st.

(** [.on('progress', (progress) => ...)] of ffmpeg.  [percent] is
    [progress.percent], None when it is undefined. *)
Definition on_ffmpeg_progress (percent : option double) (d : Download) (st : State)
  : State :=
  match percent with
  | Some x =>
      if truthy_double x then
        let progressPercent := Math_round x in
        record_job (d_jobId d)
          (JProcessing (Some progressPercent)
             ("Converting video to audio... "
              +:+ Number_toString progressPercent +:+ "%")) st
      else st
  | None => st
  end.

(** ffmpeg's ['error']: the promise of [downloadYoutubeAudio] is rejected and
    the request handler's [catch] block runs. *)
Definition on_ffmpeg_error (message : string) (d : Download) (st : State) : State :=
  record_job (d_jobId d)
    (JError "Failed to process YouTube video" (Some message)) st.

(** ffmpeg's ['end']: the promise is resolved with [outputPath] and the
    request handler goes on: push, then [processQueue()]. *)
Definition on_ffmpeg_end (w : World) (d : Download) (st : State)
  : State * list Effect :=
  let item := mkItem (d_outputPath d) (d_jobId d) (d_model d) (d_language d) in
  let st1 := set_queue (transcriptionQueue st ++ [item]) st in
  let '(st2, effs) := processQueue w st1 in
  (st2, EPush item :: effs).

(** ** Transitions

    One constructor per callback.  The index [i] names a live closure by its
    position in [children] or [downloads]; an event for a closure that is
    not live does not occur, and [step] leaves the state alone.

    When events occur is Node's matter, not the server's.  A child is live
    from its spawn to its ['close'] event, which comes last.  The server
    never kills a child nor sends to it, so ['error'] means that the spawn
    failed: it is emitted once, the child has no output, and ['close']
    follows.  Hence no ['data'] and no second ['error'] for a child whose
    promise is settled.  ffmpeg emits ['end'] or ['error'], once.  Its
    ['end'] comes after the end of its input, hence after the last
    ['progress'] of the download stream, and the download is then over.
    Its ['error'] can come at any time; the ['progress'] handlers of the
    download stay registered after it and no event removes them, so a
    failed download stays among the live closures. *)
Inductive Action :=
| PostTranscribe (file : option UploadedFile) (body_model body_language : option string)
| PostTranscribeYoutube (youtubeUrl body_model body_language : option string)
    (info : option VideoDetails) (dl_now : Z) (dl_throws : option string)
| YtdlProgress (i : nat) (downloaded total : Z)
| FfmpegProgress (i : nat) (percent : option double)
| FfmpegError (i : nat) (message : string)
| FfmpegEnd (i : nat)
| ChildStdout (i : nat) (message : string)
| ChildStderr (i : nat) (message : string)
| ChildClose (i : nat) (code : option Z)
| ChildError (i : nat) (message : string).

Definition settle_child (c : Child) : Child :=
  mkChild (c_inputPath c) (c_jobId c) (c_validModel c) (c_language c)
          (c_output c) (c_errorOutput c) true.

Definition fail_download (d : Download) : Download :=
  mkDownload (d_videoId d) (d_jobId d) (d_outputPath d) (d_model d)
             (d_language d) true.

Definition step (w : World) (a : Action) (st : State) : State * list Effect :=
  match a with
  | PostTranscribe file m l => post_transcribe w file m l st
  | PostTranscribeYoutube url m l info dl_now dl_throws =>
      post_transcribe_youtube w url m l info dl_now dl_throws st
  | YtdlProgress i downloaded total =>
      match downloads st !! i with
      | Some d => (on_ytdl_progress downloaded total d st, [])
      | None => (st, [])
      end
  | FfmpegProgress i percent =>
      match downloads st !! i with
      | Some d => (on_ffmpeg_progress percent d st, [])
      | None => (st, [])
      end
  | FfmpegError i message =>
      match downloads st !! i with
      | Some d =>
          if d_failed d then (st, [])
          else
            (on_ffmpeg_error message d
               (set_downloads (<[i := fail_download d]> (downloads st)) st), [])
      | None => (st, [])
      end
  | FfmpegEnd i =>
      match downloads st !! i with
      | Some d =>
          if d_failed d then (st, [])
          else on_ffmpeg_end w d (set_downloads (delete i (downloads st)) st)
      | None => (st, [])
      end
  | ChildStdout i message =>
      match children st !! i with
      | Some c =>
          if c_settled c then (st, [])
          else
            let '(c', st1) := on_stdout message c st in
            (set_children (<[i := c']> (children st1)) st1, [])
      | None => (st, [])
      end
  | ChildStderr i message =>
      match children st !! i with
      | Some c =>
          if c_settled c then (st, [])
          else (set_children (<[i := on_stderr message c]> (children st)) st, [])
      | None => (st, [])
      end
  | ChildClose i code =>
      match children st !! i with
      | Some c =>
          let '(st1, p) :=
            on_close w code c (set_children (delete i (children st)) st) in
          if c_settled c then (st1, [])
          else microtasks w (Some (c_jobId c, Some p)) st1
      | None => (st, [])
      end
  | ChildError i message =>
      match children st !! i with
      | Some c =>
          if c_settled c then (st, [])
          else
            let '(st1, p) := on_error message c st in
            microtasks w (Some (c_jobId c, Some p))
              (set_children (<[i := settle_child c]> (children st1)) st1)
      | None => (st, [])
      end
  end.

(** A run: the callbacks of a list of events, in order, with the log of
    their effects. *)
Fixpoint run (evs : list (World * Action)) (st : State) : State * list Effect :=
  match evs with
  | [] => (st, [])
  | (w, a) :: evs' =>
      let '(st1, effs) := step w a st in
      let '(st2, effs') := run evs' st1 in
      (st2, effs ++ effs')
  end.

End Handlers.

(** ** The legacy revision

    The first revision of the server: one model, one language, no remote
    references, and a direct shell execution of the engine when the spawned
    one leaves no transcript. *)

Module Legacy.

Definition UPLOAD_DIR : string := "/var/www/whisper-app/backend/uploads".

Inductive JobRecord :=
| LStarted
| LProcessing (progress : string)
| LCompleted (transcription : string)
| LError (msg : string) (details : option string).

Definition status (r : JobRecord) : Status :=
  match r with
  | LStarted => started
  | LProcessing _ => processing
  | LCompleted _ => completed
  | LError _ _ => error
  end.

(** The variables of one [transcribeAudio] call that its handlers read and
    write. *)
Record Child := mkChild {
  c_inputPath : string;
  c_jobId : string;
  c_absolutePath : string;
  c_output : string;
  c_errorOutput : string
}.

Inductive Response :=
| RError (msg : string)
| RJob (jobId : string).

Inductive Effect :=
| ESpawn (cmd : string) (args : list string)
| EExec (command : string)
| ERespond (code : Z) (body : Response).

Record QueueItem := mkItem {
  filePath : string;
  q_jobId : string
}.

(** A live closure of [transcribeAudio]: whether its promise is settled, and
    whether ['close'] has started the direct command, whose callback is
    then still to come. *)
Record Live := mkLive {
  l_child : Child;
  l_settled : bool;
  l_direct : bool
}.

Record State := mkState {
  transcriptions : gmap string JobRecord;
  transcriptionQueue : list QueueItem;
  isProcessing : bool;
  children : list Live
}.

Definition init : State := mkState ∅ [] false [].

Section Adapter.
Context `{RT : Runtime}.

Definition txtFile_of (inputPath : string) : string :=
  path_join UPLOAD_DIR
    (path_basename_ext inputPath (path_extname inputPath) +:+ ".txt").

Definition dquote : string := String "034"%char EmptyString.

(** The command line handed to [exec]. *)
Definition direct_command (absolutePath : string) : string :=
  "cd " +:+ UPLOAD_DIR +:+ " && whisper " +:+ dquote +:+ absolutePath +:+ dquote
  +:+ " --model medium --language en --device cpu --threads 2".

Definition whisper_args (absolutePath : string) : list string :=
  [absolutePath; "--model"; "medium"; "--language"; "en";
   "--output_dir"; UPLOAD_DIR; "--device"; "cpu"; "--threads"; "2"].

(** The synchronous part of [transcribeAudio].  The function reads
    [/proc/meminfo] before its [try] block, so its promise is rejected when
    that file cannot be read; [spawn] throwing inside the executor rejects
    the promise as well. *)
Definition transcribeAudio (w : World) (inputPath jobId : string) (st : State)
  : State * option Settle * list Effect :=
  if negb (existsSync w inputPath) then
    (mkState (<[jobId := LError ("Input file not found: " +:+ inputPath) None]>
                (transcriptions st))
             (transcriptionQueue st) (isProcessing st) (children st),
     Some Resolved, [])
  else
    let absolutePath := path_resolve inputPath in
    if negb (existsSync w "/proc/meminfo") then
      (st, Some (Rejected "ENOENT: no such file or directory, open '/proc/meminfo'"),
       [])
    else
      match spawn_throws "whisper" (whisper_args absolutePath) with
      | Some message =>
          (st, Some (Rejected message), [ESpawn "whisper" (whisper_args absolutePath)])
      | None =>
          (mkState (transcriptions st) (transcriptionQueue st) (isProcessing st)
                   (children st
                    ++ [mkLive (mkChild inputPath jobId absolutePath "" "") false false]),
           None, [ESpawn "whisper" (whisper_args absolutePath)])
      end.

(** [stdout.on('data', ...)] and [stderr.on('data', ...)] *)
Definition on_stdout (message : string) (c : Child) (reg : gmap string JobRecord)
  : Child * gmap string JobRecord :=
  let output := c_output c +:+ message in
  (mkChild (c_inputPath c) (c_jobId c) (c_absolutePath c) output (c_errorOutput c),
   <[c_jobId c := LProcessing output]> reg).

Definition on_stderr (message : string) (c : Child) : Child :=
  mkChild (c_inputPath c) (c_jobId c) (c_absolutePath c) (c_output c)
          (c_errorOutput c +:+ message).

(** ['close'] either settles the promise or starts the direct command and
    leaves the promise pending. *)
Definition on_close (w : World) (code : option Z) (c : Child)
    (reg : gmap string JobRecord)
  : gmap string JobRecord * option Settle * list Effect :=
  let txtFile := txtFile_of (c_inputPath c) in
  if existsSync w txtFile then
    (<[c_jobId c := LCompleted (readFileSync w txtFile)]> reg, Some Resolved, [])
  else
    (reg, None, [EExec (direct_command (c_absolutePath c))]).

(** How [exec] ends.  Its callback gets no error when the command exits
    with code 0.  When the command exits with another code or on a signal,
    Node builds the error itself, and its message is the command line and
    the text the command wrote on its stderr.  Any other error (the shell
    could not be started, the output outgrew the buffer) comes with a
    message of its own. *)
Inductive ExecResult :=
| ExecOk
| ExecFailed (stderr : string)
| ExecError (message : string).

Definition newline : string := String "010"%char EmptyString.

(** [error.message] in the callback of [exec], None when [error] is null. *)
Definition exec_error (command : string) (r : ExecResult) : option string :=
  match r with
  | ExecOk => None
  | ExecFailed stderr => Some ("Command failed: " +:+ command +:+ newline +:+ stderr)
  | ExecError message => Some message
  end.

(** The callback of [exec]; [err] is [error.message] when [error] is set.
    It reads neither its [stdout] and [stderr] arguments nor the
    [errorOutput] of the spawned child. *)
Definition on_exec_done (w : World) (err : option string) (c : Child)
    (reg : gmap string JobRecord)
  : gmap string JobRecord * Settle :=
  let txtFile := txtFile_of (c_inputPath c) in
  match err with
  | Some message =>
      (<[c_jobId c := LError "Failed to transcribe audio" (Some message)]> reg,
       Rejected message)
  | None =>
      if existsSync w txtFile then
        (<[c_jobId c := LCompleted (readFileSync w txtFile)]> reg, Resolved)
      else
        (<[c_jobId c := LError "Transcription file not found after direct command" None]> reg,
         Rejected "Transcription file not found after direct command")
  end.

(** ['error'] of the child process. *)
Definition on_error (message : string) (c : Child) (reg : gmap string JobRecord)
  : gmap string JobRecord * Settle :=
  (<[c_jobId c := LError message None]> reg, Rejected message).

End Adapter.

Section Server.
Context `{RT : Runtime}.

Definition set_transcriptions (reg : gmap string JobRecord) (st : State) : State :=
  mkState reg (transcriptionQueue st) (isProcessing st) (children st).

Definition set_children (cs : list Live) (st : State) : State :=
  mkState (transcriptions st) (transcriptionQueue st) (isProcessing st) cs.

Definition Awaiting : Type := option (string * option Settle).

(** [processQueue] from its entry to its [await]. *)
Definition processQueue_sync (w : World) (st : State)
  : State * Awaiting * list Effect :=
  if isProcessing st then (st, None, [])
  else
    match transcriptionQueue st with
    | [] => (st, None, [])
    | item :: rest =>
        let st1 := mkState (transcriptions st) rest true (children st) in
        let '(st2, p, effs) := transcribeAudio w (filePath item) (q_jobId item) st1 in
        (st2, Some (q_jobId item, p), effs)
    end.

(** [processQueue] after its [await], up to the final call
    [processQueue()]. *)
Definition processQueue_resume (jobId : string) (p : Settle) (st : State) : State :=
  match p with
  | Resolved =>
      mkState (transcriptions st) (transcriptionQueue st) false (children st)
  | Rejected message =>
      mkState (<[jobId := LError "Failed to process file in queue" (Some message)]>
                 (transcriptions st))
              (transcriptionQueue st) false (children st)
  end.

Fixpoint await_loop (fuel : nat) (w : World) (a : Awaiting) (st : State)
  : State * list Effect :=
  match a, fuel with
  | Some (jobId, Some p), S fuel' =>
      let '(st1, a', effs) := processQueue_sync w (processQueue_resume jobId p st) in
      let '(st2, effs') := await_loop fuel' w a' st1 in
      (st2, effs ++ effs')
  | _, _ => (st, [])
  end.

Definition microtasks (w : World) (a : Awaiting) (st : State) : State * list Effect :=
  await_loop (S (length (transcriptionQueue st))) w a st.

Inductive Action :=
| PostTranscribe (file : option UploadedFile)
| ChildStdout (i : nat) (message : string)
| ChildStderr (i : nat) (message : string)
| ChildClose (i : nat) (code : option Z)
| ChildError (i : nat) (message : string)
| ExecDone (i : nat) (r : ExecResult).

(** One callback.  The events of a child come as in the current revision;
    the callback of the direct command comes once, after the ['close'] that
    started it. *)
Definition step (w : World) (a : Action) (st : State) : State * list Effect :=
  match a with
  | PostTranscribe None => (st, [ERespond 400 (RError "No audio file provided")])
  | PostTranscribe (Some f) =>
      let jobId := toString (now w) in
      let st1 :=
        mkState (<[jobId := LStarted]> (transcriptions st))
                (transcriptionQueue st ++ [mkItem (f_path f) jobId])
                (isProcessing st) (children st) in
      let '(st2, a, effs) := processQueue_sync w st1 in
      let '(st3, effs') := microtasks w a st2 in
      (st3, effs ++ ERespond 200 (RJob jobId) :: effs')
  | ChildStdout i message =>
      match children st !! i with
      | Some l =>
          if l_settled l || l_direct l then (st, [])
          else
            let '(c', reg) := on_stdout message (l_child l) (transcriptions st) in
            (set_children (<[i := mkLive c' false false]> (children st))
               (set_transcriptions reg st), [])
      | None => (st, [])
      end
  | ChildStderr i message =>
      match children st !! i with
      | Some l =>
          if l_settled l || l_direct l then (st, [])
          else
            (set_children
               (<[i := mkLive (on_stderr message (l_child l)) false false]>
                  (children st)) st, [])
      | None => (st, [])
      end
  | ChildClose i code =>
      match children st !! i with
      | Some l =>
          if l_direct l then (st, [])
          else
            let '(reg, p, effs) := on_close w code (l_child l) (transcriptions st) in
            match p with
            | Some p' =>
                let st1 :=
                  set_children (delete i (children st)) (set_transcriptions reg st) in
                if l_settled l then (st1, effs)
                else
                  let '(st2, effs') :=
                    microtasks w (Some (c_jobId (l_child l), Some p')) st1 in
                  (st2, effs ++ effs')
            | None =>
                (set_children
                   (<[i := mkLive (l_child l) (l_settled l) true]> (children st))
                   (set_transcriptions reg st), effs)
            end
      | None => (st, [])
      end
  | ChildError i message =>
      match children st !! i with
      | Some l =>
          if l_settled l || l_direct l then (st, [])
          else
            let '(reg, p) := on_error message (l_child l) (transcriptions st) in
            microtasks w (Some (c_jobId (l_child l), Some p))
              (set_children (<[i := mkLive (l_child l) true false]> (children st))
                 (set_transcriptions reg st))
      | None => (st, [])
      end
  | ExecDone i r =>
      match children st !! i with
      | Some l =>
          if l_direct l then
            let err := exec_error (direct_command (c_absolutePath (l_child l))) r in
            let '(reg, p) := on_exec_done w err (l_child l) (transcriptions st) in
            let st1 :=
              set_children (delete i (children st)) (set_transcriptions reg st) in
            if l_settled l then (st1, [])
            else microtasks w (Some (c_jobId (l_child l), Some p)) st1
          else (st, [])
      | None => (st, [])
      end
  end.

Fixpoint run (evs : list (World * Action)) (st : State) : State * list Effect :=
  match evs with
  | [] => (st, [])
  | (w, a) :: evs' =>
      let '(st1, effs) := step w a st in
      let '(st2, effs') := run evs' st1 in
      (st2, effs ++ effs')
  end.

End Server.
End Legacy.

(** ** A runtime for the examples

    The built-ins as far as the examples of this file use them: the path
    functions on absolute POSIX paths without [.], [..] or doubled slashes,
    [JSON.parse] on the texts [null], [{}] and [[]] and on texts that are not
    JSON, and a [spawn] that refuses arguments with a null byte. *)

Module Example.

Fixpoint after_last_slash (acc s : string) : string :=
  match s with
  | EmptyString => acc
  | String c s' =>
      if decide (c = "/"%char) then after_last_slash "" s'
      else after_last_slash (acc +:+ String c "") s'
  end.

Definition basename (p : string) : string := after_last_slash "" p.

(** The extension: from the last dot of the base name, when that dot is not
    its first character. *)
Fixpoint ext_go (seen : bool) (ext s : string) : string :=
  match s with
  | EmptyString => ext
  | String c s' =>
      if decide (c = "."%char) then
        if seen then ext_go true (String c "") s' else ext_go true "" s'
      else ext_go true (if decide (ext = "") then "" else ext +:+ String c "") s'
  end.

Definition extname (p : string) : string := ext_go false "" (basename p).

Definition basename_ext (p ext : string) : string :=
  let b := basename p in
  let n := (String.length b - String.length ext)%nat in
  if decide (ext <> "" /\ String.length ext < String.length b
             /\ String.substring n (String.length ext) b = ext)%nat
  then String.substring 0 n b else b.

Definition parse (text : string) : option json :=
  if decide (text = "null") then Some JNull
  else if decide (text = "{}") then Some (JObj [])
  else if decide (text = "[]") then Some (JArr [])
  else None.

Fixpoint has_null (s : string) : bool :=
  match s with
  | EmptyString => false
  | String c s' => bool_decide (c = "000"%char) || has_null s'
  end.

(** The argument as Node's message shows it, for a short argument made of
    letters, digits and null bytes. *)
Fixpoint shown (s : string) : string :=
  match s with
  | EmptyString => ""
  | String c s' =>
      (if decide (c = "000"%char) then "\x00" else String c "") +:+ shown s'
  end.

Fixpoint refused (i : Z) (args : list string) : option string :=
  match args with
  | [] => None
  | arg :: args' =>
      if has_null arg then
        Some ("The argument 'args[" +:+ pretty i
              +:+ "]' must be a string without null bytes. Received '"
              +:+ shown arg +:+ "'")
      else refused (i + 1) args'
  end.

#[export] Instance runtime : Runtime := {|
  UPLOAD_DIR := "/var/www/whisper-app/backend/uploads";
  USE_FASTER_WHISPER := false;
  WHISPER_THREADS := None;
  path_basename := basename;
  path_basename_ext := basename_ext;
  path_extname := extname;
  path_join := fun a b => a +:+ "/" +:+ b;
  path_resolve := fun p => p;
  JSON_parse := parse;
  spawn_throws := fun cmd args => refused 0 args
|}.

(** A file system with the given files, and the clock at [t]. *)
Definition world (t : Z) (files : list (string * string)) : World :=
  mkWorld t
    (fun p => bool_decide (is_Some (list_to_map (M := gmap string string) files !! p)))
    (fun p => default "" (list_to_map (M := gmap string string) files !! p)).

End Example.

(** * Definitions used by the properties *)

(** Decidable facts about concrete values, settled by evaluation. *)
Ltac by_computation := apply (bool_decide_unpack _); vm_compute; exact I.

(** ** Claims as worded, and example values *)

Definition model_ids : list string := m_id <$> AVAILABLE_MODELS.

(** The claim as the specification words it: an unknown model is replaced by
    the default, and a language outside the recognised list gives no
    language flag. *)
Definition validation_as_specified (model language : string) : Prop :=
  (model ∉ model_ids -> validModel_of model = "medium")
  /\ (language ∉ language_codes -> language_args language = []).

Definition example_child : Child :=
  mkChild "/var/www/whisper-app/backend/uploads/5-talk.mp3" "5" "medium" "en"
          "" "" false.

(** The claim as the specification words it, for the current revision: when
    the transcript is missing at ['close'], failure is reported only after
    a fallback invocation, so the job is not failed yet when the callback
    of ['close'] is over. *)
Definition failure_waits_for_fallback `{RT : Runtime}
    (w : World) (code : option Z) (i : nat) (c : Child) (st : State) : Prop :=
  children st !! i = Some c ->
  existsSync w (txtFile_of (c_inputPath c)) = false ->
  forall r, transcriptions (step w (ChildClose i code) st).1 !! c_jobId c = Some r ->
            status r <> error.

Definition hour_long_video : VideoDetails :=
  mkVideoDetails "Lecture" (Some 3600) "Somebody" "https://i.ytimg.com/x.jpg".

(** Two uploads, their files on disk, and a short video. *)
Definition upload_a : UploadedFile :=
  mkFile "/var/www/whisper-app/backend/uploads/100-a.mp3" "a.mp3" 10.

Definition upload_b : UploadedFile :=
  mkFile "/var/www/whisper-app/backend/uploads/101-b.mp3" "b.mp3" 20.

Definition uploads_on_disk : list (string * string) :=
  [("/var/www/whisper-app/backend/uploads/100-a.mp3", "");
   ("/var/www/whisper-app/backend/uploads/101-b.mp3", "")].

Definition short_video : VideoDetails :=
  mkVideoDetails "Talk" (Some 60) "Somebody" "https://i.ytimg.com/y.jpg".

(** Two uploads one millisecond apart; the engine run of the first then ends
    without a transcript. *)
Definition two_uploads_then_close : list (World * Action) :=
  [(Example.world 100 uploads_on_disk, PostTranscribe (Some upload_a) None None);
   (Example.world 101 uploads_on_disk, PostTranscribe (Some upload_b) None None);
   (Example.world 200 uploads_on_disk, ChildClose 0 (Some 1))].

(** Two remote-reference submissions one millisecond apart. *)
Definition two_youtube_submissions : list (World * Action) :=
  [(Example.world 100 [],
    PostTranscribeYoutube (Some "https://youtu.be/dQw4w9WgXcQ") None None
      (Some short_video) 100 None);
   (Example.world 101 [],
    PostTranscribeYoutube (Some "https://youtu.be/aaaaaaaaaaa") None None
      (Some short_video) 101 None)].

(** Two uploads handled within the same millisecond. *)
Definition same_tick_uploads : list (World * Action) :=
  [(Example.world 100 uploads_on_disk, PostTranscribe (Some upload_a) None None);
   (Example.world 100 uploads_on_disk, PostTranscribe (Some upload_b) None None)].

(** The job ids handed out in the responses of a log. *)
Definition job_ids (log : list Effect) : list string :=
  omap (fun e => match e with
                 | ERespond _ (RJob jobId _) => Some jobId
                 | ERespond _ (RJobYoutube jobId _ _) => Some jobId
                 | _ => None
                 end) log.

(** ** The scheduler, characterised *)

Section SchedulerDefs.
Context `{RT : Runtime}.

Definition dispatched (effs : list Effect) : list QueueItem :=
  omap (fun e => match e with EDispatch item => Some item | _ => None end) effs.

Definition pushed (effs : list Effect) : list QueueItem :=
  omap (fun e => match e with EPush item => Some item | _ => None end) effs.

(** The entry stored for an item whose input file is missing, and the
    closure created for an item whose input file exists. *)
Definition input_not_found (item : QueueItem) : JobRecord :=
  JError ("Input file not found: " +:+ filePath item) None.

Definition spawned_child (item : QueueItem) : Child :=
  mkChild (filePath item) (q_jobId item) (validModel_of (q_model item))
          (q_language item) "" "" false.

(** The command [spawn] is called with for an item, the message of the
    exception if that call throws, and the entry that the [catch] block of
    [processQueue] stores for a rejected promise. *)
Definition command_of (item : QueueItem) : string * list string :=
  whisper_command (path_resolve (filePath item)) (validModel_of (q_model item))
                  (q_language item).

Definition spawn_call (item : QueueItem) : Effect :=
  ESpawn (command_of item).1 (command_of item).2.

Definition spawn_error (item : QueueItem) : option string :=
  spawn_throws (command_of item).1 (command_of item).2.

Definition queue_failure (message : string) : JobRecord :=
  JError "Failed to process file in queue" (Some message).

(** An item that is disposed of without a child: the entry left for it and
    what its dispatch emits.  None for an item that gets a child. *)
Definition skipped (w : World) (item : QueueItem) : option (JobRecord * list Effect) :=
  if negb (existsSync w (filePath item)) then Some (input_not_found item, [])
  else
    match spawn_error item with
    | Some message => Some (queue_failure message, [spawn_call item])
    | None => None
    end.

Definition blocked (st : State) : Prop :=
  isProcessing st = true \/ transcriptionQueue st = []
  \/ MAX_CONCURRENT_JOBS <= activeJobs st.

(** The four ways the synchronous part of [processQueue] can go. *)
Inductive sync_case (w : World) (st : State)
  : State * Awaiting * list Effect -> Prop :=
| sync_blocked :
    blocked st -> sync_case w st (st, None, [])
| sync_missing item rest :
    transcriptionQueue st = item :: rest ->
    isProcessing st = false ->
    activeJobs st < MAX_CONCURRENT_JOBS ->
    existsSync w (filePath item) = false ->
    sync_case w st
      (mkState (<[q_jobId item := input_not_found item]> (transcriptions st))
               rest true (activeJobs st + 1) (children st) (downloads st),
       Some (q_jobId item, Some Resolved), [EDispatch item])
| sync_threw item rest message :
    transcriptionQueue st = item :: rest ->
    isProcessing st = false ->
    activeJobs st < MAX_CONCURRENT_JOBS ->
    existsSync w (filePath item) = true ->
    spawn_error item = Some message ->
    sync_case w st
      (mkState (transcriptions st) rest true (activeJobs st + 1)
               (children st) (downloads st),
       Some (q_jobId item, Some (Rejected message)),
       [EDispatch item; spawn_call item])
| sync_spawned item rest :
    transcriptionQueue st = item :: rest ->
    isProcessing st = false ->
    activeJobs st < MAX_CONCURRENT_JOBS ->
    existsSync w (filePath item) = true ->
    spawn_error item = None ->
    sync_case w st
      (mkState (transcriptions st) rest true (activeJobs st + 1)
               (children st ++ [spawned_child item]) (downloads st),
       Some (q_jobId item, None), [EDispatch item; spawn_call item]).

(** [processQueue()] run to quiescence from [st]: the dispatches it makes, in
    order, and the state when the callback and its continuations are over.
    Items whose input file is missing or whose [spawn] throws are disposed
    of one after the other; the first item that gets a child is waited
    for. *)
Inductive drained (w : World) : State -> State -> list Effect -> Prop :=
| drained_blocked st :
    blocked st -> drained w st st []
| drained_spawned st item rest :
    transcriptionQueue st = item :: rest ->
    isProcessing st = false ->
    activeJobs st < MAX_CONCURRENT_JOBS ->
    skipped w item = None ->
    drained w st
      (mkState (transcriptions st) rest true (activeJobs st + 1)
               (children st ++ [spawned_child item]) (downloads st))
      [EDispatch item; spawn_call item]
| drained_skipped st item rest r effs0 st' effs :
    transcriptionQueue st = item :: rest ->
    isProcessing st = false ->
    activeJobs st < MAX_CONCURRENT_JOBS ->
    skipped w item = Some (r, effs0) ->
    drained w
      (mkState (<[q_jobId item := r]> (transcriptions st))
               rest false (activeJobs st) (children st) (downloads st))
      st' effs ->
    drained w st st' (EDispatch item :: effs0 ++ effs).

(** The state in which a callback reaches a call [processQueue()] (for a
    child event that settles the awaited promise: the final call of the
    resumed [processQueue], after its [try] or [catch] block), and whether
    it reaches one at all. *)
Definition before_drain (w : World) (a : Action) (st : State) : State * bool :=
  match a with
  | PostTranscribe (Some f) body_model body_language =>
      let jobId := toString (now w) in
      let model := js_or body_model "medium" in
      let language := js_or body_language "en" in
      let st1 :=
        record_job jobId
          (JStarted (f_originalname f) (f_size f) model language (now w)) st in
      (set_queue (transcriptionQueue st1 ++ [mkItem (f_path f) jobId model language]) st1,
       true)
  | FfmpegEnd i =>
      match downloads st !! i with
      | Some d =>
          if d_failed d then (st, false)
          else
            let st0 := set_downloads (delete i (downloads st)) st in
            (set_queue
               (transcriptionQueue st0
                ++ [mkItem (d_outputPath d) (d_jobId d) (d_model d) (d_language d)])
               st0,
             true)
      | None => (st, false)
      end
  | ChildClose i code =>
      match children st !! i with
      | Some c =>
          let '(st1, p) :=
            on_close w code c (set_children (delete i (children st)) st) in
          if c_settled c then (st1, false)
          else (processQueue_resume (c_jobId c) p st1, true)
      | None => (st, false)
      end
  | ChildError i message =>
      match children st !! i with
      | Some c =>
          if c_settled c then (st, false)
          else
            let '(st1, p) := on_error message c st in
            (processQueue_resume (c_jobId c) p
               (set_children (<[i := settle_child c]> (children st1)) st1),
             true)
      | None => (st, false)
      end
  | _ => ((step w a st).1, false)
  end.

(** The children whose promise is still pending. *)
Definition pending (cs : list Child) : nat :=
  length (filter (fun c => c_settled c = false) cs).

(** The scheduler's bookkeeping agrees with the pending promises: idle with
    nothing awaited, or busy awaiting exactly one child. *)
Definition sched_inv (st : State) : Prop :=
  (isProcessing st = false /\ activeJobs st = 0 /\ pending (children st) = 0%nat)
  \/ (isProcessing st = true /\ activeJobs st = 1 /\ pending (children st) = 1%nat).

Definition reachable (st : State) : Prop :=
  exists evs, st = (run evs init).1.

(** Registry entries whose status is ['processing']. *)
Definition processing_jobs (st : State) : nat :=
  length (filter (fun kr => status kr.2 = processing)
                 (map_to_list (transcriptions st))).

(** The claim as the specification words it: no more than
    [MAX_CONCURRENT_JOBS] registry entries are in the ['processing'] state. *)
Definition processing_within_limit (st : State) : Prop :=
  Z.of_nat (processing_jobs st) <= MAX_CONCURRENT_JOBS.

End SchedulerDefs.

Arguments pending : simpl never.

(** ** Life cycle of a registry entry *)

(** Where a job that is still being worked on is held: in the queue, in a
    child whose outcome is awaited, in a child whose failure has been
    reported already (its ['close'] is still to come), in a download, or in
    a download that has failed (its progress events may still come). *)
Inductive Stage := Queued | Awaited | Reported | Downloading | FailedDownload.

Definition stage_ok (s : Stage) (r : JobRecord) : Prop :=
  match s with
  | Queued | Awaited => status r = started \/ status r = processing
  | Reported => status r = error
  | Downloading => status r = processing
  | FailedDownload => status r = error \/ status r = processing
  end.

Definition child_stage (c : Child) : Stage :=
  if c_settled c then Reported else Awaited.

Definition download_stage (d : Download) : Stage :=
  if d_failed d then FailedDownload else Downloading.

Definition holders_of (q : list QueueItem) (cs : list Child) (ds : list Download)
  : list (string * Stage) :=
  ((fun item => (q_jobId item, Queued)) <$> q)
  ++ ((fun c => (c_jobId c, child_stage c)) <$> cs)
  ++ ((fun d => (d_jobId d, download_stage d)) <$> ds).

(** The jobs whose download has failed. *)
Definition failed_ids (st : State) : list string :=
  d_jobId <$> filter (fun d => d_failed d = true) (downloads st).

Definition holders (st : State) : list (string * Stage) :=
  holders_of (transcriptionQueue st) (children st) (downloads st).

(** Every job id is held at most once, and the entry of a held job has a
    status that fits where it is held. *)
Definition held (hs : list (string * Stage)) (reg : gmap string JobRecord) : Prop :=
  NoDup hs.*1
  /\ forall j s, (j, s) ∈ hs -> exists r, reg !! j = Some r /\ stage_ok s r.

Definition life_inv (st : State) : Prop := held (holders st) (transcriptions st).

(** Absent, then started, then processing, then finished. *)
Definition rank (s : option Status) : nat :=
  match s with
  | None => 0
  | Some started => 1
  | Some processing => 2
  | Some completed | Some error => 3
  end.

Definition status_of (st : State) (jobId : string) : option Status :=
  status <$> transcriptions st !! jobId.

(** A registry moves forward: no entry loses rank, except that the entry of
    a job in [late] may go from finished back to ['processing']; an entry
    that is there stays and does not go back to ['started']; a completed
    entry stays as it is; and an entry appears only under the id [new]. *)
Definition forward (new : option string) (late : list string)
    (reg reg' : gmap string JobRecord) : Prop :=
  forall j,
    (j ∉ late -> (rank (status <$> reg !! j) <= rank (status <$> reg' !! j))%nat)
    /\ (Nat.min 2 (rank (status <$> reg !! j)) <= rank (status <$> reg' !! j))%nat
    /\ (forall r, reg !! j = Some r -> status r = completed -> reg' !! j = Some r)
    /\ (reg !! j = None -> new <> Some j -> reg' !! j = None).

(** Over a run, with the ids issued along it. *)
Definition forward_run (ids late : list string)
    (reg reg' : gmap string JobRecord) : Prop :=
  forall j,
    (j ∉ late -> (rank (status <$> reg !! j) <= rank (status <$> reg' !! j))%nat)
    /\ (Nat.min 2 (rank (status <$> reg !! j)) <= rank (status <$> reg' !! j))%nat
    /\ (forall r, reg !! j = Some r -> status r = completed -> reg' !! j = Some r)
    /\ (reg !! j = None -> j ∉ ids -> reg' !! j = None).

(** The entries that may be written over the entry of a job held at a
    stage. *)
Definition advance (s : Stage) (r' : JobRecord) : Prop :=
  match s with
  | Reported => status r' = completed \/ status r' = error
  | FailedDownload => status r' = processing \/ status r' = error
  | _ => status r' <> started
  end.

Section LifeDefs.
Context `{RT : Runtime}.

(** The job id an event's submission is given, if the event is a submission
    that is accepted. *)
Definition issued_id (e : World * Action) : option string :=
  match e.2 with
  | PostTranscribe (Some _) _ _ => Some (toString (now e.1))
  | PostTranscribeYoutube youtubeUrl _ _ (Some videoDetails) _ _ =>
      if decide (js_or youtubeUrl "" = "") then None
      else
        match extractYoutubeVideoId (js_or youtubeUrl "") with
        | Some videoId =>
            if decide (videoId = "") then None
            else if too_long (v_duration videoDetails) then None
            else Some (toString (now e.1))
        | None => None
        end
  | _ => None
  end.

Definition issued_ids (evs : list (World * Action)) : list string :=
  omap issued_id evs.

(** The claim as the specification words it, on the statuses the code
    stores (it stores no separate status for a queued job): between two
    consecutive callbacks an entry either keeps its status or makes one of
    the listed moves. *)
Definition specified_move (s s' : option Status) : Prop :=
  s' = s
  \/ (s = None /\ s' = Some started)
  \/ (s = Some started /\ s' = Some processing)
  \/ (s = Some processing /\ s' = Some completed)
  \/ (s = Some processing /\ s' = Some error).

End LifeDefs.

(** An upload whose engine run prints nothing and leaves a transcript. *)
Definition quiet_success : list (World * Action) :=
  [(Example.world 100 uploads_on_disk, PostTranscribe (Some upload_a) None None);
   (Example.world 200
      (("/var/www/whisper-app/backend/uploads/100-a.txt", "hello world")
       :: uploads_on_disk),
    ChildClose 0 (Some 0))].

(** An upload whose file is gone when it is dispatched, and a second upload
    handled within the same millisecond. *)
Definition failed_then_same_tick : list (World * Action) :=
  [(Example.world 100 [], PostTranscribe (Some upload_a) None None);
   (Example.world 100 uploads_on_disk, PostTranscribe (Some upload_b) None None)].

(** A remote reference whose conversion fails while the download stream is
    still delivering data: ffmpeg reports an error, then the stream reports
    progress. *)
Definition failed_download_then_progress : list (World * Action) :=
  [(Example.world 100 [],
    PostTranscribeYoutube (Some "https://youtu.be/dQw4w9WgXcQ") None None
      (Some short_video) 100 None);
   (Example.world 150 [], FfmpegError 0 "ffmpeg exited with code 1");
   (Example.world 160 [], YtdlProgress 0 50 200)].

(** A free scheduler with three queued items: the input of the first is
    gone, the language of the second holds a null byte, the third is in
    order. *)
Definition three_items : World * State :=
  (Example.world 300
     [("/var/www/whisper-app/backend/uploads/101-b.mp3", "");
      ("/var/www/whisper-app/backend/uploads/102-c.mp3", "")],
   mkState ∅
     [mkItem "/var/www/whisper-app/backend/uploads/100-a.mp3" "100" "medium" "en";
      mkItem "/var/www/whisper-app/backend/uploads/101-b.mp3" "101" "medium"
        ("e" +:+ String "000" "n");
      mkItem "/var/www/whisper-app/backend/uploads/102-c.mp3" "102" "medium" "en"]
     false 0 [] []).

(** A scheduler that awaits one child, which has written "boom" to its
    standard error; and the legacy server at the point where the direct
    command of such a child is running. *)
Definition failed_run_state : State :=
  mkState ∅ [] true 1
    [mkChild "/var/www/whisper-app/backend/uploads/5-talk.mp3" "5" "medium"
             "en" "" "boom" false] [].

Definition legacy_direct_state : Legacy.State :=
  Legacy.mkState ∅ [] true
    [Legacy.mkLive
       (Legacy.mkChild "/var/www/whisper-app/backend/uploads/5-talk.mp3" "5"
          "/var/www/whisper-app/backend/uploads/5-talk.mp3" "" "boom") false true].

(** * Further definitions: endpoints and invariants beyond the claims *)

(** ** Read-only endpoints *)

Inductive StatusBody :=
| SJob (entry : JobRecord)
| SNotFound (msg : string).

(** GET /api/status/:jobId *)
Definition get_status (jobId : string) (st : State) : Z * StatusBody :=
  match transcriptions st !! jobId with
  | Some entry => (200, SJob entry)
  | None => (404, SNotFound "Job not found")
  end.

(** GET /api/queue, without the memory report. *)
Record QueueStats := mkQueueStats {
  queueLength : nat;
  stats_isProcessing : bool;
  stats_activeJobs : Z;
  activeTranscriptions : nat
}.

Definition get_queue (st : State) : QueueStats :=
  mkQueueStats (length (transcriptionQueue st)) (isProcessing st) (activeJobs st)
               (size (transcriptions st)).

(** The [filename] callback of the multer storage: the name under which an
    upload is stored in the upload directory. *)
Definition storage_filename (t : Z) (originalname : string) : string :=
  toString t +:+ "-" +:+ originalname.

(** ** Scheduler *)

(** Queued jobs are being served: the queue is empty or the scheduler is
    waiting for a child. *)
Definition waiting_is_served (st : State) : Prop :=
  transcriptionQueue st = [] \/ isProcessing st = true.

(** The responses of a log. *)
Definition responses (log : list Effect) : list (Z * Response) :=
  omap (fun e => match e with ERespond code body => Some (code, body) | _ => None end)
       log.

(** The engine invocations of a log. *)
Definition spawns (log : list Effect) : list (string * list string) :=
  omap (fun e => match e with ESpawn cmd args => Some (cmd, args) | _ => None end)
       log.

Section DispatchLoop.
Context `{RT : Runtime}.

(** The leading items of a queue that get no child (the input file is
    missing, or [spawn] throws), and what follows them. *)
Fixpoint leading_skipped (w : World) (q : list QueueItem) : list QueueItem :=
  match q with
  | [] => []
  | item :: rest =>
      match skipped w item with
      | Some _ => item :: leading_skipped w rest
      | None => []
      end
  end.

Fixpoint after_skipped (w : World) (q : list QueueItem) : list QueueItem :=
  match q with
  | [] => []
  | item :: rest =>
      match skipped w item with
      | Some _ => after_skipped w rest
      | None => q
      end
  end.

(** The registry after the failure entry of each item of a list has been
    stored, in order. *)
Definition mark_skipped (w : World) (items : list QueueItem)
    (reg : gmap string JobRecord) : gmap string JobRecord :=
  foldl (fun m item =>
           match skipped w item with
           | Some (r, _) => <[q_jobId item := r]> m
           | None => m
           end) reg items.

(** Whether the input file of an item exists. *)
Definition has_input (w : World) (item : QueueItem) : Prop :=
  existsSync w (filePath item) = true.

Global Instance has_input_dec (w : World) (item : QueueItem) :
  Decision (has_input w item).
Proof. unfold has_input. apply _. Defined.

End DispatchLoop.

(** ** Registry *)

(** Every job that is held somewhere has an entry. *)
Definition known (st : State) : Prop :=
  forall j, j ∈ (holders st).*1 -> is_Some (transcriptions st !! j).

(** How a callback may change which ids have an entry: none is removed, and
    one is added only for the id [new]. *)
Definition registry_step (new : option string) (reg reg' : gmap string JobRecord)
  : Prop :=
  forall j,
    (is_Some (reg !! j) -> is_Some (reg' !! j))
    /\ (reg !! j = None -> new <> Some j -> reg' !! j = None)
    /\ (new = Some j -> is_Some (reg' !! j)).

(** ** Jobs on their way to the engine *)

(** The ids of the jobs pushed so far and of the jobs still downloading. *)
Definition inbound_ids (log : list Effect) (st : State) : list string :=
  (q_jobId <$> pushed log) ++ (d_jobId <$> downloads st).

(** No id is pushed twice or pushed while it is still downloading, and all
    these ids have an entry. *)
Definition inbound_inv (log : list Effect) (st : State) : Prop :=
  known st
  /\ NoDup (inbound_ids log st)
  /\ forall j, j ∈ inbound_ids log st -> is_Some (transcriptions st !! j).

(** ** Entries between callbacks *)

(** What can be said of an entry between two callbacks.  A completed entry
    names a listed model, a non-empty language and a truthy segments value;
    the record that the remote-reference handler stores first, with the
    video details, is not there any more. *)
Definition good_entry (r : JobRecord) : Prop :=
  match r with
  | JCompleted _ segments model language _ _ _ _ =>
      model ∈ model_ids /\ language <> "" /\ truthy_json segments = true
  | JStartedYoutube _ _ _ _ _ _ => False
  | _ => True
  end.

Definition entries_inv (st : State) : Prop :=
  Forall (fun c => c_validModel c ∈ model_ids) (children st)
  /\ map_Forall (fun _ r => good_entry r) (transcriptions st).

(** ** Strings *)

Definition is_digit (c : Ascii.ascii) : bool := bool_decide (is_Some (digit_value c)).

Definition is_percent (c : Ascii.ascii) : bool := bool_decide (c = "%"%char).

(** ** Output of a child *)

(** A ['data'] event of a child: a chunk of its standard output or of its
    standard error. *)
Inductive Chunk :=
| Out (message : string)
| Err (message : string).

Definition data_event (i : nat) (wc : World * Chunk) : World * Action :=
  match wc.2 with
  | Out message => (wc.1, ChildStdout i message)
  | Err message => (wc.1, ChildStderr i message)
  end.

Definition stdout_of (chunks : list (World * Chunk)) : list string :=
  omap (fun wc => match wc.2 with Out m => Some m | Err _ => None end) chunks.

Definition stderr_of (chunks : list (World * Chunk)) : list string :=
  omap (fun wc => match wc.2 with Err m => Some m | Out _ => None end) chunks.

Definition join (parts : list string) : string := foldr String.append "" parts.

(** * The model at work *)

Example progressMatch_first_percentage :
  progressMatch "frames: 120 | 45% done, 50% soon" = Some (Num 45).
Proof. reflexivity. Qed.

Example progressMatch_needs_digits : progressMatch "100 items, % unknown" = None.
Proof. reflexivity. Qed.

(** One upload, a silent engine run, and the transcript "hello world": the
    entry ends completed with that text. *)
Example upload_completes_with_transcript :
  transcriptions (run (RT := Example.runtime) quiet_success init).1 !! "100"
  = Some (JCompleted "hello world" (JArr []) "medium" "en" "100-a.mp3"
            "100-a.txt" None 200).
Proof. vm_compute. reflexivity. Qed.

(** Two uploads back to back: the second waits in the queue, still
    ['started'], while the first is with the engine; it is dispatched in the
    callback that ends the first. *)
Example second_upload_waits_for_first :
  let st := (run (RT := Example.runtime) (take 2 two_uploads_then_close) init).1 in
  let st' := (run (RT := Example.runtime) two_uploads_then_close init).1 in
  (q_jobId <$> transcriptionQueue st) = ["101"]
  /\ (c_jobId <$> children st) = ["100"]
  /\ status_of st "101" = Some started
  /\ transcriptionQueue st' = []
  /\ (c_jobId <$> children st') = ["101"]
  /\ status_of st' "100" = Some error.
Proof. vm_compute. done. Qed.

(** An unknown job id has no entry. *)
Example unknown_job_has_no_entry :
  transcriptions (run (RT := Example.runtime) two_uploads_then_close init).1 !! "7"
  = None.
Proof. vm_compute. reflexivity. Qed.

(** The video id is found behind [v=], behind [youtu.be/] and behind
    [embed/], in any letter case of the host; eleven characters are taken
    even when more follow, and fewer than eleven give no id. *)
Example extractYoutubeVideoId_forms :
  extractYoutubeVideoId "https://www.youtube.com/watch?feature=share&v=dQw4w9WgXcQ"
  = Some "dQw4w9WgXcQ"
  /\ extractYoutubeVideoId "https://youtu.be/dQw4w9WgXcQ?t=10" = Some "dQw4w9WgXcQ"
  /\ extractYoutubeVideoId "https://www.YouTube.com/embed/dQw4w9WgXcQxyz"
     = Some "dQw4w9WgXcQ"
  /\ extractYoutubeVideoId "https://www.youtube.com/watch?v=short" = None
  /\ extractYoutubeVideoId "https://example.com/watch?v=dQw4w9WgXcQ" = None.
Proof. vm_compute. done. Qed.

(** The percentage of a download is rounded from a product of doubles:
    29 of 200 bytes is 14.499999999999998 percent, shown as 14. *)
Example round_percent_in_doubles :
  round_percent 1 3 = Num 33
  /\ round_percent 1 200 = Num 1
  /\ round_percent 29 200 = Num 14
  /\ round_percent 3 8 = Num 38
  /\ Number_toString (round_percent 29 200) = "14".
Proof. vm_compute. done. Qed.

(** The legacy server: an upload, an engine run that leaves no transcript,
    the direct command, and the transcript "hello" it leaves. *)
Example legacy_direct_command_completes :
  let up := "/var/www/whisper-app/backend/uploads/" in
  let files := [(up +:+ "100-a.mp3", ""); ("/proc/meminfo", "")] in
  let evs :=
    [(Example.world 100 files,
      Legacy.PostTranscribe (Some (mkFile (up +:+ "100-a.mp3") "a.mp3" 3)));
     (Example.world 150 files, Legacy.ChildClose 0 (Some 1));
     (Example.world 200 ((up +:+ "100-a.txt", "hello") :: files),
      Legacy.ExecDone 0 Legacy.ExecOk)] in
  Legacy.transcriptions (Legacy.run (RT := Example.runtime) (take 2 evs) Legacy.init).1
    !! "100" = Some Legacy.LStarted
  /\ Legacy.transcriptions (Legacy.run (RT := Example.runtime) evs Legacy.init).1
       !! "100" = Some (Legacy.LCompleted "hello")
  /\ Legacy.isProcessing (Legacy.run (RT := Example.runtime) evs Legacy.init).1 = false.
Proof. vm_compute. done. Qed.

(** * Properties *)



(** ** Model and language validation *)


Lemma validModel_of_known (model : string) :
  model ∈ model_ids -> validModel_of model = model.
Proof.
  unfold model_ids, AVAILABLE_MODELS. rewrite !fmap_cons, fmap_nil. cbn [m_id].
  rewrite !elem_of_cons, elem_of_nil.
  intros [-> | [-> | [-> | [-> | [-> | []]]]]]; reflexivity.
Qed.

Lemma validModel_of_unknown (model : string) :
  model ∉ model_ids -> validModel_of model = "medium".
Proof.
  intros Hnot. unfold validModel_of.
  destruct (List.find _ AVAILABLE_MODELS) as [m|] eqn:Hfind; [|reflexivity].
  exfalso. apply Hnot.
  apply List.find_some in Hfind as [Hin Heq].
  apply bool_decide_eq_true in Heq. subst model.
  apply list_elem_of_fmap. exists m. split; [reflexivity|].
  by apply list_elem_of_In.
Qed.

Lemma validModel_of_valid (model : string) : validModel_of model ∈ model_ids.
Proof.
  destruct (decide (model ∈ model_ids)) as [Hin | Hnot].
  - by rewrite validModel_of_known.
  - rewrite validModel_of_unknown by done.
    unfold model_ids, AVAILABLE_MODELS. cbn. set_solver.
Qed.

Lemma language_args_omitted (language : string) :
  language = "" \/ language = "auto" -> language_args language = [].
Proof. intros [-> | ->]; reflexivity. Qed.

Lemma language_args_passed (language : string) :
  language <> "" -> language <> "auto" ->
  language_args language = ["--language"; language].
Proof.
  intros H1 H2. unfold language_args, truthy_string.
  by rewrite !bool_decide_eq_true_2.
Qed.

(** C8, counterexample: the language "klingon" is not in the list served by
    GET /api/languages, yet the engine is invoked with [--language klingon]. *)
Lemma C8_unlisted_language_is_passed :
  ~ validation_as_specified "medium" "klingon"
  /\ (transcribeAudio (RT := Example.runtime)
        (Example.world 5 [("/up/5-a.mp3", "")])
        "/up/5-a.mp3" "5" "medium" "klingon" init).2
     = [ESpawn "whisper"
          ["/up/5-a.mp3"; "--model"; "medium"; "--output_dir";
           "/var/www/whisper-app/backend/uploads"; "--device"; "cpu";
           "--threads"; "2"; "--language"; "klingon"]].
Proof.
  split; [|vm_compute; reflexivity].
  intros [_ Hlang].
  assert (Hnot : "klingon" ∉ language_codes).
  { unfold language_codes, LANGUAGES. cbn. rewrite !elem_of_cons, elem_of_nil.
    intros H. repeat (destruct H as [H | H]; [discriminate H|]). done. }
  specialize (Hlang Hnot). discriminate Hlang.
Qed.

(** C8, amended: the model handed to the engine is always one of
    [AVAILABLE_MODELS], the requested one when it is listed and "medium"
    otherwise; the language flag is left out exactly when the requested
    language is empty or "auto", and any other language, listed or not, is
    handed to the engine unchanged.  [spawn] is called with exactly
    these arguments. *)
Theorem C8_model_and_language_validation `{RT : Runtime}
    (w : World) (inputPath jobId model language : string) (st : State) :
  validModel_of model ∈ model_ids
  /\ (model ∈ model_ids -> validModel_of model = model)
  /\ (model ∉ model_ids -> validModel_of model = "medium")
  /\ (language = "" \/ language = "auto" -> language_args language = [])
  /\ (language <> "" -> language <> "auto" ->
      language_args language = ["--language"; language])
  /\ (existsSync w inputPath = true ->
      (transcribeAudio w inputPath jobId model language st).2
      = [ESpawn
           (whisper_command (path_resolve inputPath) (validModel_of model) language).1
           (whisper_command (path_resolve inputPath) (validModel_of model) language).2])
  /\ (exists before after,
        (whisper_command (path_resolve inputPath) (validModel_of model) language).2
        = before ++ ["--model"; validModel_of model] ++ after
          ++ language_args language
          ++ (if USE_FASTER_WHISPER then [path_resolve inputPath] else [])).
Proof.
  split; [apply validModel_of_valid|].
  split; [apply validModel_of_known|].
  split; [apply validModel_of_unknown|].
  split; [apply language_args_omitted|].
  split; [apply language_args_passed|].
  split.
  - intros Hex. unfold transcribeAudio. rewrite Hex. cbn [negb].
    destruct (whisper_command _ _ _) as [cmd args]. by destruct (spawn_throws cmd args).
  - unfold whisper_command. destruct USE_FASTER_WHISPER.
    + exists [], ["--output_dir"; UPLOAD_DIR; "--output_format"; "all";
                 "--threads"; js_or WHISPER_THREADS "4";
                 "--beam_size"; "5"; "--best_of"; "5"; "--temperature"; "0"].
      reflexivity.
    + exists [path_resolve inputPath],
             ["--output_dir"; UPLOAD_DIR; "--device"; "cpu";
              "--threads"; js_or WHISPER_THREADS "2"].
      cbn. by rewrite app_nil_r.
Qed.

Lemma C8_model_and_language_validation_witness :
  validModel_of "huge" = "medium" /\ validModel_of "tiny" = "tiny"
  /\ language_args "auto" = [] /\ language_args "yo" = ["--language"; "yo"].
Proof.
  pose proof (C8_model_and_language_validation (RT := Example.runtime)
                (Example.world 5 []) "/up/5-a.mp3" "5" "huge" "auto" init)
    as (_ & _ & Hunknown & Homit & _).
  pose proof (C8_model_and_language_validation (RT := Example.runtime)
                (Example.world 5 []) "/up/5-a.mp3" "5" "tiny" "yo" init)
    as (_ & Hknown & _ & _ & Hpass & _).
  split; [apply Hunknown; by_computation|].
  split; [apply Hknown; by_computation|].
  split; [apply Homit; by right|].
  apply Hpass; discriminate.
Defined.

(** ** The ['close'] handler *)

Section CloseHandler.
Context `{RT : Runtime}.

Lemma on_close_found (w : World) (code : option Z) (c : Child) (st : State) :
  existsSync w (txtFile_of (c_inputPath c)) = true ->
  on_close w code c st
  = (record_job (c_jobId c)
       (JCompleted (readFileSync w (txtFile_of (c_inputPath c)))
          (read_segments w (jsonFile_of (c_inputPath c)))
          (c_validModel c) (js_or (Some (c_language c)) "auto")
          (path_basename (c_inputPath c))
          (path_basename (txtFile_of (c_inputPath c)))
          (if existsSync w (jsonFile_of (c_inputPath c))
           then Some (path_basename (jsonFile_of (c_inputPath c))) else None)
          (now w)) st,
     Resolved).
Proof. intros H. unfold on_close. by rewrite H. Qed.

Lemma on_close_missing (w : World) (code : option Z) (c : Child) (st : State) :
  existsSync w (txtFile_of (c_inputPath c)) = false ->
  on_close w code c st
  = (record_job (c_jobId c)
       (JError "Failed to generate transcription output"
          (Some (js_or (Some (c_errorOutput c))
                   "Unknown error during transcription process"))) st,
     Rejected "Transcription file not found").
Proof. intros H. unfold on_close. by rewrite H. Qed.

Lemma read_segments_unusable (w : World) (jsonFile : string) :
  existsSync w jsonFile = false
  \/ JSON_parse (readFileSync w jsonFile) = None ->
  read_segments w jsonFile = JArr [].
Proof.
  intros [H | H]; unfold read_segments.
  - by rewrite H.
  - rewrite H. by destruct (existsSync w jsonFile).
Qed.

Lemma transcriptions_record_job (jobId : string) (r : JobRecord) (st : State) :
  transcriptions (record_job jobId r st) !! jobId = Some r.
Proof. cbn. apply lookup_insert_eq. Qed.

Lemma transcriptions_record_job_ne (jobId j : string) (r : JobRecord) (st : State) :
  jobId <> j ->
  transcriptions (record_job jobId r st) !! j = transcriptions st !! j.
Proof. intros H. cbn. by apply lookup_insert_ne. Qed.

End CloseHandler.

(** C10: when the transcript exists and the segments file is absent or is
    not valid JSON, the ['close'] handler stores a completed entry holding
    the transcript text and an empty segments list, and resolves the
    promise (so [processQueue] does not overwrite the entry with a
    failure). *)
Theorem C10_unusable_segments_still_completed `{RT : Runtime}
    (w : World) (code : option Z) (c : Child) (st : State) :
  existsSync w (txtFile_of (c_inputPath c)) = true ->
  existsSync w (jsonFile_of (c_inputPath c)) = false
  \/ JSON_parse (readFileSync w (jsonFile_of (c_inputPath c))) = None ->
  (on_close w code c st).2 = Resolved
  /\ exists model language inputFile txt json_file completedAt,
       transcriptions (on_close w code c st).1 !! c_jobId c
       = Some (JCompleted (readFileSync w (txtFile_of (c_inputPath c)))
                 (JArr []) model language inputFile txt json_file completedAt).
Proof.
  intros Htxt Hjson. rewrite on_close_found by done.
  split; [reflexivity|]. cbn [fst].
  rewrite transcriptions_record_job, read_segments_unusable by done.
  by do 6 eexists.
Qed.


Lemma C10_unusable_segments_still_completed_witness :
  exists model language inputFile txt json_file completedAt,
    transcriptions
      (on_close (RT := Example.runtime)
         (Example.world 9
            [("/var/www/whisper-app/backend/uploads/5-talk.txt", "hello world");
             ("/var/www/whisper-app/backend/uploads/5-talk.json", "{segments")])
         (Some 0) example_child init).1 !! "5"
    = Some (JCompleted "hello world" (JArr []) model language inputFile txt
              json_file completedAt).
Proof.
  apply (C10_unusable_segments_still_completed (RT := Example.runtime)
           (Example.world 9
              [("/var/www/whisper-app/backend/uploads/5-talk.txt", "hello world");
               ("/var/www/whisper-app/backend/uploads/5-talk.json", "{segments")])
           (Some 0) example_child init).
  - vm_compute. reflexivity.
  - right. vm_compute. reflexivity.
Defined.

(** ** The duration ceiling *)

(** C7: a remote-reference submission whose reported duration exceeds 1800
    seconds is answered with status 400 and nothing else happens: the state
    (registry, queue, downloads) is unchanged and no download is started.
    When the URL is well formed the answer is the too-long message. *)
Theorem C7_too_long_rejected_without_job `{RT : Runtime}
    (w : World) (youtubeUrl body_model body_language : option string)
    (details : VideoDetails) (duration dl_now : Z) (dl_throws : option string)
    (st : State) :
  v_duration details = Some duration ->
  1800 < duration ->
  exists body,
    step w (PostTranscribeYoutube youtubeUrl body_model body_language
              (Some details) dl_now dl_throws) st
    = (st, [ERespond 400 body])
    /\ (forall url videoId,
          youtubeUrl = Some url -> url <> "" ->
          extractYoutubeVideoId url = Some videoId -> videoId <> "" ->
          body = RTooLong "Video is too long. Maximum duration is 30 minutes."
                          (Some duration)).
Proof.
  intros Hd Hlong. cbn [step]. unfold post_transcribe_youtube.
  destruct (decide (js_or youtubeUrl "" = "")) as [Hempty | Hurl].
  { eexists. split; [reflexivity|].
    intros url videoId -> Hne _ _. exfalso. apply Hne.
    unfold js_or in Hempty. by destruct (decide (url = "")). }
  destruct (extractYoutubeVideoId (js_or youtubeUrl "")) as [vid|] eqn:Hvid.
  2:{ eexists. split; [reflexivity|].
      intros url videoId -> Hne Hex _. exfalso.
      unfold js_or in Hvid. destruct (decide (url = "")); [done|congruence]. }
  destruct (decide (vid = "")) as [-> | Hvne].
  { eexists. split; [reflexivity|].
    intros url videoId -> Hne Hex Hv. exfalso.
    unfold js_or in Hvid. destruct (decide (url = "")); [done|congruence]. }
  assert (Htl : too_long (v_duration details) = true).
  { rewrite Hd. cbn. by apply bool_decide_eq_true_2. }
  rewrite Htl. eexists. split; [reflexivity|].
  intros _ _ _ _ _ _. by rewrite Hd.
Qed.


Lemma C7_too_long_rejected_without_job_witness :
  exists body,
    step (RT := Example.runtime) (Example.world 9 [])
      (PostTranscribeYoutube (Some "https://youtu.be/dQw4w9WgXcQ") None None
         (Some hour_long_video) 10 None) init
    = (init, [ERespond 400 body])
    /\ (forall url videoId,
          Some "https://youtu.be/dQw4w9WgXcQ" = Some url -> url <> "" ->
          extractYoutubeVideoId url = Some videoId ->
          videoId <> "" ->
          body = RTooLong "Video is too long. Maximum duration is 30 minutes."
                          (Some 3600)).
Proof.
  apply (C7_too_long_rejected_without_job (RT := Example.runtime)
           (Example.world 9 []) (Some "https://youtu.be/dQw4w9WgXcQ") None None
           hour_long_video 3600 10 None init).
  - reflexivity.
  - lia.
Defined.

(** * The scheduler, characterised *)

Section SchedulerFacts.
Context `{RT : Runtime}.



Lemma dispatched_app (l1 l2 : list Effect) :
  dispatched (l1 ++ l2) = dispatched l1 ++ dispatched l2.
Proof. apply omap_app. Qed.

Lemma pushed_app (l1 l2 : list Effect) :
  pushed (l1 ++ l2) = pushed l1 ++ pushed l2.
Proof. apply omap_app. Qed.

Lemma pushed_push (item : QueueItem) (effs : list Effect) :
  pushed (EPush item :: effs) = item :: pushed effs.
Proof. reflexivity. Qed.

Lemma pushed_respond (code : Z) (body : Response) (effs : list Effect) :
  pushed (ERespond code body :: effs) = pushed effs.
Proof. reflexivity. Qed.

Lemma dispatched_push (item : QueueItem) (effs : list Effect) :
  dispatched (EPush item :: effs) = dispatched effs.
Proof. reflexivity. Qed.

Lemma dispatched_respond (code : Z) (body : Response) (effs : list Effect) :
  dispatched (ERespond code body :: effs) = dispatched effs.
Proof. reflexivity. Qed.





Lemma transcribeAudio_exists (w : World) (item : QueueItem) (st : State) :
  existsSync w (filePath item) = true ->
  transcribeAudio w (filePath item) (q_jobId item) (q_model item) (q_language item) st
  = match spawn_error item with
    | Some message => (st, Some (Rejected message), [spawn_call item])
    | None =>
        (set_children (children st ++ [spawned_child item]) st, None,
         [spawn_call item])
    end.
Proof.
  intros Hex. unfold transcribeAudio, spawn_error, spawn_call, command_of.
  rewrite Hex. cbn [negb].
  destruct (whisper_command _ _ _) as [cmd args]. cbn [fst snd].
  by destruct (spawn_throws cmd args).
Qed.

Lemma skipped_missing (w : World) (item : QueueItem) :
  existsSync w (filePath item) = false ->
  skipped w item = Some (input_not_found item, []).
Proof. intros H. unfold skipped. by rewrite H. Qed.

Lemma skipped_threw (w : World) (item : QueueItem) (message : string) :
  existsSync w (filePath item) = true ->
  spawn_error item = Some message ->
  skipped w item = Some (queue_failure message, [spawn_call item]).
Proof. intros H1 H2. unfold skipped. by rewrite H1, H2. Qed.

Lemma skipped_spawned (w : World) (item : QueueItem) :
  existsSync w (filePath item) = true ->
  spawn_error item = None ->
  skipped w item = None.
Proof. intros H1 H2. unfold skipped. by rewrite H1, H2. Qed.

Lemma processQueue_sync_case (w : World) (st : State) :
  sync_case w st (processQueue_sync w st).
Proof.
  unfold processQueue_sync.
  destruct (isProcessing st) eqn:Hp; cbn [orb].
  { apply sync_blocked. by left. }
  case_bool_decide as Hlen; cbn [orb].
  { apply sync_blocked. right; left. by apply length_zero_iff_nil. }
  case_bool_decide as Hact.
  { apply sync_blocked. by right; right. }
  destruct (transcriptionQueue st) as [|item rest] eqn:Hq; [done|].
  destruct (existsSync w (filePath item)) eqn:Hex.
  - rewrite transcribeAudio_exists by done.
    destruct (spawn_error item) as [message|] eqn:Hspawn.
    + eapply (sync_threw w st item rest message); (done || lia).
    + eapply (sync_spawned w st item rest); (done || lia).
  - unfold transcribeAudio. rewrite Hex. cbn [negb].
    eapply (sync_missing w st item rest); (done || lia).
Qed.


(** With fuel above the queue length, the continuation loop is a drain. *)
Lemma await_loop_drained (w : World) (fuel : nat) :
  forall (st : State) (jobId : string) (p : Settle),
    (length (transcriptionQueue st) < fuel)%nat ->
    drained w (processQueue_resume jobId p st)
      (await_loop fuel w (Some (jobId, Some p)) st).1
      (await_loop fuel w (Some (jobId, Some p)) st).2.
Proof.
  induction fuel as [|fuel IH]; intros st jobId p Hfuel; [lia|].
  cbn [await_loop].
  assert (Hq : transcriptionQueue (processQueue_resume jobId p st)
               = transcriptionQueue st) by by destruct p.
  pose proof (processQueue_sync_case w (processQueue_resume jobId p st)) as Hcase.
  destruct Hcase as [Hb | item rest Hitem Hproc Hact Hex
                        | item rest message Hitem Hproc Hact Hex Hspawn
                        | item rest Hitem Hproc Hact Hex Hspawn].
  - destruct fuel; cbn; by apply drained_blocked.
  - match goal with |- context [await_loop fuel w _ ?s] => set (st1 := s) end.
    specialize (IH st1 (q_jobId item) Resolved).
    destruct (await_loop fuel w (Some (q_jobId item, Some Resolved)) st1)
      as [st2 effs'] eqn:Hloop.
    cbn [fst snd] in *. cbn [app].
    eapply (drained_skipped _ _ _ _ _ []); [done.. | by apply skipped_missing |].
    replace (activeJobs (processQueue_resume jobId p st))
      with (activeJobs (processQueue_resume jobId p st) + 1 - 1) by lia.
    apply IH. subst st1. cbn. rewrite Hq in Hitem. rewrite Hitem in Hfuel.
    cbn in Hfuel. lia.
  - match goal with |- context [await_loop fuel w _ ?s] => set (st1 := s) end.
    specialize (IH st1 (q_jobId item) (Rejected message)).
    destruct (await_loop fuel w (Some (q_jobId item, Some (Rejected message))) st1)
      as [st2 effs'] eqn:Hloop.
    cbn [fst snd] in *. cbn [app].
    eapply (drained_skipped _ _ _ _ _ [spawn_call item]);
      [done.. | by apply skipped_threw |].
    replace (activeJobs (processQueue_resume jobId p st))
      with (activeJobs (processQueue_resume jobId p st) + 1 - 1) by lia.
    apply IH. subst st1. cbn. rewrite Hq in Hitem. rewrite Hitem in Hfuel.
    cbn in Hfuel. lia.
  - destruct fuel; cbn; eapply drained_spawned; (done || by apply skipped_spawned).
Qed.

Lemma await_loop_not_settled (w : World) (fuel : nat) (a : Awaiting) (st : State) :
  (forall jobId p, a <> Some (jobId, Some p)) -> await_loop fuel w a st = (st, []).
Proof.
  intros Ha. destruct a as [[jobId [p|]]|]; [by destruct (Ha jobId p)| |];
    by destruct fuel.
Qed.

(** Fuel above the queue length is never used up: any two such amounts give
    the same result. *)
Lemma await_loop_fuel (w : World) (fuel : nat) :
  forall (fuel' : nat) (a : Awaiting) (st : State),
    (length (transcriptionQueue st) < fuel)%nat ->
    (length (transcriptionQueue st) < fuel')%nat ->
    await_loop fuel w a st = await_loop fuel' w a st.
Proof.
  induction fuel as [|fuel IH]; intros fuel' a st H1 H2; [lia|].
  destruct fuel' as [|fuel']; [lia|].
  destruct a as [[jobId [p|]]|]; [|done|done].
  cbn [await_loop].
  assert (Hq : transcriptionQueue (processQueue_resume jobId p st)
               = transcriptionQueue st) by by destruct p.
  destruct (processQueue_sync_case w (processQueue_resume jobId p st))
    as [Hb | item rest Hitem Hproc Hact Hex
           | item rest message Hitem Hproc Hact Hex Hspawn
           | item rest Hitem Hproc Hact Hex Hspawn].
  - by rewrite !await_loop_not_settled.
  - rewrite Hq in Hitem. rewrite Hitem in H1, H2. cbn [length] in H1, H2.
    rewrite (IH fuel'); [done | cbn; lia | cbn; lia].
  - rewrite Hq in Hitem. rewrite Hitem in H1, H2. cbn [length] in H1, H2.
    rewrite (IH fuel'); [done | cbn; lia | cbn; lia].
  - by rewrite !await_loop_not_settled.
Qed.

Lemma microtasks_drained (w : World) (st : State) (jobId : string) (p : Settle) :
  drained w (processQueue_resume jobId p st)
    (microtasks w (Some (jobId, Some p)) st).1
    (microtasks w (Some (jobId, Some p)) st).2.
Proof. apply await_loop_drained. lia. Qed.

Lemma microtasks_idle (w : World) (st : State) (a : Awaiting) :
  (forall jobId p, a <> Some (jobId, Some p)) -> microtasks w a st = (st, []).
Proof.
  intros Ha. unfold microtasks. cbn [await_loop].
  destruct a as [[jobId [p|]]|]; [by destruct (Ha jobId p) | done | done].
Qed.

(** The synchronous part of a call followed by its continuations. *)
Lemma sync_then_microtasks_drained (w : World) (st : State) :
  drained w st
    (microtasks w (processQueue_sync w st).1.2 (processQueue_sync w st).1.1).1
    ((processQueue_sync w st).2
     ++ (microtasks w (processQueue_sync w st).1.2 (processQueue_sync w st).1.1).2).
Proof.
  destruct (processQueue_sync_case w st)
    as [Hb | item rest Hitem Hproc Hact Hex
           | item rest message Hitem Hproc Hact Hex Hspawn
           | item rest Hitem Hproc Hact Hex Hspawn];
    cbn [fst snd].
  - rewrite microtasks_idle by done. by apply drained_blocked.
  - pose proof (microtasks_drained w
      (mkState (<[q_jobId item := input_not_found item]> (transcriptions st))
         rest true (activeJobs st + 1) (children st) (downloads st))
      (q_jobId item) Resolved) as Hd.
    cbn [processQueue_resume set_isProcessing set_activeJobs transcriptions
         transcriptionQueue isProcessing activeJobs children downloads] in Hd.
    replace (activeJobs st + 1 - 1) with (activeJobs st) in Hd by lia.
    cbn [app].
    eapply (drained_skipped _ _ _ _ _ []); [done.. | by apply skipped_missing | done].
  - pose proof (microtasks_drained w
      (mkState (transcriptions st) rest true (activeJobs st + 1) (children st)
         (downloads st))
      (q_jobId item) (Rejected message)) as Hd.
    cbn [processQueue_resume set_isProcessing set_activeJobs record_job
         set_transcriptions transcriptions
         transcriptionQueue isProcessing activeJobs children downloads] in Hd.
    replace (activeJobs st + 1 - 1) with (activeJobs st) in Hd by lia.
    cbn [app].
    eapply (drained_skipped _ _ _ _ _ [spawn_call item]);
      [done.. | by apply skipped_threw | done].
  - rewrite microtasks_idle by done. cbn.
    eapply drained_spawned; (done || by apply skipped_spawned).
Qed.

Lemma processQueue_drained (w : World) (st : State) :
  drained w st (processQueue w st).1 (processQueue w st).2.
Proof.
  pose proof (sync_then_microtasks_drained w st) as Hd.
  unfold processQueue.
  destruct (processQueue_sync w st) as [[st1 a] effs].
  cbn [fst snd] in Hd. by destruct (microtasks w a st1).
Qed.

(** *** What a drain changes *)

Lemma skipped_effects (w : World) (item : QueueItem) (r : JobRecord)
    (effs0 : list Effect) :
  skipped w item = Some (r, effs0) -> effs0 = [] \/ effs0 = [spawn_call item].
Proof.
  unfold skipped. destruct (existsSync w (filePath item)); cbn [negb].
  - destruct (spawn_error item); [|done]. intros [= <- <-]. by right.
  - intros [= <- <-]. by left.
Qed.

Lemma skipped_record (w : World) (item : QueueItem) (r : JobRecord)
    (effs0 : list Effect) :
  skipped w item = Some (r, effs0) -> exists msg details, r = JError msg details.
Proof.
  unfold skipped. destruct (existsSync w (filePath item)); cbn [negb].
  - destruct (spawn_error item); [|done]. intros [= <- <-]. by do 2 eexists.
  - intros [= <- <-]. by do 2 eexists.
Qed.

Lemma skipped_error (w : World) (item : QueueItem) (r : JobRecord)
    (effs0 : list Effect) :
  skipped w item = Some (r, effs0) -> status r = error.
Proof. intros H. by apply skipped_record in H as (msg & details & ->). Qed.

Lemma drained_queue (w : World) (st st' : State) (effs : list Effect) :
  drained w st st' effs ->
  dispatched effs ++ transcriptionQueue st' = transcriptionQueue st
  /\ pushed effs = [].
Proof.
  induction 1 as [st Hb | st item rest Hitem _ _ _
                     | st item rest r effs0 st' effs Hitem _ _ Hskip _ [IHq IHp]].
  - done.
  - by rewrite Hitem.
  - cbn [transcriptionQueue] in IHq.
    assert (Hquiet : dispatched effs0 = [] /\ pushed effs0 = []).
    { by destruct (skipped_effects _ _ _ _ Hskip) as [-> | ->]. }
    destruct Hquiet as [Hd0 Hp0]. split.
    + change (dispatched (EDispatch item :: ?l)) with (item :: dispatched l).
      rewrite dispatched_app, Hd0. cbn [app].
      by rewrite Hitem, IHq.
    + change (pushed (EDispatch item :: ?l)) with (pushed l).
      by rewrite pushed_app, Hp0, IHp.
Qed.

Lemma drained_downloads (w : World) (st st' : State) (effs : list Effect) :
  drained w st st' effs -> downloads st' = downloads st.
Proof. induction 1; done. Qed.

Lemma drained_busy (w : World) (st st' : State) (effs : list Effect) :
  drained w st st' effs -> isProcessing st = true -> st' = st /\ effs = [].
Proof. destruct 1; intros Hp; [done | congruence | congruence]. Qed.

(** A drain writes only the failure entries of items it took off the queue
    and could not give a child. *)
Lemma drained_registry (w : World) (st st' : State) (effs : list Effect) :
  drained w st st' effs ->
  forall j,
    transcriptions st' !! j = transcriptions st !! j
    \/ exists item r effs0, item ∈ dispatched effs /\ q_jobId item = j
         /\ skipped w item = Some (r, effs0)
         /\ transcriptions st' !! j = Some r.
Proof.
  induction 1 as [st Hb | st item rest Hitem _ _ _
                     | st item rest r effs0 st' effs Hitem _ _ Hskip _ IH]; intros j.
  - by left.
  - by left.
  - change (dispatched (EDispatch item :: ?l)) with (item :: dispatched l).
    destruct (IH j) as [Heq | (item' & r' & effs' & Hin & Hj & Hskip' & Hlook)].
    + cbn in Heq. destruct (decide (q_jobId item = j)) as [<- | Hne].
      * right. exists item, r, effs0. rewrite Heq, lookup_insert_eq. set_solver.
      * left. by rewrite Heq, lookup_insert_ne.
    + right. exists item', r', effs'. rewrite dispatched_app. set_solver.
Qed.


(** *** Every callback is a simple update followed by at most one drain *)

Lemma step_drained (w : World) (a : Action) (st : State) :
  transcriptionQueue (before_drain w a st).1
  = transcriptionQueue st ++ pushed (step w a st).2
  /\ if (before_drain w a st).2
     then exists effs,
         drained w (before_drain w a st).1 (step w a st).1 effs
         /\ dispatched (step w a st).2 = dispatched effs
     else (step w a st).1 = (before_drain w a st).1
          /\ dispatched (step w a st).2 = [].
Proof.
  destruct a as [[f|] m l | url m l info dl_now dl_throws | i dl tot | i pct
                | i msg | i | i msg | i msg | i code | i msg];
    cbn [step before_drain].
  - (* upload *)
    unfold post_transcribe.
    match goal with |- context [processQueue_sync w ?s] => set (st2 := s) end.
    pose proof (sync_then_microtasks_drained w st2) as Hd.
    pose proof (drained_queue _ _ _ _ Hd) as [_ Hpush].
    destruct (processQueue_sync w st2) as [[st3 a] effs].
    cbn [fst snd] in Hd, Hpush.
    destruct (microtasks w a st3) as [st4 effs'].
    cbn [fst snd] in Hd, Hpush |- *.
    rewrite pushed_app in Hpush. apply app_eq_nil in Hpush as [Hp1 Hp2].
    split.
    + by rewrite pushed_push, pushed_app, pushed_respond, Hp1, Hp2.
    + eexists. split; [exact Hd|].
      by rewrite dispatched_push, !dispatched_app, dispatched_respond.
  - cbn. by rewrite app_nil_r.
  - (* youtube *)
    cbn [step fst snd].
    unfold post_transcribe_youtube.
    repeat (case_decide || case_match); cbn; by rewrite app_nil_r.
  - destruct (downloads st !! i); [unfold on_ytdl_progress; case_bool_decide|];
      cbn; by rewrite ?app_nil_r.
  - destruct (downloads st !! i); [unfold on_ffmpeg_progress; repeat case_match|];
      cbn; by rewrite ?app_nil_r.
  - destruct (downloads st !! i) as [d|]; [destruct (d_failed d)|];
      cbn; by rewrite ?app_nil_r.
  - (* ffmpeg end *)
    destruct (downloads st !! i) as [d|]; [|cbn; by rewrite app_nil_r].
    destruct (d_failed d); [cbn; by rewrite app_nil_r|].
    unfold on_ffmpeg_end.
    match goal with |- context [processQueue w ?s] => set (st1 := s) end.
    pose proof (processQueue_drained w st1) as Hd.
    pose proof (drained_queue _ _ _ _ Hd) as [_ Hpush].
    destruct (processQueue w st1) as [st2 effs]. cbn [fst snd] in *.
    split.
    + by rewrite pushed_push, Hpush.
    + eexists. split; [exact Hd|]. by rewrite dispatched_push.
  - destruct (children st !! i) as [c|]; [|cbn; by rewrite app_nil_r].
    destruct (c_settled c); cbn; by rewrite app_nil_r.
  - destruct (children st !! i) as [c|]; [|cbn; by rewrite app_nil_r].
    destruct (c_settled c); cbn; by rewrite app_nil_r.
  - (* close *)
    destruct (children st !! i) as [c|]; [|cbn; by rewrite app_nil_r].
    destruct (on_close w code c _) as [st1 p] eqn:Hclose.
    assert (Hq1 : transcriptionQueue st1 = transcriptionQueue st).
    { unfold on_close in Hclose.
      destruct (existsSync w _); injection Hclose as <- _; done. }
    destruct (c_settled c); cbn [fst snd].
    + rewrite Hq1. cbn. by rewrite app_nil_r.
    + pose proof (microtasks_drained w st1 (c_jobId c) p) as Hd.
      pose proof (drained_queue _ _ _ _ Hd) as [_ Hpush].
      rewrite Hpush, app_nil_r. split; [by destruct p|].
      eexists. split; [exact Hd|done].
  - (* error *)
    destruct (children st !! i) as [c|]; [|cbn; by rewrite app_nil_r].
    destruct (c_settled c); [cbn; by rewrite app_nil_r|].
    cbn [on_error fst snd].
    match goal with |- context [microtasks w _ ?s] => set (st1 := s) end.
    pose proof (microtasks_drained w st1 (c_jobId c) (Rejected msg)) as Hd.
    pose proof (drained_queue _ _ _ _ Hd) as [_ Hpush].
    rewrite Hpush, app_nil_r. split; [done|].
    eexists. split; [exact Hd|done].
Qed.

(** *** First in, first out *)

Lemma step_queue (w : World) (a : Action) (st : State) :
  dispatched (step w a st).2 ++ transcriptionQueue (step w a st).1
  = transcriptionQueue st ++ pushed (step w a st).2.
Proof.
  destruct (step_drained w a st) as [Hq Hd]. rewrite <- Hq.
  destruct (before_drain w a st).2.
  - destruct Hd as (effs & Hd & ->). by apply drained_queue in Hd as [? _].
  - destruct Hd as [-> ->]. done.
Qed.

Lemma run_cons (w : World) (a : Action) (evs : list (World * Action)) (st : State) :
  run ((w, a) :: evs) st
  = ((run evs (step w a st).1).1, (step w a st).2 ++ (run evs (step w a st).1).2).
Proof.
  cbn [run]. destruct (step w a st) as [st1 effs]. cbn [fst snd].
  by destruct (run evs st1).
Qed.

Lemma run_app (evs1 evs2 : list (World * Action)) (st : State) :
  run (evs1 ++ evs2) st
  = ((run evs2 (run evs1 st).1).1, (run evs1 st).2 ++ (run evs2 (run evs1 st).1).2).
Proof.
  revert st. induction evs1 as [|[w a] evs1 IH]; intros st.
  - cbn. by destruct (run evs2 st).
  - rewrite <- app_comm_cons, !run_cons. cbn [fst snd]. rewrite IH.
    cbn [fst snd]. by rewrite app_assoc.
Qed.

Lemma run_queue (evs : list (World * Action)) (st : State) :
  dispatched (run evs st).2 ++ transcriptionQueue (run evs st).1
  = transcriptionQueue st ++ pushed (run evs st).2.
Proof.
  revert st. induction evs as [|[w a] evs IH]; intros st.
  - cbn. by rewrite app_nil_r.
  - rewrite run_cons. cbn [fst snd].
    rewrite dispatched_app, pushed_app, <- app_assoc, IH, !app_assoc.
    by rewrite step_queue.
Qed.

End SchedulerFacts.

(** ** The concurrency bound *)

Section SchedInv.
Context `{RT : Runtime}.

Lemma pending_app (cs : list Child) (c : Child) :
  pending (cs ++ [c]) = (pending cs + (if c_settled c then 0 else 1))%nat.
Proof.
  unfold pending. rewrite filter_app, length_app, filter_cons, filter_nil.
  destruct (c_settled c); by case_decide.
Qed.

Lemma pending_middle (cs1 cs2 : list Child) (c : Child) :
  pending (cs1 ++ c :: cs2)
  = (pending (cs1 ++ cs2) + (if c_settled c then 0 else 1))%nat.
Proof.
  unfold pending. rewrite !filter_app, !length_app, filter_cons.
  destruct (c_settled c); case_decide; try done; cbn; lia.
Qed.

Lemma pending_delete (cs : list Child) (i : nat) (c : Child) :
  cs !! i = Some c ->
  pending cs = (pending (delete i cs) + (if c_settled c then 0 else 1))%nat.
Proof.
  intros H. rewrite <- (take_drop_middle cs i c H) at 1.
  rewrite delete_take_drop. apply pending_middle.
Qed.

Lemma pending_insert (cs : list Child) (i : nat) (c c' : Child) :
  cs !! i = Some c ->
  (pending (<[i := c']> cs) + (if c_settled c then 0 else 1))%nat
  = (pending cs + (if c_settled c' then 0 else 1))%nat.
Proof.
  intros H. rewrite <- (take_drop_middle cs i c H) at 2.
  rewrite insert_take_drop by (by eapply lookup_lt_Some).
  rewrite !pending_middle. lia.
Qed.

Lemma drained_sched_inv (w : World) (st st' : State) (effs : list Effect) :
  drained w st st' effs -> sched_inv st -> sched_inv st'.
Proof.
  induction 1 as [st Hb | st item rest Hitem Hp Ha Hex
                     | st item rest r effs0 st' effs Hitem Hp Ha Hex Hd IH];
    intros [(Hp' & Ha' & Hn) | (Hp' & Ha' & Hn)]; try congruence.
  - by left.
  - by right.
  - right. cbn. rewrite pending_app, Hn, Ha'. done.
  - apply IH. left. done.
Qed.

(** When a drain is over, the scheduler is waiting for a child or the queue
    is empty. *)
Lemma drained_final (w : World) (st st' : State) (effs : list Effect) :
  drained w st st' effs -> blocked st'.
Proof. induction 1; [done | by left | done]. Qed.

Lemma before_drain_sched_inv (w : World) (a : Action) (st : State) :
  sched_inv st -> sched_inv (before_drain w a st).1.
Proof.
  intros Hinv.
  destruct a as [[f|] m l | url m l info dl_now dl_throws | i dl tot | i pct
                | i msg | i | i msg | i msg | i code | i msg];
    cbn [before_drain step fst]; try done.
  - unfold post_transcribe_youtube.
    repeat (case_decide || case_match); done.
  - destruct (downloads st !! i); [unfold on_ytdl_progress; case_bool_decide|]; done.
  - destruct (downloads st !! i);
      [unfold on_ffmpeg_progress; repeat case_match|]; done.
  - destruct (downloads st !! i) as [d|]; [destruct (d_failed d)|]; done.
  - destruct (downloads st !! i) as [d|]; [destruct (d_failed d)|]; done.
  - destruct (children st !! i) as [c|] eqn:Hc; [|done].
    destruct (c_settled c) eqn:Hs; [done|]. cbn.
    unfold sched_inv. cbn.
    pose proof (pending_insert (children st) i c
      (mkChild (c_inputPath c) (c_jobId c) (c_validModel c) (c_language c)
         (c_output c +:+ msg) (c_errorOutput c) (c_settled c)) Hc) as Hpi.
    cbn in Hpi. rewrite Hs in *.
    replace (pending _) with (pending (children st)) by lia. exact Hinv.
  - destruct (children st !! i) as [c|] eqn:Hc; [|done].
    destruct (c_settled c) eqn:Hs; [done|]. cbn.
    unfold sched_inv. cbn.
    pose proof (pending_insert (children st) i c (on_stderr msg c) Hc) as Hpi.
    cbn in Hpi. rewrite Hs in *.
    replace (pending _) with (pending (children st)) by lia. exact Hinv.
  - destruct (children st !! i) as [c|] eqn:Hc; [|done].
    pose proof (pending_delete (children st) i c Hc) as Hpd.
    unfold on_close.
    destruct (existsSync w _); destruct (c_settled c); cbn;
      unfold sched_inv in *; cbn; destruct Hinv as [(?&?&?)|(?&?&?)];
      first [ (left; split; [done|]; split; [lia|lia])
            | (right; split; [done|]; split; [lia|lia]) ].
  - destruct (children st !! i) as [c|] eqn:Hc; [|done].
    destruct (c_settled c) eqn:Hs; [done|].
    pose proof (pending_insert (children st) i c (settle_child c) Hc) as Hpi.
    cbn in Hpi. rewrite Hs in Hpi.
    cbn. unfold sched_inv in *; cbn; destruct Hinv as [(?&?&?)|(?&?&?)];
      left; (split; [done|]; split; [lia|lia]).
Qed.

Lemma step_sched_inv (w : World) (a : Action) (st : State) :
  sched_inv st -> sched_inv (step w a st).1.
Proof.
  intros Hinv. apply (before_drain_sched_inv w a) in Hinv.
  destruct (step_drained w a st) as [_ Hd].
  destruct (before_drain w a st).2.
  - destruct Hd as (effs & Hd & _). by eapply drained_sched_inv.
  - destruct Hd as [-> _]. done.
Qed.

Lemma run_sched_inv (evs : list (World * Action)) (st : State) :
  sched_inv st -> sched_inv (run evs st).1.
Proof.
  revert st. induction evs as [|[w a] evs IH]; intros st Hinv; [done|].
  rewrite run_cons. cbn [fst]. by apply IH, step_sched_inv.
Qed.

Lemma reachable_sched_inv (st : State) : reachable st -> sched_inv st.
Proof. intros [evs ->]. apply run_sched_inv. by left. Qed.


End SchedInv.

(** ** First in, first out *)

(** C6: dispatch is first in, first out.  Over any run from any state, the
    items dispatched so far, in dispatch order, followed by the items still
    queued, are the items that were queued at the start followed by the
    items pushed since, in push order.  Hence if A stands before B in that
    insertion order and B has been dispatched, A has been dispatched too,
    at an earlier place of the dispatch sequence. *)
Theorem C6_dispatch_is_fifo `{RT : Runtime}
    (evs : list (World * Action)) (st : State) (i j : nat) (A B : QueueItem) :
  (i < j)%nat ->
  (transcriptionQueue st ++ pushed (run evs st).2) !! i = Some A ->
  (transcriptionQueue st ++ pushed (run evs st).2) !! j = Some B ->
  dispatched (run evs st).2 ++ transcriptionQueue (run evs st).1
  = transcriptionQueue st ++ pushed (run evs st).2
  /\ ((j < length (dispatched (run evs st).2))%nat ->
      dispatched (run evs st).2 !! i = Some A
      /\ dispatched (run evs st).2 !! j = Some B).
Proof.
  intros Hij HA HB. pose proof (run_queue evs st) as Hq.
  split; [exact Hq|]. intros Hj.
  rewrite <- Hq in HA, HB.
  rewrite lookup_app_l in HA by lia. rewrite lookup_app_l in HB by lia. done.
Qed.

Lemma C6_dispatch_is_fifo_witness :
  dispatched (run (RT := Example.runtime) two_uploads_then_close init).2 !! 0%nat
  = Some (mkItem "/var/www/whisper-app/backend/uploads/100-a.mp3" "100" "medium" "en")
  /\ dispatched (run (RT := Example.runtime) two_uploads_then_close init).2 !! 1%nat
     = Some (mkItem "/var/www/whisper-app/backend/uploads/101-b.mp3" "101" "medium" "en").
Proof.
  apply (C6_dispatch_is_fifo (RT := Example.runtime) two_uploads_then_close init
           0 1
           (mkItem "/var/www/whisper-app/backend/uploads/100-a.mp3" "100" "medium" "en")
           (mkItem "/var/www/whisper-app/backend/uploads/101-b.mp3" "101" "medium" "en")).
  - lia.
  - vm_compute. reflexivity.
  - vm_compute. reflexivity.
  - vm_compute. lia.
Defined.

(** ** The concurrency bound *)

(** C3, counterexample: two remote-reference submissions put two registry
    entries in the ['processing'] state at once, both downloading, while
    [MAX_CONCURRENT_JOBS] is 1. *)
Lemma C3_two_downloads_both_processing :
  ~ processing_within_limit
      (run (RT := Example.runtime) two_youtube_submissions init).1.
Proof. unfold processing_within_limit. vm_compute. intros H. by apply H. Qed.

(** C3, amended: in every reachable state at most [MAX_CONCURRENT_JOBS] jobs
    are handed to the transcription engine and awaited: [activeJobs] never
    exceeds the limit, and it counts exactly the spawned engine processes
    whose outcome is still awaited.  (The ['processing'] status is also
    written while a remote reference is downloaded, before the job is
    queued, and such entries are not counted against the limit.) *)
Theorem C3_active_jobs_within_limit `{RT : Runtime} (st : State) :
  reachable st ->
  0 <= activeJobs st <= MAX_CONCURRENT_JOBS
  /\ Z.of_nat (pending (children st)) = activeJobs st
  /\ (isProcessing st = true <-> activeJobs st = MAX_CONCURRENT_JOBS).
Proof.
  intros Hr. apply reachable_sched_inv in Hr.
  unfold MAX_CONCURRENT_JOBS.
  destruct Hr as [(Hp & Ha & Hn) | (Hp & Ha & Hn)]; rewrite Hp, Ha, Hn;
    (split; [lia|]); (split; [done|]); split; (done || lia).
Qed.

Lemma C3_active_jobs_within_limit_witness :
  activeJobs (run (RT := Example.runtime) two_uploads_then_close init).1
  <= MAX_CONCURRENT_JOBS.
Proof.
  apply (C3_active_jobs_within_limit (RT := Example.runtime)
           (run (RT := Example.runtime) two_uploads_then_close init).1).
  exists two_uploads_then_close. reflexivity.
Defined.

(** ** Job identifiers *)

Lemma job_ids_app (l1 l2 : list Effect) :
  job_ids (l1 ++ l2) = job_ids l1 ++ job_ids l2.
Proof. apply omap_app. Qed.

Lemma processQueue_sync_job_ids `{RT : Runtime} (w : World) (st : State) :
  job_ids (processQueue_sync w st).2 = [].
Proof. by destruct (processQueue_sync_case w st). Qed.

Lemma await_loop_job_ids `{RT : Runtime} (w : World) (fuel : nat) :
  forall (a : Awaiting) (st : State), job_ids (await_loop fuel w a st).2 = [].
Proof.
  induction fuel as [|fuel IH]; intros [[jobId [p|]]|] st; try done.
  cbn [await_loop].
  pose proof (processQueue_sync_job_ids w (processQueue_resume jobId p st)) as Hs.
  destruct (processQueue_sync w (processQueue_resume jobId p st)) as [[st1 a'] effs].
  specialize (IH a' st1). destruct (await_loop fuel w a' st1) as [st2 effs'].
  cbn [fst snd] in *. by rewrite job_ids_app, Hs, IH.
Qed.

(** An upload is given the clock reading, in decimal, as its job id. *)
Lemma post_transcribe_job_id `{RT : Runtime} (w : World) (f : UploadedFile)
    (m l : option string) (st : State) :
  job_ids (post_transcribe w (Some f) m l st).2 = [toString (now w)].
Proof.
  unfold post_transcribe.
  match goal with |- context [processQueue_sync w ?s] =>
    pose proof (processQueue_sync_job_ids w s) as Hs;
    destruct (processQueue_sync w s) as [[st3 a] effs] end.
  pose proof (await_loop_job_ids w (S (length (transcriptionQueue st3))) a st3) as Hm.
  fold (microtasks w a st3) in Hm.
  destruct (microtasks w a st3) as [st4 effs']. cbn [fst snd] in *.
  change (job_ids (EPush ?i :: ?l)) with (job_ids l).
  rewrite job_ids_app, Hs.
  change (job_ids (ERespond 200 (RJob ?j ?n) :: ?l)) with (j :: job_ids l).
  by rewrite Hm.
Qed.

(** C4: two uploads handled within the same millisecond are given the same
    job id, "100"; the second overwrites the registry entry of the first,
    so the registry holds one entry for two queued jobs. *)
Theorem C4_same_tick_same_job_id :
  job_ids (run (RT := Example.runtime) same_tick_uploads init).2 = ["100"; "100"]
  /\ length (pushed (run (RT := Example.runtime) same_tick_uploads init).2) = 2%nat
  /\ map_to_list (transcriptions (run (RT := Example.runtime) same_tick_uploads init).1)
     = [("100", JStarted "b.mp3" 20 "medium" "en" 100)].
Proof. vm_compute. done. Qed.

(** ** The artifact decides *)

Lemma drained_dispatched_queued `{RT : Runtime} (w : World) (st st' : State)
    (effs : list Effect) (item : QueueItem) :
  drained w st st' effs -> item ∈ dispatched effs -> item ∈ transcriptionQueue st.
Proof.
  intros Hd Hin. apply drained_queue in Hd as [<- _]. set_solver.
Qed.

(** A drain leaves alone the entries of jobs that are not in the queue. *)
Lemma drained_registry_other `{RT : Runtime} (w : World) (st st' : State)
    (effs : list Effect) (j : string) :
  drained w st st' effs ->
  j ∉ (q_jobId <$> transcriptionQueue st) ->
  transcriptions st' !! j = transcriptions st !! j.
Proof.
  intros Hd Hj. destruct (drained_registry w st st' effs Hd j)
    as [Heq | (item & r & effs0 & Hin & Hid & _)]; [done|].
  exfalso. apply Hj. apply list_elem_of_fmap. exists item. split; [done|].
  by eapply drained_dispatched_queued.
Qed.



(** ** Failures do not stop the queue *)



(** ** No transcript at ['close'] *)

(** *** The legacy scheduler *)

Section LegacyScheduler.
Context `{RT : Runtime}.

(** What the synchronous part of the legacy [processQueue] changes: it
    writes at most the entry of the head of the queue, takes at most that
    item off the queue, and runs no direct command. *)
Lemma legacy_sync_other (w : World) (st : Legacy.State) (j : string) :
  j ∉ (Legacy.q_jobId <$> Legacy.transcriptionQueue st) ->
  Legacy.transcriptions (Legacy.processQueue_sync w st).1.1 !! j
  = Legacy.transcriptions st !! j
  /\ (j ∉ (Legacy.q_jobId
           <$> Legacy.transcriptionQueue (Legacy.processQueue_sync w st).1.1))
  /\ (forall id p, (Legacy.processQueue_sync w st).1.2 = Some (id, p) -> id <> j)
  /\ (forall command, Legacy.EExec command ∉ (Legacy.processQueue_sync w st).2)
  /\ (length (Legacy.transcriptionQueue (Legacy.processQueue_sync w st).1.1)
      <= length (Legacy.transcriptionQueue st))%nat
  /\ (forall id p, (Legacy.processQueue_sync w st).1.2 = Some (id, Some p) ->
        (length (Legacy.transcriptionQueue (Legacy.processQueue_sync w st).1.1)
         < length (Legacy.transcriptionQueue st))%nat).
Proof.
  intros Hj. unfold Legacy.processQueue_sync.
  destruct (Legacy.isProcessing st).
  { cbn. repeat split; try done. intros command H. by apply elem_of_nil in H. }
  destruct (Legacy.transcriptionQueue st) as [|item rest] eqn:Hq.
  { cbn. rewrite Hq. repeat split; try done.
    intros command H. by apply elem_of_nil in H. }
  rewrite fmap_cons in Hj. apply not_elem_of_cons in Hj as [Hne Hrest].
  unfold Legacy.transcribeAudio. cbn [Legacy.transcriptions Legacy.transcriptionQueue
    Legacy.isProcessing Legacy.children].
  destruct (existsSync w (Legacy.filePath item)); cbn [negb].
  - destruct (existsSync w "/proc/meminfo"); cbn [negb].
    + destruct (spawn_throws _ _); cbn;
        (split; [done|]); (split; [done|]);
        (split; [by intros id p [= <- _]|]);
        (split; [|split; [lia | intros; lia]]);
        intros command H; apply list_elem_of_singleton in H; discriminate H.
    + cbn. split; [done|]. split; [done|]. split; [by intros id p [= <- _]|].
      split; [|split; [lia | intros; lia]].
      intros command H. by apply elem_of_nil in H.
  - cbn. split; [by rewrite lookup_insert_ne|]. split; [done|].
    split; [by intros id p [= <- _]|].
    split; [|split; [lia | intros; lia]].
    intros command H. by apply elem_of_nil in H.
Qed.

Lemma legacy_resume_other (id j : string) (p : Settle) (st : Legacy.State) :
  id <> j ->
  Legacy.transcriptions (Legacy.processQueue_resume id p st) !! j
  = Legacy.transcriptions st !! j.
Proof. intros Hne. destruct p; cbn; [done|]. by rewrite lookup_insert_ne. Qed.

Lemma legacy_resume_queue (id : string) (p : Settle) (st : Legacy.State) :
  Legacy.transcriptionQueue (Legacy.processQueue_resume id p st)
  = Legacy.transcriptionQueue st.
Proof. by destruct p. Qed.

(** The continuations of the legacy [processQueue] leave alone the entry of
    a job that is neither awaited nor queued, and run no direct command. *)
Lemma legacy_await_other (w : World) (fuel : nat) (j : string) :
  forall (a : Legacy.Awaiting) (st : Legacy.State),
    j ∉ (Legacy.q_jobId <$> Legacy.transcriptionQueue st) ->
    (forall id p, a = Some (id, p) -> id <> j) ->
    Legacy.transcriptions (Legacy.await_loop fuel w a st).1 !! j
    = Legacy.transcriptions st !! j
    /\ (forall command, Legacy.EExec command ∉ (Legacy.await_loop fuel w a st).2).
Proof.
  induction fuel as [|fuel IH]; intros a st Hj Ha.
  { destruct a as [[id [p|]]|]; cbn; (split; [done|]);
      intros command H; by apply elem_of_nil in H. }
  destruct a as [[id [p|]]|]; cbn [Legacy.await_loop];
    [|split; [done|]; intros command H; by apply elem_of_nil in H..].
  specialize (Ha id (Some p) eq_refl).
  assert (Hj' : j ∉ (Legacy.q_jobId
                      <$> Legacy.transcriptionQueue
                            (Legacy.processQueue_resume id p st))).
  { by rewrite legacy_resume_queue. }
  destruct (legacy_sync_other w _ j Hj') as (Hreg & Hq & Hid & Hexec & _).
  destruct (Legacy.processQueue_sync w (Legacy.processQueue_resume id p st))
    as [[st1 a'] effs].
  cbn [fst snd] in *.
  destruct (IH a' st1 Hq Hid) as [IHreg IHexec].
  destruct (Legacy.await_loop fuel w a' st1) as [st2 effs']. cbn [fst snd] in *.
  split.
  - by rewrite IHreg, Hreg, legacy_resume_other.
  - intros command H. apply elem_of_app in H as [H | H]; [by eapply Hexec | by eapply IHexec].
Qed.

(** The callback in which the awaited promise of job [j] is settled. *)
Lemma legacy_settled (w : World) (j : string) (p : Settle) (st : Legacy.State) :
  j ∉ (Legacy.q_jobId <$> Legacy.transcriptionQueue st) ->
  Legacy.transcriptions (Legacy.microtasks w (Some (j, Some p)) st).1 !! j
  = Legacy.transcriptions (Legacy.processQueue_resume j p st) !! j
  /\ (forall command,
        Legacy.EExec command ∉ (Legacy.microtasks w (Some (j, Some p)) st).2).
Proof.
  intros Hj. unfold Legacy.microtasks. cbn [Legacy.await_loop].
  assert (Hj' : j ∉ (Legacy.q_jobId
                      <$> Legacy.transcriptionQueue
                            (Legacy.processQueue_resume j p st))).
  { by rewrite legacy_resume_queue. }
  destruct (legacy_sync_other w _ j Hj') as (Hreg & Hq & Hid & Hexec & _).
  destruct (Legacy.processQueue_sync w (Legacy.processQueue_resume j p st))
    as [[st1 a'] effs].
  cbn [fst snd] in *.
  destruct (legacy_await_other w (length (Legacy.transcriptionQueue st)) j a' st1
              Hq Hid) as [IHreg IHexec].
  destruct (Legacy.await_loop _ w a' st1) as [st2 effs']. cbn [fst snd] in *.
  split.
  - by rewrite IHreg, Hreg.
  - intros command H.
    apply elem_of_app in H as [H | H]; [by eapply Hexec | by eapply IHexec].
Qed.

End LegacyScheduler.

Section LegacyFuel.
Context `{RT : Runtime}.

Lemma legacy_await_not_settled (w : World) (fuel : nat) (a : Legacy.Awaiting)
    (st : Legacy.State) :
  (forall id p, a <> Some (id, Some p)) -> Legacy.await_loop fuel w a st = (st, []).
Proof.
  intros Ha. destruct a as [[id [p|]]|]; [by destruct (Ha id p)| |];
    by destruct fuel.
Qed.

(** A promise that is settled at once has taken an item off the queue. *)
Lemma legacy_sync_length (w : World) (st : Legacy.State) (id : string) (p : Settle) :
  (Legacy.processQueue_sync w st).1.2 = Some (id, Some p) ->
  (length (Legacy.transcriptionQueue (Legacy.processQueue_sync w st).1.1)
   < length (Legacy.transcriptionQueue st))%nat.
Proof.
  unfold Legacy.processQueue_sync.
  destruct (Legacy.isProcessing st); [done|].
  destruct (Legacy.transcriptionQueue st) as [|item rest] eqn:Hq; [done|].
  unfold Legacy.transcribeAudio. cbn [Legacy.transcriptions Legacy.transcriptionQueue
    Legacy.isProcessing Legacy.children].
  destruct (existsSync w (Legacy.filePath item)); cbn [negb].
  - destruct (existsSync w "/proc/meminfo"); cbn [negb].
    + destruct (spawn_throws _ _); cbn; [lia | done].
    + cbn. lia.
  - cbn. lia.
Qed.

(** Fuel above the queue length is never used up. *)
Lemma legacy_await_fuel (w : World) (fuel : nat) :
  forall (fuel' : nat) (a : Legacy.Awaiting) (st : Legacy.State),
    (length (Legacy.transcriptionQueue st) < fuel)%nat ->
    (length (Legacy.transcriptionQueue st) < fuel')%nat ->
    Legacy.await_loop fuel w a st = Legacy.await_loop fuel' w a st.
Proof.
  induction fuel as [|fuel IH]; intros fuel' a st H1 H2; [lia|].
  destruct fuel' as [|fuel']; [lia|].
  destruct a as [[id [p|]]|]; [|done|done].
  cbn [Legacy.await_loop].
  pose proof (legacy_resume_queue id p st) as Hq.
  pose proof (legacy_sync_length w (Legacy.processQueue_resume id p st)) as Hlt.
  destruct (Legacy.processQueue_sync w (Legacy.processQueue_resume id p st))
    as [[st1 a'] effs].
  cbn [fst snd] in Hlt.
  destruct a' as [[id' [p'|]]|].
  - specialize (Hlt id' p' eq_refl). rewrite Hq in Hlt.
    rewrite (IH fuel'); [done | lia | lia].
  - by rewrite !legacy_await_not_settled.
  - by rewrite !legacy_await_not_settled.
Qed.

End LegacyFuel.

Lemma drained_empty `{RT : Runtime} (w : World) (st st' : State) (effs : list Effect) :
  drained w st st' effs -> transcriptionQueue st = [] -> st' = st /\ effs = [].
Proof. destruct 1; intros Hq; [done | congruence | congruence]. Qed.

(** C2, counterexample: in the current revision a child that closes with
    exit code 1, with "boom" on stderr and no transcript, leaves its job
    failed when the callback of ['close'] is over; no second invocation is
    made. *)
Lemma C2_current_revision_has_no_fallback :
  ~ failure_waits_for_fallback (RT := Example.runtime)
      (Example.world 9 []) (Some 1) 0
      (mkChild "/var/www/whisper-app/backend/uploads/5-talk.mp3" "5" "medium"
               "en" "" "boom" false)
      (mkState ∅ [] true 1
         [mkChild "/var/www/whisper-app/backend/uploads/5-talk.mp3" "5" "medium"
                  "en" "" "boom" false] []).
Proof.
  intros H.
  apply (H eq_refl eq_refl
           (JError "Failed to process file in queue"
              (Some "Transcription file not found")));
    vm_compute; reflexivity.
Qed.

(** C2, amended.  In the current revision there is no fallback.  When a
    child closes without a transcript and its outcome is awaited, the
    ['close'] handler stores a failure with the captured stderr text as
    details and rejects the promise, and the [catch] block of
    [processQueue] overwrites that entry within the same callback: when the
    callback is over the entry is "Failed to process file in queue" with
    details "Transcription file not found", the stderr text is not in the
    registry, and nothing is invoked for the job (with an empty queue the
    callback emits nothing).  When the failure of the child was reported
    before (its ['error'] event), the entry of the ['close'] handler stays:
    "Failed to generate transcription output" with the stderr text, or a
    fixed text when there was none.

    In the legacy revision ['close'] without a transcript starts the direct
    command, once, and leaves registry and scheduler as they are.  The
    callback of the direct command emits no further command.  When the
    outcome is awaited it leaves the job completed with the content of the
    transcript if the command ended without error and the transcript is
    there, and otherwise failed with the entry of [processQueue].  After an
    error the transcript is not looked for, and the details are the message
    of the error: for a command that exited with a code other than 0 that
    is "Command failed: ", the command line, a line break and the text the
    direct command wrote on its stderr.  After a command that ended without
    error and left no transcript the details are "Transcription file not
    found after direct command".  The stderr text captured from the spawned
    child, [errorOutput], is read in neither case. *)
Theorem C2_missing_transcript_handling `{RT : Runtime}
    (w : World) (code : option Z) (i : nat) (c : Child) (st : State)
    (l : Legacy.Live) (lst : Legacy.State) (r : Legacy.ExecResult) :
  (children st !! i = Some c ->
   c_settled c = false ->
   existsSync w (txtFile_of (c_inputPath c)) = false ->
   c_jobId c ∉ (q_jobId <$> transcriptionQueue st) ->
   transcriptions (step w (ChildClose i code) st).1 !! c_jobId c
   = Some (JError "Failed to process file in queue"
             (Some "Transcription file not found"))
   /\ (transcriptionQueue st = [] -> (step w (ChildClose i code) st).2 = []))
  /\ (children st !! i = Some c ->
      c_settled c = true ->
      existsSync w (txtFile_of (c_inputPath c)) = false ->
      step w (ChildClose i code) st
      = (record_job (c_jobId c)
           (JError "Failed to generate transcription output"
              (Some (if decide (c_errorOutput c = "")
                     then "Unknown error during transcription process"
                     else c_errorOutput c)))
           (set_children (delete i (children st)) st),
         []))
  /\ (Legacy.children lst !! i = Some l ->
      Legacy.l_direct l = false ->
      existsSync w (Legacy.txtFile_of (Legacy.c_inputPath (Legacy.l_child l))) = false ->
      (Legacy.step w (Legacy.ChildClose i code) lst).2
      = [Legacy.EExec
           (Legacy.direct_command (Legacy.c_absolutePath (Legacy.l_child l)))]
      /\ Legacy.transcriptions (Legacy.step w (Legacy.ChildClose i code) lst).1
         = Legacy.transcriptions lst
      /\ Legacy.transcriptionQueue (Legacy.step w (Legacy.ChildClose i code) lst).1
         = Legacy.transcriptionQueue lst
      /\ Legacy.isProcessing (Legacy.step w (Legacy.ChildClose i code) lst).1
         = Legacy.isProcessing lst
      /\ Legacy.children (Legacy.step w (Legacy.ChildClose i code) lst).1
         = <[i := Legacy.mkLive (Legacy.l_child l) (Legacy.l_settled l) true]>
             (Legacy.children lst))
  /\ (Legacy.children lst !! i = Some l ->
      Legacy.l_direct l = true ->
      Legacy.l_settled l = false ->
      Legacy.c_jobId (Legacy.l_child l)
      ∉ (Legacy.q_jobId <$> Legacy.transcriptionQueue lst) ->
      Legacy.transcriptions (Legacy.step w (Legacy.ExecDone i r) lst).1
        !! Legacy.c_jobId (Legacy.l_child l)
      = Some
          match r with
          | Legacy.ExecFailed stderr =>
              Legacy.LError "Failed to process file in queue"
                (Some ("Command failed: "
                       +:+ Legacy.direct_command (Legacy.c_absolutePath (Legacy.l_child l))
                       +:+ Legacy.newline +:+ stderr))
          | Legacy.ExecError message =>
              Legacy.LError "Failed to process file in queue" (Some message)
          | Legacy.ExecOk =>
              if existsSync w (Legacy.txtFile_of (Legacy.c_inputPath (Legacy.l_child l)))
              then Legacy.LCompleted
                     (readFileSync w
                        (Legacy.txtFile_of (Legacy.c_inputPath (Legacy.l_child l))))
              else Legacy.LError "Failed to process file in queue"
                     (Some "Transcription file not found after direct command")
          end
      /\ (forall command,
            Legacy.EExec command ∉ (Legacy.step w (Legacy.ExecDone i r) lst).2)).
Proof.
  split; [|split; [|split]].
  - intros Hc Hs Hex Hfree. cbn [step]. rewrite Hc, Hs, on_close_missing by done.
    match goal with |- context [microtasks w _ ?s] =>
      pose proof (microtasks_drained w s (c_jobId c)
                    (Rejected "Transcription file not found")) as Hd end.
    split.
    + rewrite (drained_registry_other _ _ _ _ _ Hd) by done.
      cbn. apply lookup_insert_eq.
    + intros Hq. by apply drained_empty in Hd as [_ ->].
  - intros Hc Hs Hex. cbn [step]. rewrite Hc, Hs, on_close_missing by done.
    unfold js_or. by case_decide.
  - intros Hl Hd Hex. cbn [Legacy.step]. rewrite Hl, Hd.
    unfold Legacy.on_close. rewrite Hex. done.
  - intros Hl Hd Hs Hfree. cbn [Legacy.step]. rewrite Hl, Hd, Hs.
    unfold Legacy.on_exec_done.
    destruct r as [|stderr|message]; cbn [Legacy.exec_error];
      [destruct (existsSync w (Legacy.txtFile_of _))| |];
      match goal with |- context [Legacy.microtasks w (Some (?j, Some ?p)) ?s] =>
        destruct (legacy_settled w j p s Hfree) as [-> Hexec] end;
      (split; [cbn; apply lookup_insert_eq | exact Hexec]).
Qed.

Lemma C2_missing_transcript_handling_witness :
  transcriptions
    (step (RT := Example.runtime) (Example.world 9 []) (ChildClose 0 (Some 1))
       failed_run_state).1 !! "5"
  = Some (JError "Failed to process file in queue"
            (Some "Transcription file not found"))
  /\ Legacy.transcriptions
       (Legacy.step (RT := Example.runtime) (Example.world 9 [])
          (Legacy.ExecDone 0 (Legacy.ExecFailed "oom")) legacy_direct_state).1 !! "5"
     = Some (Legacy.LError "Failed to process file in queue"
               (Some ("Command failed: "
                      +:+ Legacy.direct_command
                            "/var/www/whisper-app/backend/uploads/5-talk.mp3"
                      +:+ Legacy.newline +:+ "oom"))).
Proof.
  destruct (C2_missing_transcript_handling (RT := Example.runtime)
    (Example.world 9 []) (Some 1) 0
    (mkChild "/var/www/whisper-app/backend/uploads/5-talk.mp3" "5" "medium"
       "en" "" "boom" false)
    failed_run_state
    (Legacy.mkLive
       (Legacy.mkChild "/var/www/whisper-app/backend/uploads/5-talk.mp3" "5"
          "/var/www/whisper-app/backend/uploads/5-talk.mp3" "" "boom") false true)
    legacy_direct_state (Legacy.ExecFailed "oom"))
    as (Hcur & _ & _ & Hleg).
  split.
  - apply Hcur; [reflexivity | reflexivity | vm_compute; reflexivity |].
    cbn. apply not_elem_of_nil.
  - apply Hleg; [reflexivity | reflexivity | reflexivity |].
    cbn. apply not_elem_of_nil.
Defined.

(** ** Life cycle of a registry entry *)

Section Held.

Implicit Types (hs : list (string * Stage)) (reg : gmap string JobRecord).

Lemma held_perm hs hs' reg : hs ≡ₚ hs' -> held hs reg -> held hs' reg.
Proof.
  intros Hp [Hnd Hok]. split.
  - by rewrite <- Hp.
  - intros j s Hin. apply Hok. by rewrite Hp.
Qed.

Lemma held_lookup hs reg j s :
  held hs reg -> (j, s) ∈ hs -> exists r, reg !! j = Some r /\ stage_ok s r.
Proof. intros [_ Hok]. apply Hok. Qed.

Lemma held_id_in hs j s : (j, s) ∈ hs -> j ∈ hs.*1.
Proof. intros Hin. apply list_elem_of_fmap. by exists (j, s). Qed.

Lemma held_absent hs reg j :
  held hs reg -> reg !! j = None -> j ∉ hs.*1.
Proof.
  intros [_ Hok] Hnone Hin. apply list_elem_of_fmap in Hin as [[j' s] [-> Hin]].
  destruct (Hok _ _ Hin) as (r & Hr & _). cbn in *. congruence.
Qed.

Lemma held_remove hs reg j s :
  held ((j, s) :: hs) reg -> held hs reg /\ j ∉ hs.*1.
Proof.
  intros [Hnd Hok]. rewrite fmap_cons in Hnd. apply NoDup_cons in Hnd as [Hj Hnd].
  split; [split; [done|]|done]. intros j' s' Hin. apply Hok. by right.
Qed.

Lemma held_write_free hs reg j r' :
  held hs reg -> j ∉ hs.*1 -> held hs (<[j := r']> reg).
Proof.
  intros [Hnd Hok] Hj. split; [done|]. intros j' s' Hin.
  rewrite lookup_insert_ne; [by apply Hok|].
  intros ->. apply Hj. by eapply held_id_in.
Qed.

Lemma held_add hs reg j s r :
  held hs reg -> j ∉ hs.*1 -> reg !! j = Some r -> stage_ok s r ->
  held ((j, s) :: hs) reg.
Proof.
  intros [Hnd Hok] Hj Hr Hs. split.
  - rewrite fmap_cons. by apply NoDup_cons.
  - intros j' s' Hin. apply elem_of_cons in Hin as [[= -> ->] | Hin]; [by exists r|].
    by apply Hok.
Qed.

(** The holder moves to another stage and its entry is overwritten. *)
Lemma held_replace hs reg j s s' r' :
  held ((j, s) :: hs) reg -> stage_ok s' r' ->
  held ((j, s') :: hs) (<[j := r']> reg).
Proof.
  intros H Hs. apply held_remove in H as [H Hj].
  eapply held_add; [by apply held_write_free | done | apply lookup_insert_eq | done].
Qed.

(** The holder lets go and the entry is overwritten. *)
Lemma held_drop hs reg j s r' :
  held ((j, s) :: hs) reg -> held hs (<[j := r']> reg).
Proof. intros H. apply held_remove in H as [H Hj]. by apply held_write_free. Qed.

(** The holder moves to another stage, the entry staying as it is. *)
Lemma held_restage hs reg j s s' :
  held ((j, s) :: hs) reg -> (forall r, stage_ok s r -> stage_ok s' r) ->
  held ((j, s') :: hs) reg.
Proof.
  intros H Hs. destruct (held_lookup _ _ j s H) as (r & Hr & Hok); [by left|].
  apply held_remove in H as [H Hj]. eapply held_add; eauto.
Qed.

(** A new job. *)
Lemma held_new hs reg j s r' :
  held hs reg -> reg !! j = None -> stage_ok s r' ->
  held ((j, s) :: hs) (<[j := r']> reg).
Proof.
  intros H Hnone Hs. pose proof (held_absent _ _ _ H Hnone) as Hj.
  eapply held_add; [by apply held_write_free | done | apply lookup_insert_eq | done].
Qed.

(** *** Moving forward *)

Lemma forward_refl new late reg : forward new late reg reg.
Proof. intros j. split; [done|]. split; [lia | done]. Qed.

Lemma forward_trans new late reg1 reg2 reg3 :
  forward new late reg1 reg2 -> forward new late reg2 reg3 ->
  forward new late reg1 reg3.
Proof.
  intros H12 H23 j. destruct (H12 j) as (Hr1 & Hm1 & Hc1 & Hn1).
  destruct (H23 j) as (Hr2 & Hm2 & Hc2 & Hn2).
  split; [intros Hj; specialize (Hr1 Hj); specialize (Hr2 Hj); lia|].
  split; [lia|]. split; [|by auto].
  intros r Hr Hc. apply Hc2; [by apply Hc1 | done].
Qed.

Lemma forward_late new late late' reg reg' :
  late ⊆ late' -> forward new late reg reg' -> forward new late' reg reg'.
Proof.
  intros Hsub H j. destruct (H j) as (Hr & Hm & Hc & Hn).
  split; [|done]. intros Hj. apply Hr. intros Hin. by apply Hj, Hsub.
Qed.

Lemma forward_insert new late reg j r' :
  (forall r, reg !! j = Some r ->
     status r <> completed
     /\ (j ∉ late -> (rank (Some (status r)) <= rank (Some (status r')))%nat)
     /\ (Nat.min 2 (rank (Some (status r))) <= rank (Some (status r')))%nat) ->
  (reg !! j = None -> new = Some j) ->
  forward new late reg (<[j := r']> reg).
Proof.
  intros Hold Hnew j'. destruct (decide (j = j')) as [<- | Hne].
  - rewrite lookup_insert_eq. destruct (reg !! j) as [r|] eqn:Hr.
    + destruct (Hold r eq_refl) as (Hnc & Hrank & Hmin).
      cbn [fmap option_fmap option_map].
      split; [done|]. split; [done|]. split; [|done]. intros r0 [= <-] Hc. done.
    + split; [cbn; lia|]. split; [cbn; lia|]. split; [done|].
      intros _ Hn. by destruct Hn; apply Hnew.
  - rewrite lookup_insert_ne by done. split; [done|]. split; [lia | done].
Qed.

(** Overwriting the entry of a held job. *)
Lemma forward_write new late hs reg j s r' :
  held hs reg -> (j, s) ∈ hs -> advance s r' ->
  (s = FailedDownload -> j ∈ late) ->
  forward new late reg (<[j := r']> reg).
Proof.
  intros H Hin Hadv Hlate. destruct (held_lookup _ _ _ _ H Hin) as (r & Hr & Hok).
  apply forward_insert; [|congruence].
  intros r0 Hr0. assert (r0 = r) as -> by congruence.
  destruct s; cbn in Hok, Hadv;
    destruct (status r), (status r'); cbn;
    intuition (try congruence; try lia).
Qed.

Lemma forward_new late reg j r' :
  reg !! j = None -> forward (Some j) late reg (<[j := r']> reg).
Proof. intros Hn. apply forward_insert; [congruence | done]. Qed.

End Held.

Section HeldInPlace.

Implicit Types (hs : list (string * Stage)) (reg : gmap string JobRecord).

(** The entry of a held job is overwritten, the holder staying where it
    is. *)
Lemma held_write hs reg j s r' :
  held hs reg -> (j, s) ∈ hs -> stage_ok s r' -> held hs (<[j := r']> reg).
Proof.
  intros H Hin Hs. apply elem_of_Permutation in Hin as [hs' Hp].
  apply (held_perm _ _ _ (symmetry Hp)).
  eapply held_replace; [|done]. by apply (held_perm _ _ _ Hp).
Qed.

Lemma holders_of_push q cs ds item :
  holders_of (q ++ [item]) cs ds ≡ₚ (q_jobId item, Queued) :: holders_of q cs ds.
Proof.
  unfold holders_of. rewrite fmap_app, fmap_cons, fmap_nil, <- app_assoc.
  cbn [app]. by rewrite <- Permutation_middle.
Qed.

Lemma holders_of_child_delete q cs ds i c :
  cs !! i = Some c ->
  holders_of q cs ds
  ≡ₚ (c_jobId c, child_stage c) :: holders_of q (delete i cs) ds.
Proof.
  intros Hc. unfold holders_of.
  rewrite (delete_Permutation cs i c Hc) at 1.
  rewrite fmap_cons. cbn [app]. by rewrite <- Permutation_middle.
Qed.

Lemma delete_insert_same {A} (l : list A) (i : nat) (x : A) :
  delete i (<[i := x]> l) = delete i l.
Proof. revert i. induction l as [|y l IH]; intros [|i]; cbn; by rewrite ?IH. Qed.

Lemma holders_of_child_insert q cs ds i c c' :
  cs !! i = Some c ->
  holders_of q (<[i := c']> cs) ds
  ≡ₚ (c_jobId c', child_stage c') :: holders_of q (delete i cs) ds.
Proof.
  intros Hc.
  assert (Hi : (<[i := c']> cs) !! i = Some c').
  { apply list_lookup_insert_eq. by eapply lookup_lt_Some. }
  rewrite (holders_of_child_delete q _ ds i c' Hi).
  by rewrite delete_insert_same.
Qed.

Lemma holders_of_child_app q cs ds c :
  holders_of q (cs ++ [c]) ds
  ≡ₚ (c_jobId c, child_stage c) :: holders_of q cs ds.
Proof.
  unfold holders_of. rewrite fmap_app, fmap_cons, fmap_nil, <- !app_assoc.
  cbn [app]. by rewrite <- !Permutation_middle.
Qed.

Lemma holders_of_download_delete q cs ds i d :
  ds !! i = Some d ->
  holders_of q cs ds
  ≡ₚ (d_jobId d, download_stage d) :: holders_of q cs (delete i ds).
Proof.
  intros Hd. unfold holders_of.
  rewrite (delete_Permutation ds i d Hd) at 1.
  rewrite fmap_cons, !app_assoc. by rewrite <- Permutation_middle.
Qed.

Lemma holders_of_download_insert q cs ds i d d' :
  ds !! i = Some d ->
  holders_of q cs (<[i := d']> ds)
  ≡ₚ (d_jobId d', download_stage d') :: holders_of q cs (delete i ds).
Proof.
  intros Hd.
  assert (Hi : (<[i := d']> ds) !! i = Some d').
  { apply list_lookup_insert_eq. by eapply lookup_lt_Some. }
  rewrite (holders_of_download_delete q cs _ i d' Hi).
  by rewrite delete_insert_same.
Qed.

Lemma holders_of_download_app q cs ds d :
  holders_of q cs (ds ++ [d])
  ≡ₚ (d_jobId d, download_stage d) :: holders_of q cs ds.
Proof.
  unfold holders_of. rewrite fmap_app, fmap_cons, fmap_nil, !app_assoc.
  by rewrite <- Permutation_cons_append.
Qed.

End HeldInPlace.

Section LifeCycle.
Context `{RT : Runtime}.

Lemma failed_ids_spec (st : State) (j : string) :
  j ∈ failed_ids st
  <-> exists d, d ∈ downloads st /\ d_failed d = true /\ d_jobId d = j.
Proof.
  unfold failed_ids. rewrite list_elem_of_fmap. split.
  - intros (d & -> & Hd). apply list_elem_of_filter in Hd as [Hf Hd]. by exists d.
  - intros (d & Hd & Hf & <-). exists d. split; [done|].
    by apply list_elem_of_filter.
Qed.

Lemma failed_in (st : State) (i : nat) (d : Download) :
  downloads st !! i = Some d -> d_failed d = true -> d_jobId d ∈ failed_ids st.
Proof.
  intros Hd Hf. apply failed_ids_spec. exists d. split; [|done].
  by eapply list_elem_of_lookup_2.
Qed.

Lemma drained_life (w : World) (new : option string) (late : list string)
    (st st' : State) (effs : list Effect) :
  drained w st st' effs ->
  life_inv st ->
  life_inv st' /\ forward new late (transcriptions st) (transcriptions st').
Proof.
  induction 1 as [st Hb | st item rest Hitem Hp Ha Hex
                     | st item rest r effs0 st' effs Hitem Hp Ha Hex Hd IH];
    intros Hinv.
  - split; [done | apply forward_refl].
  - split; [|apply forward_refl].
    unfold life_inv, holders in *. rewrite Hitem in Hinv.
    cbn [transcriptions transcriptionQueue children downloads].
    apply (held_perm _ _ _ (symmetry (holders_of_child_app _ _ _ _))).
    eapply held_restage; [exact Hinv|]. done.
  - assert (Hin : (q_jobId item, Queued) ∈ holders st).
    { unfold holders. rewrite Hitem. by left. }
    destruct IH as [IHinv IHfwd].
    + unfold life_inv, holders in *. rewrite Hitem in Hinv.
      cbn [transcriptions transcriptionQueue children downloads].
      eapply held_drop. exact Hinv.
    + split; [done|]. eapply forward_trans; [|exact IHfwd].
      cbn [transcriptions].
      eapply forward_write; [exact Hinv | exact Hin | | done].
      cbn. by rewrite (skipped_error _ _ _ _ Hex).
Qed.

Lemma child_held (st : State) (i : nat) (c : Child) :
  children st !! i = Some c -> (c_jobId c, child_stage c) ∈ holders st.
Proof.
  intros Hc. unfold holders.
  rewrite (holders_of_child_delete _ _ _ _ _ Hc). by left.
Qed.

Lemma download_held (st : State) (i : nat) (d : Download) :
  downloads st !! i = Some d -> (d_jobId d, download_stage d) ∈ holders st.
Proof.
  intros Hd. unfold holders.
  rewrite (holders_of_download_delete _ _ _ _ _ Hd). by left.
Qed.

(** Writing a progress entry for a download, failed or not. *)
Lemma download_progress_life (st : State) (late : list string) (new : option string)
    (i : nat) (d : Download) (r' : JobRecord) :
  life_inv st ->
  failed_ids st ⊆ late ->
  downloads st !! i = Some d ->
  status r' = processing ->
  life_inv (record_job (d_jobId d) r' st)
  /\ forward new late (transcriptions st)
       (transcriptions (record_job (d_jobId d) r' st)).
Proof.
  intros Hinv Hlate Hd Hr'. pose proof (download_held _ _ _ Hd) as Hin. split.
  - unfold life_inv in *. cbn. eapply held_write; [exact Hinv | exact Hin |].
    unfold download_stage. destruct (d_failed d); cbn; by rewrite Hr'; auto.
  - cbn. eapply forward_write; [exact Hinv | exact Hin | |].
    + unfold download_stage. destruct (d_failed d); cbn; rewrite Hr'; auto.
    + unfold download_stage. destruct (d_failed d) eqn:Hf; [|done].
      intros _. by eapply Hlate, failed_in.
Qed.

Lemma before_drain_life (w : World) (a : Action) (st : State) (late : list string) :
  life_inv st ->
  (forall j, issued_id (w, a) = Some j -> transcriptions st !! j = None) ->
  failed_ids st ⊆ late ->
  life_inv (before_drain w a st).1
  /\ forward (issued_id (w, a)) late (transcriptions st)
       (transcriptions (before_drain w a st).1).
Proof.
  intros Hinv Hfresh Hlate.
  destruct a as [[f|] m l | url m l info dl_now dl_throws | i dl tot | i pct
                | i msg | i | i msg | i msg | i code | i msg];
    cbn [before_drain step fst].
  - (* upload *)
    specialize (Hfresh _ eq_refl). unfold life_inv, holders in *. cbn. split.
    + apply (held_perm _ _ _ (symmetry (holders_of_push _ _ _ _))).
      apply held_new; [done | done | by left].
    + by apply forward_new.
  - split; [done | apply forward_refl].
  - (* remote reference *)
    unfold issued_id in *. cbn [fst snd] in *. unfold post_transcribe_youtube.
    destruct (decide (js_or url "" = "")); [split; [done | apply forward_refl]|].
    destruct (extractYoutubeVideoId (js_or url "")) as [videoId|];
      [|destruct info; split; (done || apply forward_refl)].
    destruct (decide (videoId = ""));
      [destruct info; split; (done || apply forward_refl)|].
    destruct info as [videoDetails|]; [|split; [done | apply forward_refl]].
    destruct (too_long (v_duration videoDetails));
      [split; [done | apply forward_refl]|].
    specialize (Hfresh _ eq_refl).
    unfold life_inv, holders in *.
    destruct dl_throws as [message|]; cbn; rewrite !insert_insert_eq; split.
    + apply held_write_free; [done|]. by eapply held_absent.
    + by apply forward_new.
    + apply (held_perm _ _ _ (symmetry (holders_of_download_app _ _ _ _))).
      apply held_new; [done | done | done].
    + by apply forward_new.
  - (* download progress *)
    destruct (downloads st !! i) as [d|] eqn:Hd; cbn [fst];
      [|split; [done | apply forward_refl]].
    unfold on_ytdl_progress. case_bool_decide; [|split; [done | apply forward_refl]].
    by eapply download_progress_life.
  - (* conversion progress *)
    destruct (downloads st !! i) as [d|] eqn:Hd; cbn [fst];
      [|split; [done | apply forward_refl]].
    unfold on_ffmpeg_progress.
    destruct pct as [x|]; [|split; [done | apply forward_refl]].
    destruct (truthy_double x); [|split; [done | apply forward_refl]].
    by eapply download_progress_life.
  - (* conversion error *)
    destruct (downloads st !! i) as [d|] eqn:Hd; cbn [fst];
      [|split; [done | apply forward_refl]].
    destruct (d_failed d) eqn:Hf; [split; [done | apply forward_refl]|].
    pose proof (download_held _ _ _ Hd) as Hin.
    unfold download_stage in Hin. rewrite Hf in Hin. split.
    + unfold life_inv, holders in *. cbn.
      eapply held_perm; [symmetry; eapply holders_of_download_insert; exact Hd|].
      cbn. eapply held_replace; [|by left].
      eapply held_perm; [eapply holders_of_download_delete; exact Hd|].
      exact Hinv.
    + cbn. eapply forward_write; [exact Hinv | exact Hin | done | done].
  - (* conversion end *)
    destruct (downloads st !! i) as [d|] eqn:Hd; cbn [fst];
      [|split; [done | apply forward_refl]].
    destruct (d_failed d) eqn:Hf; [split; [done | apply forward_refl]|].
    split; [|apply forward_refl].
    unfold life_inv, holders in *. cbn.
    apply (held_perm _ _ _ (symmetry (holders_of_push _ _ _ _))). cbn.
    eapply held_restage.
    + apply (held_perm _ _ _ (holders_of_download_delete _ _ _ _ _ Hd)). exact Hinv.
    + unfold download_stage. rewrite Hf. intros r Hr. by right.
  - (* stdout *)
    destruct (children st !! i) as [c|] eqn:Hc; cbn [fst];
      [|split; [done | apply forward_refl]].
    destruct (c_settled c) eqn:Hs; [split; [done | apply forward_refl]|].
    pose proof (child_held _ _ _ Hc) as Hin.
    unfold child_stage in Hin. rewrite Hs in Hin.
    cbn. split.
    + unfold life_inv, holders in *. cbn.
      eapply held_perm; [symmetry; eapply holders_of_child_insert; exact Hc|].
      unfold child_stage. cbn. rewrite Hs.
      eapply held_replace; [|by right].
      eapply held_perm; [eapply holders_of_child_delete; exact Hc|].
      exact Hinv.
    + eapply forward_write; [exact Hinv | exact Hin | done | done].
  - (* stderr *)
    destruct (children st !! i) as [c|] eqn:Hc; cbn [fst];
      [|split; [done | apply forward_refl]].
    destruct (c_settled c) eqn:Hs; [split; [done | apply forward_refl]|].
    cbn. split; [|apply forward_refl].
    unfold life_inv, holders in *. cbn.
    eapply held_perm; [symmetry; eapply holders_of_child_insert; exact Hc|].
    refine (held_perm _ _ _ (holders_of_child_delete _ _ _ i c Hc) _).
    exact Hinv.
  - (* close *)
    destruct (children st !! i) as [c|] eqn:Hc; cbn [fst];
      [|split; [done | apply forward_refl]].
    pose proof (child_held _ _ _ Hc) as Hin.
    assert (Hgoal : forall r',
      status r' = completed \/ status r' = error ->
      held (holders_of (transcriptionQueue st) (delete i (children st)) (downloads st))
           (<[c_jobId c := r']> (transcriptions st))
      /\ forward (issued_id (w, ChildClose i code)) late (transcriptions st)
           (<[c_jobId c := r']> (transcriptions st))).
    { intros r' Hterm. split.
      - eapply held_drop.
        eapply held_perm; [eapply holders_of_child_delete; exact Hc|]. exact Hinv.
      - eapply forward_write; [exact Hinv | exact Hin | |].
        + unfold child_stage, advance. destruct (c_settled c); [done|].
          destruct Hterm as [-> | ->]; done.
        + unfold child_stage. by destruct (c_settled c). }
    unfold on_close, life_inv, holders.
    destruct (existsSync w (txtFile_of (c_inputPath c)));
      destruct (c_settled c); cbn; rewrite ?insert_insert_eq;
      apply Hgoal; (by left) || (by right).
  - (* error *)
    destruct (children st !! i) as [c|] eqn:Hc; cbn [fst];
      [|split; [done | apply forward_refl]].
    destruct (c_settled c) eqn:Hs; [split; [done | apply forward_refl]|].
    pose proof (child_held _ _ _ Hc) as Hin.
    unfold child_stage in Hin. rewrite Hs in Hin.
    unfold life_inv, holders in *. cbn. rewrite !insert_insert_eq. split.
    + eapply held_perm; [symmetry; eapply holders_of_child_insert; exact Hc|].
      unfold child_stage. cbn.
      eapply held_replace; [|done].
      eapply held_perm; [eapply holders_of_child_delete; exact Hc|].
      exact Hinv.
    + eapply forward_write; [exact Hinv | exact Hin | done | done].
Qed.

Lemma step_life (w : World) (a : Action) (st : State) (late : list string) :
  life_inv st ->
  (forall j, issued_id (w, a) = Some j -> transcriptions st !! j = None) ->
  failed_ids st ⊆ late ->
  life_inv (step w a st).1
  /\ forward (issued_id (w, a)) late (transcriptions st)
       (transcriptions (step w a st).1).
Proof.
  intros Hinv Hfresh Hlate.
  destruct (before_drain_life w a st late Hinv Hfresh Hlate) as [Hinv1 Hfwd1].
  destruct (step_drained w a st) as [_ Hd].
  destruct (before_drain w a st).2.
  - destruct Hd as (effs & Hd & _).
    destruct (drained_life w (issued_id (w, a)) late _ _ _ Hd Hinv1)
      as [Hinv2 Hfwd2].
    split; [done|]. by eapply forward_trans.
  - destruct Hd as [-> _]. done.
Qed.

(** A download that has failed stays failed. *)
Lemma before_drain_failed (w : World) (a : Action) (st : State) :
  failed_ids st ⊆ failed_ids (before_drain w a st).1.
Proof.
  intros j Hj. apply failed_ids_spec in Hj as (d' & Hin & Hf' & Hid).
  apply failed_ids_spec.
  assert (Hsame : downloads (before_drain w a st).1 = downloads st ->
                  exists d, d ∈ downloads (before_drain w a st).1
                            /\ d_failed d = true /\ d_jobId d = j).
  { intros ->. by exists d'. }
  destruct a as [[f|] m l | url m l info dl_now dl_throws | i dl tot | i pct
                | i msg | i | i msg | i msg | i code | i msg];
    cbn [before_drain step fst] in *; try (by apply Hsame).
  - unfold post_transcribe_youtube in *.
    repeat (case_decide || case_match); try (by apply Hsame).
    exists d'. split; [|done]. cbn. apply elem_of_app. by left.
  - destruct (downloads st !! i); [unfold on_ytdl_progress in *; case_bool_decide|];
      by apply Hsame.
  - destruct (downloads st !! i);
      [unfold on_ffmpeg_progress in *; repeat case_match|]; by apply Hsame.
  - destruct (downloads st !! i) as [d|] eqn:Hd; [|by apply Hsame].
    destruct (d_failed d) eqn:Hf; [by apply Hsame|].
    exists d'. split; [|done]. cbn.
    apply list_elem_of_lookup in Hin as [k Hk].
    apply list_elem_of_lookup. exists k.
    rewrite list_lookup_insert_ne; [done|]. intros ->. congruence.
  - destruct (downloads st !! i) as [d|] eqn:Hd; [|by apply Hsame].
    destruct (d_failed d) eqn:Hf; [by apply Hsame|].
    exists d'. split; [|done]. cbn.
    rewrite (delete_Permutation _ _ _ Hd) in Hin.
    apply elem_of_cons in Hin as [-> | Hin]; [congruence | done].
  - destruct (children st !! i) as [c|]; [destruct (c_settled c)|]; by apply Hsame.
  - destruct (children st !! i) as [c|]; [destruct (c_settled c)|]; by apply Hsame.
  - destruct (children st !! i) as [c|]; [|by apply Hsame].
    unfold on_close in *. destruct (existsSync w _); destruct (c_settled c);
      by apply Hsame.
  - destruct (children st !! i) as [c|]; [destruct (c_settled c)|]; by apply Hsame.
Qed.

Lemma step_failed (w : World) (a : Action) (st : State) :
  failed_ids st ⊆ failed_ids (step w a st).1.
Proof.
  pose proof (before_drain_failed w a st) as Hb.
  destruct (step_drained w a st) as [_ Hd].
  destruct (before_drain w a st).2.
  - destruct Hd as (effs & Hd & _). apply drained_downloads in Hd.
    unfold failed_ids in *. by rewrite Hd.
  - destruct Hd as [-> _]. done.
Qed.

Lemma run_failed (evs : list (World * Action)) (st : State) :
  failed_ids st ⊆ failed_ids (run evs st).1.
Proof.
  revert st. induction evs as [|[w a] evs IH]; intros st; [done|].
  rewrite run_cons. cbn [fst]. etrans; [apply step_failed | apply IH].
Qed.

Lemma issued_ids_cons (e : World * Action) (evs : list (World * Action)) :
  issued_ids (e :: evs)
  = match issued_id e with
    | Some j => j :: issued_ids evs
    | None => issued_ids evs
    end.
Proof. reflexivity. Qed.

Lemma run_life (evs : list (World * Action)) (late : list string) :
  forall st,
    life_inv st ->
    NoDup (issued_ids evs) ->
    (forall j, j ∈ issued_ids evs -> transcriptions st !! j = None) ->
    failed_ids (run evs st).1 ⊆ late ->
    life_inv (run evs st).1
    /\ forward_run (issued_ids evs) late (transcriptions st)
         (transcriptions (run evs st).1).
Proof.
  induction evs as [|[w a] evs IH]; intros st Hinv Hnd Hfresh Hlate.
  { split; [done|]. intros j. cbn [run fst]. split; [done|]. split; [lia | done]. }
  rewrite run_cons in Hlate |- *. cbn [fst] in Hlate |- *.
  rewrite issued_ids_cons in Hnd, Hfresh |- *.
  assert (Hhead : forall j, issued_id (w, a) = Some j -> transcriptions st !! j = None).
  { intros j Hj. apply Hfresh. rewrite Hj. by left. }
  assert (Hlate0 : failed_ids st ⊆ late).
  { etrans; [apply step_failed|]. etrans; [apply run_failed | exact Hlate]. }
  destruct (step_life w a st late Hinv Hhead Hlate0) as [Hinv1 Hfwd1].
  assert (Hnd' : NoDup (issued_ids evs)).
  { destruct (issued_id (w, a)); [by apply NoDup_cons in Hnd as [_ ?] | done]. }
  assert (Hfresh' : forall j, j ∈ issued_ids evs ->
                      transcriptions (step w a st).1 !! j = None).
  { intros j Hj. destruct (Hfwd1 j) as (_ & _ & _ & Hnone). apply Hnone.
    - apply Hfresh. destruct (issued_id (w, a)); [by right | done].
    - intros Heq. rewrite Heq in Hnd. by apply NoDup_cons in Hnd as [Hnotin _]. }
  destruct (IH _ Hinv1 Hnd' Hfresh' Hlate) as [Hinv2 Hfwd2].
  split; [done|]. intros j.
  destruct (Hfwd1 j) as (Hr1 & Hm1 & Hc1 & Hn1).
  destruct (Hfwd2 j) as (Hr2 & Hm2 & Hc2 & Hn2).
  split; [intros Hj; specialize (Hr1 Hj); specialize (Hr2 Hj); lia|].
  split; [lia|]. split.
  - intros r Hr Hc. apply Hc2; [by apply Hc1 | done].
  - intros Hnone Hj. apply Hn2.
    + apply Hn1; [done|]. intros Heq. apply Hj. rewrite Heq. by left.
    + intros Hin. apply Hj. destruct (issued_id (w, a)); [by right | done].
Qed.

Lemma issued_ids_app (evs1 evs2 : list (World * Action)) :
  issued_ids (evs1 ++ evs2) = issued_ids evs1 ++ issued_ids evs2.
Proof. apply omap_app. Qed.

Lemma life_inv_init : life_inv init.
Proof.
  split; [constructor|]. intros j s Hin. by apply elem_of_nil in Hin.
Qed.

End LifeCycle.

(** C5, counterexample: an upload whose engine run prints nothing is
    ['started'] until the ['close'] event and ['completed'] right after it,
    without ever being ['processing']; an entry that is already ['error'] is
    ['started'] again after a second upload handled within the same
    millisecond; and the entry of a remote reference whose conversion
    failed, ['error'], is ['processing'] again after the next progress event
    of the download stream. *)
Lemma C5_skips_processing_and_leaves_error :
  ~ specified_move
      (status_of (run (RT := Example.runtime) (take 1 quiet_success) init).1 "100")
      (status_of (run (RT := Example.runtime) quiet_success init).1 "100")
  /\ ~ specified_move
         (status_of
            (run (RT := Example.runtime) (take 1 failed_then_same_tick) init).1 "100")
         (status_of (run (RT := Example.runtime) failed_then_same_tick init).1 "100")
  /\ status_of
       (run (RT := Example.runtime) (take 2 failed_download_then_progress) init).1
       "100" = Some error
  /\ ~ specified_move
         (status_of
            (run (RT := Example.runtime) (take 2 failed_download_then_progress) init).1
            "100")
         (status_of
            (run (RT := Example.runtime) failed_download_then_progress init).1 "100").
Proof.
  split; [|split; [|split; [vm_compute; reflexivity|]]]; vm_compute;
    intros [H | [[H H'] | [[H H'] | [[H H'] | [H H']]]]];
    (discriminate H || discriminate H').
Qed.

(** C5, amended: over a run in which no two accepted submissions were given
    the same job id, an entry is never removed and never goes back to
    ['started']; a ['completed'] entry is never changed again; and the
    status only moves forward in the order absent, ['started'],
    ['processing'], finished (['completed'] or ['error']), with one
    exception: the entry of a remote reference whose conversion has failed
    is ['error'] or ['processing']: the progress handlers of its download
    stay registered, and a later progress event puts the entry back from
    ['error'] to ['processing'].  No separate status is stored for a queued
    job, and ['processing'] may be skipped. *)
Theorem C5_entries_only_move_forward `{RT : Runtime}
    (evs1 evs2 : list (World * Action)) (jobId : string) :
  NoDup (issued_ids (evs1 ++ evs2)) ->
  (jobId ∉ failed_ids (run (evs1 ++ evs2) init).1 ->
   (rank (status_of (run evs1 init).1 jobId)
    <= rank (status_of (run (evs1 ++ evs2) init).1 jobId))%nat)
  /\ (Nat.min 2 (rank (status_of (run evs1 init).1 jobId))
      <= rank (status_of (run (evs1 ++ evs2) init).1 jobId))%nat
  /\ (forall r,
        transcriptions (run evs1 init).1 !! jobId = Some r ->
        status r = completed ->
        transcriptions (run (evs1 ++ evs2) init).1 !! jobId = Some r)
  /\ (jobId ∈ failed_ids (run (evs1 ++ evs2) init).1 ->
      status_of (run (evs1 ++ evs2) init).1 jobId = Some error
      \/ status_of (run (evs1 ++ evs2) init).1 jobId = Some processing).
Proof.
  intros Hnd. pose proof Hnd as Hnd0. rewrite issued_ids_app in Hnd.
  apply NoDup_app in Hnd as (Hnd1 & Hdisj & Hnd2).
  set (late := failed_ids (run (evs1 ++ evs2) init).1).
  assert (Hlate1 : failed_ids (run evs1 init).1 ⊆ late).
  { subst late. rewrite run_app. cbn [fst]. apply run_failed. }
  destruct (run_life evs1 late init life_inv_init Hnd1) as [Hinv1 Hfwd1];
    [done | done |].
  destruct (run_life evs2 late (run evs1 init).1 Hinv1 Hnd2) as [Hinv2 Hfwd2].
  { intros j Hj. destruct (Hfwd1 j) as (_ & _ & _ & Hnone).
    apply Hnone; [done|]. intros Hin. by apply (Hdisj j). }
  { subst late. rewrite run_app. done. }
  subst late. rewrite run_app in *. cbn [fst] in *. unfold status_of.
  destruct (Hfwd2 jobId) as (Hrank & Hmin & Hcompleted & _).
  split; [done|]. split; [done|]. split; [done|].
  intros Hfailed. apply failed_ids_spec in Hfailed as (d & Hd & Hf & <-).
  apply list_elem_of_lookup in Hd as [i Hd].
  pose proof (download_held _ _ _ Hd) as Hin.
  destruct (held_lookup _ _ _ _ Hinv2 Hin) as (r & -> & Hok).
  unfold download_stage in Hok. rewrite Hf in Hok. cbn in Hok |- *.
  destruct Hok as [-> | ->]; auto.
Qed.

Lemma C5_entries_only_move_forward_witness :
  (rank (status_of
           (run (RT := Example.runtime) (take 2 two_uploads_then_close) init).1 "100")
   <= rank (status_of
              (run (RT := Example.runtime)
                 (take 2 two_uploads_then_close ++ drop 2 two_uploads_then_close)
                 init).1 "100"))%nat.
Proof.
  destruct (C5_entries_only_move_forward (RT := Example.runtime)
              (take 2 two_uploads_then_close) (drop 2 two_uploads_then_close) "100")
    as [Hrank _].
  - by_computation.
  - apply Hrank. by_computation.
Defined.

(** * Beyond the claims *)

(** ** The dispatch loop *)

Section DispatchLoop.
Context `{RT : Runtime}.

Lemma before_drain_quiet (w : World) (a : Action) (st : State) :
  (before_drain w a st).2 = false ->
  transcriptionQueue (before_drain w a st).1 = transcriptionQueue st
  /\ isProcessing (before_drain w a st).1 = isProcessing st.
Proof.
  destruct a as [[f|] m l | url m l info dl_now dl_throws | i dl tot | i pct
                | i msg | i | i msg | i msg | i code | i msg];
    cbn [before_drain step fst snd]; try done.
  - intros _. unfold post_transcribe_youtube.
    repeat (case_decide || case_match); done.
  - intros _. destruct (downloads st !! i);
      [unfold on_ytdl_progress; case_bool_decide|]; done.
  - intros _. destruct (downloads st !! i);
      [unfold on_ffmpeg_progress; repeat case_match|]; done.
  - intros _. destruct (downloads st !! i) as [d|]; [destruct (d_failed d)|]; done.
  - destruct (downloads st !! i) as [d|]; [destruct (d_failed d)|]; done.
  - intros _. destruct (children st !! i) as [c|]; [|done]. by destruct (c_settled c).
  - intros _. destruct (children st !! i) as [c|]; [|done]. by destruct (c_settled c).
  - destruct (children st !! i) as [c|]; [|done].
    unfold on_close. destruct (existsSync w _); by destruct (c_settled c).
  - destruct (children st !! i) as [c|]; [|done]. by destruct (c_settled c).
Qed.

Lemma step_waiting_is_served (w : World) (a : Action) (st : State) :
  sched_inv st -> waiting_is_served st -> waiting_is_served (step w a st).1.
Proof.
  intros Hinv Hserved.
  pose proof (step_sched_inv w a st Hinv) as Hinv'.
  destruct (step_drained w a st) as [_ Hd].
  destruct (before_drain w a st).2 eqn:Hflag.
  - destruct Hd as (effs & Hd & _). apply drained_final in Hd.
    destruct Hd as [Hp | [Hq | Hact]]; [by right | by left | right].
    destruct Hinv' as [(_ & Ha & _) | (Hp & _)];
      [unfold MAX_CONCURRENT_JOBS in Hact; lia | done].
  - destruct Hd as [-> _].
    destruct (before_drain_quiet w a st Hflag) as [Hq Hp].
    unfold waiting_is_served. by rewrite Hq, Hp.
Qed.

Lemma reachable_waiting_is_served (st : State) :
  reachable st -> waiting_is_served st.
Proof.
  intros [evs ->].
  assert (H : forall st, sched_inv st -> waiting_is_served st ->
                sched_inv (run evs st).1 /\ waiting_is_served (run evs st).1).
  { induction evs as [|[w a] evs IH]; intros st Hinv Hs; [done|].
    rewrite run_cons. cbn [fst].
    apply IH; [by apply step_sched_inv | by apply step_waiting_is_served]. }
  apply H; by left.
Qed.

Lemma reachable_idle_queue_empty (st : State) :
  reachable st -> isProcessing st = false -> transcriptionQueue st = [].
Proof.
  intros Hr Hp. destruct (reachable_waiting_is_served st Hr); [done | congruence].
Qed.

End DispatchLoop.

(** X1: queued jobs are never stranded.  In every reachable state with a
    non-empty queue the scheduler is busy: [isProcessing] is set and exactly
    one spawned engine process is awaited; and an idle scheduler has an
    empty queue. *)
Theorem X1_queued_jobs_are_being_served `{RT : Runtime} (st : State) :
  reachable st ->
  (transcriptionQueue st <> [] ->
   isProcessing st = true /\ activeJobs st = 1 /\ pending (children st) = 1%nat)
  /\ (isProcessing st = false -> transcriptionQueue st = []).
Proof.
  intros Hr. pose proof (reachable_waiting_is_served st Hr) as Hs.
  pose proof (reachable_sched_inv st Hr) as Hinv.
  split.
  - intros Hq. destruct Hs as [Hs | Hs]; [done|].
    destruct Hinv as [(Hp & _) | (Hp & Ha & Hn)]; [congruence | done].
  - intros Hp. destruct Hs as [Hs | Hs]; [done | congruence].
Qed.

Lemma X1_queued_jobs_are_being_served_witness :
  isProcessing (run (RT := Example.runtime) (take 2 two_uploads_then_close) init).1
  = true.
Proof.
  destruct (X1_queued_jobs_are_being_served (RT := Example.runtime)
              (run (RT := Example.runtime) (take 2 two_uploads_then_close) init).1)
    as [Hbusy _].
  - exists (take 2 two_uploads_then_close). reflexivity.
  - apply Hbusy. vm_compute. discriminate.
Defined.

Section DispatchLoopShape.
Context `{RT : Runtime}.

Lemma skipped_spawns (w : World) (item : QueueItem) (r : JobRecord)
    (effs0 : list Effect) :
  skipped w item = Some (r, effs0) ->
  spawns effs0 = command_of <$> filter (has_input w) [item].
Proof.
  intros Hskip. rewrite filter_cons, filter_nil.
  unfold skipped in Hskip.
  destruct (existsSync w (filePath item)) eqn:Hex; cbn [negb] in Hskip.
  - destruct (spawn_error item); [|done]. injection Hskip as <- <-.
    rewrite decide_True by done. unfold spawn_call. cbn.
    by destruct (command_of item).
  - injection Hskip as <- <-. rewrite decide_False; [done|].
    unfold has_input. congruence.
Qed.

Lemma skipped_none_input (w : World) (item : QueueItem) :
  skipped w item = None -> has_input w item.
Proof.
  unfold skipped, has_input. by destruct (existsSync w (filePath item)).
Qed.

Lemma spawns_app (l1 l2 : list Effect) : spawns (l1 ++ l2) = spawns l1 ++ spawns l2.
Proof. apply omap_app. Qed.

Lemma drained_shape (w : World) (st st' : State) (effs : list Effect) :
  drained w st st' effs ->
  isProcessing st = false ->
  activeJobs st < MAX_CONCURRENT_JOBS ->
  dispatched effs
  = leading_skipped w (transcriptionQueue st)
    ++ take 1 (after_skipped w (transcriptionQueue st))
  /\ transcriptionQueue st' = drop 1 (after_skipped w (transcriptionQueue st))
  /\ transcriptions st'
     = mark_skipped w (leading_skipped w (transcriptionQueue st)) (transcriptions st)
  /\ children st'
     = children st
       ++ (spawned_child <$> take 1 (after_skipped w (transcriptionQueue st)))
  /\ spawns effs = command_of <$> filter (has_input w) (dispatched effs)
  /\ (isProcessing st' = true <-> after_skipped w (transcriptionQueue st) <> [])
  /\ activeJobs st'
     = activeJobs st
       + Z.of_nat (length (take 1 (after_skipped w (transcriptionQueue st)))).
Proof.
  induction 1 as [st Hb | st item rest Hitem Hp Ha Hex
                     | st item rest r effs0 st' effs Hitem Hp Ha Hex Hd IH];
    intros Hidle Hact.
  - destruct Hb as [Hb | [Hb | Hb]]; [congruence | | lia].
    rewrite Hb. cbn. rewrite app_nil_r, Z.add_0_r.
    repeat split; try done. by intros Hp; rewrite Hp in Hidle.
  - rewrite Hitem. cbn [leading_skipped after_skipped]. rewrite Hex.
    change (dispatched [EDispatch item; spawn_call item]) with [item].
    rewrite filter_cons, filter_nil, decide_True by (by apply skipped_none_input).
    cbn. rewrite Z.add_1_r. unfold spawn_call.
    repeat split; try done. by destruct (command_of item).
  - specialize (IH eq_refl Hact). rewrite Hitem.
    cbn [leading_skipped after_skipped]. rewrite Hex.
    cbn [transcriptionQueue transcriptions children activeJobs] in IH.
    destruct IH as (IH1 & IH2 & IH3 & IH4 & IH5 & IH6 & IH7).
    assert (Hd0 : dispatched effs0 = []).
    { by destruct (skipped_effects _ _ _ _ Hex) as [-> | ->]. }
    change (dispatched (EDispatch item :: ?l)) with (item :: dispatched l).
    change (spawns (EDispatch item :: ?l)) with (spawns l).
    rewrite dispatched_app, Hd0, spawns_app, (skipped_spawns _ _ _ _ Hex), IH5.
    cbn [app]. rewrite IH1.
    split; [done|]. split; [done|]. split; [cbn; by rewrite Hex|].
    split; [done|]. split; [|done].
    rewrite <- fmap_app. f_equal.
    by rewrite <- (filter_app _ [item]).
Qed.

End DispatchLoopShape.

(** X2: what one call of [processQueue] does when the scheduler is free.  It
    takes off the queue the leading items that get no child (the input file
    is missing, or [spawn] throws), storing the failure entry of each in
    turn, and then the first item that gets a child; it stops there, busy
    if there is such an item and idle with an empty queue otherwise.
    [spawn] is called for every dispatched item whose input file exists,
    and the only child is that of the last one.  When the scheduler is not
    free the call changes nothing. *)
Theorem X2_dispatch_loop_shape `{RT : Runtime} (w : World) (st : State) :
  (isProcessing st = false -> activeJobs st < MAX_CONCURRENT_JOBS ->
   dispatched (processQueue w st).2
   = leading_skipped w (transcriptionQueue st)
     ++ take 1 (after_skipped w (transcriptionQueue st))
   /\ transcriptionQueue (processQueue w st).1
      = drop 1 (after_skipped w (transcriptionQueue st))
   /\ transcriptions (processQueue w st).1
      = mark_skipped w (leading_skipped w (transcriptionQueue st)) (transcriptions st)
   /\ children (processQueue w st).1
      = children st
        ++ (spawned_child <$> take 1 (after_skipped w (transcriptionQueue st)))
   /\ spawns (processQueue w st).2
      = command_of <$> filter (has_input w) (dispatched (processQueue w st).2)
   /\ (isProcessing (processQueue w st).1 = true
       <-> after_skipped w (transcriptionQueue st) <> []))
  /\ (isProcessing st = true \/ MAX_CONCURRENT_JOBS <= activeJobs st ->
      processQueue w st = (st, [])).
Proof.
  pose proof (processQueue_drained w st) as Hd. split.
  - intros Hp Ha.
    destruct (drained_shape w _ _ _ Hd Hp Ha) as (H1 & H2 & H3 & H4 & H5 & H6 & _).
    done.
  - intros Hbusy. unfold processQueue.
    destruct (processQueue_sync_case w st)
      as [Hb | item rest Hitem Hproc Hact Hex
             | item rest message Hitem Hproc Hact Hex Hspawn
             | item rest Hitem Hproc Hact Hex Hspawn].
    + by rewrite microtasks_idle.
    + destruct Hbusy; [congruence | lia].
    + destruct Hbusy; [congruence | lia].
    + destruct Hbusy; [congruence | lia].
Qed.

Lemma X2_dispatch_loop_shape_witness :
  dispatched (processQueue (RT := Example.runtime) three_items.1 three_items.2).2
  = [mkItem "/var/www/whisper-app/backend/uploads/100-a.mp3" "100" "medium" "en";
     mkItem "/var/www/whisper-app/backend/uploads/101-b.mp3" "101" "medium"
       ("e" +:+ String "000" "n");
     mkItem "/var/www/whisper-app/backend/uploads/102-c.mp3" "102" "medium" "en"]
  /\ transcriptions
       (processQueue (RT := Example.runtime) three_items.1 three_items.2).1 !! "101"
     = Some (JError "Failed to process file in queue"
               (Some ("The argument 'args[10]' must be a string without null bytes."
                      +:+ " Received 'e\x00n'"))).
Proof.
  destruct (X2_dispatch_loop_shape (RT := Example.runtime)
              three_items.1 three_items.2) as [Hfree _].
  destruct Hfree as (Hd & _ & Hreg & _); [reflexivity | reflexivity |].
  rewrite Hd, Hreg. vm_compute. done.
Defined.

(** ** The registry and the status endpoint *)

Section Registry.
Context `{RT : Runtime}.

Local Arguments holders_of : simpl never.

Lemma child_id_held (st : State) (i : nat) (c : Child) :
  children st !! i = Some c -> c_jobId c ∈ (holders st).*1.
Proof. intros Hc. eapply held_id_in. by eapply child_held. Qed.

Lemma download_id_held (st : State) (i : nat) (d : Download) :
  downloads st !! i = Some d -> d_jobId d ∈ (holders st).*1.
Proof. intros Hd. eapply held_id_in. by eapply download_held. Qed.

(** What a write at [k] looks like from [j]. *)
Lemma insert_touch (reg : gmap string JobRecord) (k j : string) (r : JobRecord)
    (P : Prop) :
  P ->
  <[k := r]> reg !! j = reg !! j
  \/ (is_Some (<[k := r]> reg !! j) /\ (j = k /\ P)).
Proof.
  intros HP. destruct (decide (k = j)) as [-> | Hne].
  - right. rewrite lookup_insert_eq. eauto.
  - left. by rewrite lookup_insert_ne.
Qed.

Lemma before_drain_touch (w : World) (a : Action) (st : State) (j : string) :
  (j ∈ (holders (before_drain w a st).1).*1 ->
   j ∈ (holders st).*1 \/ issued_id (w, a) = Some j)
  /\ (transcriptions (before_drain w a st).1 !! j = transcriptions st !! j
      \/ (is_Some (transcriptions (before_drain w a st).1 !! j)
          /\ (j ∈ (holders st).*1 \/ issued_id (w, a) = Some j)))
  /\ (issued_id (w, a) = Some j ->
      is_Some (transcriptions (before_drain w a st).1 !! j)).
Proof.
  destruct a as [[f|] m l | url m l info dl_now dl_throws | i dl tot | i pct
                | i msg | i | i msg | i msg | i code | i msg];
    cbn [before_drain step fst].
  - (* upload *)
    unfold holders, issued_id. cbn. split; [|split].
    + rewrite holders_of_push, fmap_cons, elem_of_cons. cbn.
      intros [-> | H]; [by right | by left].
    + destruct (insert_touch (transcriptions st) (toString (now w)) j
                  (JStarted (f_originalname f) (f_size f) (js_or m "medium")
                     (js_or l "en") (now w)) True I) as [Hsame | (Hsome & -> & _)];
        [by left | right; by split; [|right]].
    + intros [= <-]. rewrite lookup_insert_eq. eauto.
  - split; [by left|]. split; [by left | done].
  - (* remote reference *)
    unfold issued_id. cbn [fst snd]. unfold post_transcribe_youtube.
    destruct info as [videoDetails|];
      [|repeat (case_decide || case_match); by split; [left | split; [left|]]].
    destruct (decide (js_or url "" = "")); [by split; [left | split; [left|]]|].
    destruct (extractYoutubeVideoId (js_or url "")) as [videoId|];
      [|by split; [left | split; [left|]]].
    destruct (decide (videoId = "")); [by split; [left | split; [left|]]|].
    destruct (too_long (v_duration videoDetails));
      [by split; [left | split; [left|]]|].
    unfold holders.
    destruct dl_throws as [message|]; cbn; rewrite !insert_insert_eq;
      (split; [|split]).
    + by left.
    + match goal with |- context [<[?k := ?r]> _] =>
        destruct (insert_touch (transcriptions st) k j r True I)
          as [Hsame | (Hsome & -> & _)] end; [by left | right; by split; [|right]].
    + intros [= <-]. rewrite lookup_insert_eq. eauto.
    + rewrite holders_of_download_app, fmap_cons, elem_of_cons. cbn.
      intros [-> | H]; [by right | by left].
    + match goal with |- context [<[?k := ?r]> _] =>
        destruct (insert_touch (transcriptions st) k j r True I)
          as [Hsame | (Hsome & -> & _)] end; [by left | right; by split; [|right]].
    + intros [= <-]. rewrite lookup_insert_eq. eauto.
  - (* download progress *)
    destruct (downloads st !! i) as [d|] eqn:Hd; cbn [fst];
      [|by split; [left | split; [left|]]].
    unfold on_ytdl_progress. case_bool_decide; [|by split; [left | split; [left|]]].
    split; [by left|]. split; [|done]. cbn.
    match goal with |- context [<[?k := ?r]> _] =>
      destruct (insert_touch (transcriptions st) k j r True I)
        as [Hsame | (Hsome & -> & _)] end; [by left | right].
    split; [done|]. left. by eapply download_id_held.
  - (* conversion progress *)
    destruct (downloads st !! i) as [d|] eqn:Hd; cbn [fst];
      [|by split; [left | split; [left|]]].
    unfold on_ffmpeg_progress.
    destruct pct as [x|]; [|by split; [left | split; [left|]]].
    destruct (truthy_double x); [|by split; [left | split; [left|]]].
    split; [by left|]. split; [|done]. cbn.
    match goal with |- context [<[?k := ?r]> _] =>
      destruct (insert_touch (transcriptions st) k j r True I)
        as [Hsame | (Hsome & -> & _)] end; [by left | right].
    split; [done|]. left. by eapply download_id_held.
  - (* conversion error *)
    destruct (downloads st !! i) as [d|] eqn:Hd; cbn [fst];
      [|by split; [left | split; [left|]]].
    destruct (d_failed d) eqn:Hf; [by split; [left | split; [left|]]|].
    split; [|split; [|done]].
    + unfold holders. cbn.
      rewrite (holders_of_download_insert _ _ (downloads st) i d _ Hd), fmap_cons.
      rewrite (holders_of_download_delete _ _ (downloads st) i d Hd), fmap_cons.
      cbn. intros H. by left.
    + cbn.
      match goal with |- context [<[?k := ?r]> _] =>
        destruct (insert_touch (transcriptions st) k j r True I)
          as [Hsame | (Hsome & -> & _)] end; [by left | right].
      split; [done|]. left. by eapply download_id_held.
  - (* conversion end *)
    destruct (downloads st !! i) as [d|] eqn:Hd; cbn [fst];
      [|by split; [left | split; [left|]]].
    destruct (d_failed d) eqn:Hf; [by split; [left | split; [left|]]|].
    split; [|split; [by left | done]].
    unfold holders. cbn.
    rewrite holders_of_push, fmap_cons.
    rewrite (holders_of_download_delete _ _ (downloads st) i d Hd), fmap_cons.
    cbn. intros H. by left.
  - (* stdout *)
    destruct (children st !! i) as [c|] eqn:Hc; cbn [fst];
      [|by split; [left | split; [left|]]].
    destruct (c_settled c) eqn:Hs; [by split; [left | split; [left|]]|].
    cbn. split; [|split; [|done]].
    + unfold holders. cbn.
      rewrite (holders_of_child_insert _ (children st) _ i c _ Hc), fmap_cons.
      rewrite (holders_of_child_delete _ (children st) _ i c Hc), fmap_cons.
      cbn. intros H. by left.
    + match goal with |- context [<[?k := ?r]> _] =>
        destruct (insert_touch (transcriptions st) k j r True I)
          as [Hsame | (Hsome & -> & _)] end; [by left | right].
      split; [done|]. left. by eapply child_id_held.
  - (* stderr *)
    destruct (children st !! i) as [c|] eqn:Hc; cbn [fst];
      [|by split; [left | split; [left|]]].
    destruct (c_settled c) eqn:Hs; [by split; [left | split; [left|]]|].
    cbn. split; [|split; [by left | done]].
    unfold holders. cbn.
    rewrite (holders_of_child_insert _ (children st) _ i c _ Hc), fmap_cons.
    rewrite (holders_of_child_delete _ (children st) _ i c Hc), fmap_cons.
    cbn. intros H. by left.
  - (* close *)
    destruct (children st !! i) as [c|] eqn:Hc; cbn [fst];
      [|by split; [left | split; [left|]]].
    assert (Hgoal : forall r',
      (j ∈ (holders_of (transcriptionQueue st) (delete i (children st))
              (downloads st)).*1 ->
       j ∈ (holders st).*1 \/ issued_id (w, ChildClose i code) = Some j)
      /\ (<[c_jobId c := r']> (transcriptions st) !! j = transcriptions st !! j
          \/ (is_Some (<[c_jobId c := r']> (transcriptions st) !! j)
              /\ (j ∈ (holders st).*1 \/ issued_id (w, ChildClose i code) = Some j)))
      /\ (issued_id (w, ChildClose i code) = Some j ->
          is_Some (<[c_jobId c := r']> (transcriptions st) !! j))).
    { intros r'. split; [|split; [|done]].
      - unfold holders.
        rewrite (holders_of_child_delete _ (children st) _ i c Hc), fmap_cons.
        intros H. left. by right.
      - destruct (insert_touch (transcriptions st) (c_jobId c) j r' True I)
          as [Hsame | (Hsome & -> & _)]; [by left | right].
        split; [done|]. left. by eapply child_id_held. }
    unfold on_close, holders.
    destruct (existsSync w (txtFile_of (c_inputPath c)));
      destruct (c_settled c); cbn; rewrite ?insert_insert_eq;
      by apply Hgoal.
  - (* error *)
    destruct (children st !! i) as [c|] eqn:Hc; cbn [fst];
      [|by split; [left | split; [left|]]].
    destruct (c_settled c) eqn:Hs; [by split; [left | split; [left|]]|].
    cbn. rewrite insert_insert_eq. split; [|split; [|done]].
    + unfold holders. cbn.
      rewrite (holders_of_child_insert _ (children st) _ i c _ Hc), fmap_cons.
      rewrite (holders_of_child_delete _ (children st) _ i c Hc), fmap_cons.
      cbn. intros H. by left.
    + match goal with |- context [<[?k := ?r]> _] =>
        destruct (insert_touch (transcriptions st) k j r True I)
          as [Hsame | (Hsome & -> & _)] end; [by left | right].
      split; [done|]. left. by eapply child_id_held.
Qed.

Lemma drained_touch (w : World) (st st' : State) (effs : list Effect) (j : string) :
  drained w st st' effs ->
  (j ∈ (holders st').*1 -> j ∈ (holders st).*1)
  /\ (transcriptions st' !! j = transcriptions st !! j
      \/ (is_Some (transcriptions st' !! j) /\ j ∈ (holders st).*1)).
Proof.
  intros Hd. split.
  - induction Hd as [st Hb | st item rest Hitem Hp Ha Hex
                       | st item rest r effs0 st' effs Hitem Hp Ha Hex Hd IH];
      [done | |].
    + unfold holders. cbn. rewrite Hitem.
      rewrite holders_of_child_app, fmap_cons. cbn. done.
    + intros H. apply IH in H. unfold holders in *. cbn in H. rewrite Hitem.
      cbn. by right.
  - destruct (drained_registry w st st' effs Hd j)
      as [Heq | (item & r & effs0 & Hin & <- & _ & Hlook)]; [by left | right].
    split; [rewrite Hlook; eauto|].
    apply (drained_dispatched_queued _ _ _ _ _ Hd) in Hin.
    unfold holders, holders_of. rewrite fmap_app, elem_of_app. left.
    rewrite <- list_fmap_compose. apply list_elem_of_fmap. by exists item.
Qed.

Lemma step_known (w : World) (a : Action) (st : State) :
  known st ->
  known (step w a st).1
  /\ registry_step (issued_id (w, a)) (transcriptions st)
       (transcriptions (step w a st).1).
Proof.
  intros Hk.
  assert (Hmid : known (before_drain w a st).1
                 /\ registry_step (issued_id (w, a)) (transcriptions st)
                      (transcriptions (before_drain w a st).1)).
  { split.
    - intros j Hj. destruct (before_drain_touch w a st j) as (Hh & Hr & Hi).
      destruct (Hh Hj) as [Hold | Hnew]; [|by apply Hi].
      destruct Hr as [-> | [Hs _]]; [by apply Hk | done].
    - intros j. destruct (before_drain_touch w a st j) as (Hh & Hr & Hi).
      split; [|split; [|done]].
      + intros Hs. destruct Hr as [-> | [Hs' _]]; done.
      + intros Hnone Hnew. destruct Hr as [-> | [_ [Hin | Heq]]]; [done | |].
        * apply Hk in Hin. rewrite Hnone in Hin. by destruct Hin.
        * by destruct Hnew. }
  destruct Hmid as [Hk1 Hr1].
  destruct (step_drained w a st) as [_ Hd].
  destruct (before_drain w a st).2; [|by destruct Hd as [-> _]].
  destruct Hd as (effs & Hd & _). split.
  - intros j Hj. destruct (drained_touch w _ _ effs j Hd) as [Hh Hr].
    apply Hh in Hj. destruct Hr as [-> | [Hs _]]; [by apply Hk1 | done].
  - intros j. destruct (drained_touch w _ _ effs j Hd) as [Hh Hr].
    destruct (Hr1 j) as (Hs1 & Hn1 & Hi1). split; [|split].
    + intros Hs. apply Hs1 in Hs. destruct Hr as [-> | [Hs' _]]; done.
    + intros Hnone Hnew. destruct Hr as [-> | [_ Hin]]; [by apply Hn1|].
      apply Hk1 in Hin. rewrite (Hn1 Hnone Hnew) in Hin. by destruct Hin.
    + intros Hnew. apply Hi1 in Hnew. destruct Hr as [-> | [Hs' _]]; done.
Qed.

Lemma known_init : known init.
Proof. intros j Hj. by apply elem_of_nil in Hj. Qed.

(** From the start, the ids with an entry are the ids handed out. *)
Lemma run_known (evs : list (World * Action)) :
  forall st,
    known st ->
    known (run evs st).1
    /\ forall j,
         is_Some (transcriptions (run evs st).1 !! j)
         <-> is_Some (transcriptions st !! j) \/ j ∈ issued_ids evs.
Proof.
  induction evs as [|[w a] evs IH]; intros st Hk.
  { split; [done|]. intros j. cbn. rewrite elem_of_nil. tauto. }
  rewrite run_cons. cbn [fst].
  destruct (step_known w a st Hk) as [Hk1 Hr1].
  destruct (IH _ Hk1) as [Hk2 Hiff]. split; [done|].
  intros j. rewrite Hiff, issued_ids_cons.
  destruct (Hr1 j) as (Hs & Hn & Hi).
  destruct (issued_id (w, a)) as [k|] eqn:Hid.
  - rewrite elem_of_cons. split.
    + intros [H | H]; [|by right; right].
      destruct (transcriptions st !! j) eqn:Hj; [left; eauto|].
      destruct (decide (k = j)) as [-> | Hne]; [right; by left|].
      rewrite Hn in H; [by destruct H | done | congruence].
    + intros [H | [-> | H]]; [left; by apply Hs | left; by apply Hi | by right].
  - split.
    + intros [H | H]; [|by right].
      destruct (transcriptions st !! j) eqn:Hj; [left; eauto|].
      rewrite Hn in H; [by destruct H | done | done].
    + intros [H | H]; [left; by apply Hs | by right].
Qed.

End Registry.

Section Endpoints.
Context `{RT : Runtime}.

Lemma issued_iff_entry (evs : list (World * Action)) (j : string) :
  is_Some (transcriptions (run evs init).1 !! j) <-> j ∈ issued_ids evs.
Proof.
  destruct (run_known evs init known_init) as [_ Hiff]. rewrite Hiff.
  cbn. rewrite lookup_empty. split; [|by right].
  intros [H | H]; [by destruct H | done].
Qed.

Lemma registry_size (evs : list (World * Action)) :
  size (transcriptions (run evs init).1) = length (remove_dups (issued_ids evs)).
Proof.
  rewrite <- size_dom.
  rewrite <- (size_list_to_set (C := gset string) (remove_dups (issued_ids evs)))
    by apply NoDup_remove_dups.
  f_equal. apply set_eq. intros j.
  rewrite elem_of_dom, elem_of_list_to_set, elem_of_remove_dups.
  apply issued_iff_entry.
Qed.

End Endpoints.

(** X3: the status endpoint knows exactly the job ids that were handed out.
    After any run from the start, GET /api/status/:jobId answers 200 with the
    entry when [jobId] was given to an accepted submission of the run, and
    404 "Job not found" otherwise; so an id that was valid once is never
    answered with 404 later, and an id that was never issued is never
    answered with an entry. *)
Theorem X3_status_knows_exactly_issued_ids `{RT : Runtime}
    (evs : list (World * Action)) (jobId : string) :
  (jobId ∈ issued_ids evs ->
   exists entry, get_status jobId (run evs init).1 = (200, SJob entry))
  /\ (jobId ∉ issued_ids evs ->
      get_status jobId (run evs init).1 = (404, SNotFound "Job not found")).
Proof.
  unfold get_status. split; intros Hj.
  - apply issued_iff_entry in Hj as [entry ->]. by exists entry.
  - destruct (transcriptions (run evs init).1 !! jobId) as [entry|] eqn:He; [|done].
    exfalso. apply Hj, issued_iff_entry. eauto.
Qed.

Lemma X3_status_knows_exactly_issued_ids_witness :
  (exists entry,
     get_status "101" (run (RT := Example.runtime) two_uploads_then_close init).1
     = (200, SJob entry))
  /\ get_status "7" (run (RT := Example.runtime) two_uploads_then_close init).1
     = (404, SNotFound "Job not found").
Proof.
  split.
  - apply (X3_status_knows_exactly_issued_ids (RT := Example.runtime)
             two_uploads_then_close "101"). by_computation.
  - apply (X3_status_knows_exactly_issued_ids (RT := Example.runtime)
             two_uploads_then_close "7"). by_computation.
Defined.

(** X4: what GET /api/queue reports, after any run from the start.  The
    number of registry entries is the number of distinct job ids handed out
    (entries are never removed, and ids handed out twice share one entry);
    the queue length is the number of pushes minus the number of
    dispatches; and [activeJobs] is 1 when [isProcessing] is set and 0
    otherwise. *)
Theorem X4_queue_report `{RT : Runtime} (evs : list (World * Action)) :
  activeTranscriptions (get_queue (run evs init).1)
  = length (remove_dups (issued_ids evs))
  /\ (queueLength (get_queue (run evs init).1)
      + length (dispatched (run evs init).2))%nat
     = length (pushed (run evs init).2)
  /\ stats_activeJobs (get_queue (run evs init).1)
     = (if stats_isProcessing (get_queue (run evs init).1) then 1 else 0).
Proof.
  unfold get_queue. cbn. split; [apply registry_size|]. split.
  - pose proof (run_queue evs init) as Hq. cbn [transcriptionQueue init app] in Hq.
    rewrite <- Hq, length_app. lia.
  - assert (Hr : reachable (run evs init).1) by by exists evs.
    apply reachable_sched_inv in Hr.
    destruct Hr as [(Hp & Ha & _) | (Hp & Ha & _)]; by rewrite Hp, Ha.
Qed.

(** ** Answers to submissions *)

Section Answers.
Context `{RT : Runtime}.

Lemma responses_app (l1 l2 : list Effect) :
  responses (l1 ++ l2) = responses l1 ++ responses l2.
Proof. apply omap_app. Qed.

Lemma processQueue_sync_responses (w : World) (st : State) :
  responses (processQueue_sync w st).2 = [].
Proof. by destruct (processQueue_sync_case w st). Qed.

Lemma await_loop_responses (w : World) (fuel : nat) :
  forall (a : Awaiting) (st : State), responses (await_loop fuel w a st).2 = [].
Proof.
  induction fuel as [|fuel IH]; intros [[jobId [p|]]|] st; try done.
  cbn [await_loop].
  pose proof (processQueue_sync_responses w (processQueue_resume jobId p st)) as Hs.
  destruct (processQueue_sync w (processQueue_resume jobId p st)) as [[st1 a'] effs].
  specialize (IH a' st1). destruct (await_loop fuel w a' st1) as [st2 effs'].
  cbn [fst snd] in *. by rewrite responses_app, Hs, IH.
Qed.

Lemma post_transcribe_responses (w : World) (f : UploadedFile)
    (m l : option string) (st : State) :
  responses (post_transcribe w (Some f) m l st).2
  = [(200, RJob (toString (now w))
             (length (transcriptionQueue
                (processQueue_sync w
                   (set_queue
                      (transcriptionQueue st
                       ++ [mkItem (f_path f) (toString (now w))
                             (js_or m "medium") (js_or l "en")])
                      (record_job (toString (now w))
                         (JStarted (f_originalname f) (f_size f)
                            (js_or m "medium") (js_or l "en") (now w)) st))).1.1)))].
Proof.
  unfold post_transcribe. cbn [transcriptionQueue record_job set_transcriptions].
  match goal with |- context [processQueue_sync w ?s] =>
    pose proof (processQueue_sync_responses w s) as Hs;
    destruct (processQueue_sync w s) as [[st3 a] effs] end.
  pose proof (await_loop_responses w (S (length (transcriptionQueue st3))) a st3) as Hm.
  fold (microtasks w a st3) in Hm.
  destruct (microtasks w a st3) as [st4 effs']. cbn [fst snd] in *.
  change (responses (EPush ?i :: ?l)) with (responses l).
  rewrite responses_app, Hs.
  change (responses (ERespond ?c ?b :: ?l)) with ((c, b) :: responses l).
  by rewrite Hm.
Qed.

End Answers.

(** X5: the answer to an upload, in a reachable state.  The handler answers
    once, with status 200, the clock reading as job id, and as position the
    number of jobs waiting once the upload is handled: 0 when the scheduler
    was idle (the job is dispatched at once), and one more than the jobs
    already waiting when it was busy.  A request without a file is answered
    400 and changes nothing. *)
Theorem X5_upload_answer `{RT : Runtime} (w : World) (f : UploadedFile)
    (m l : option string) (st : State) :
  reachable st ->
  responses (step w (PostTranscribe (Some f) m l) st).2
  = [(200, RJob (toString (now w))
             (if isProcessing st then S (length (transcriptionQueue st)) else 0%nat))]
  /\ length (transcriptionQueue (step w (PostTranscribe (Some f) m l) st).1)
     = (if isProcessing st then S (length (transcriptionQueue st)) else 0%nat)
  /\ step w (PostTranscribe None m l) st
     = (st, [ERespond 400 (RError "No audio file provided")]).
Proof.
  intros Hr.
  pose proof (reachable_idle_queue_empty st Hr) as Hidle.
  pose proof (reachable_sched_inv st Hr) as Hinv.
  split; [|split; [|reflexivity]].
  - cbn [step]. rewrite post_transcribe_responses.
    match goal with |- context [processQueue_sync w ?s] =>
      destruct (processQueue_sync_case w s)
        as [Hb | item rest Hitem Hproc Hact Hex
               | item rest message Hitem Hproc Hact Hex Hspawn
               | item rest Hitem Hproc Hact Hex Hspawn] end;
      cbn [fst snd transcriptionQueue set_queue record_job set_transcriptions
           isProcessing] in *.
    + unfold blocked in Hb. cbn in Hb. destruct Hb as [Hb | [Hb | Hb]].
      * rewrite Hb, length_app. cbn. by rewrite Nat.add_1_r.
      * by destruct (transcriptionQueue st).
      * destruct Hinv as [(Hp & Ha & _) | (Hp & Ha & _)];
          [unfold MAX_CONCURRENT_JOBS in Hb; lia|].
        rewrite Hp, length_app. cbn. by rewrite Nat.add_1_r.
    + rewrite Hproc. rewrite (Hidle Hproc) in Hitem. by injection Hitem as <- <-.
    + rewrite Hproc. rewrite (Hidle Hproc) in Hitem. by injection Hitem as <- <-.
    + rewrite Hproc. rewrite (Hidle Hproc) in Hitem. by injection Hitem as <- <-.
  - destruct (step_drained w (PostTranscribe (Some f) m l) st) as [_ Hd].
    cbn [before_drain fst snd] in Hd. destruct Hd as (effs & Hd & _).
    destruct (isProcessing st) eqn:Hp.
    + apply drained_busy in Hd as [-> _]; [|done].
      cbn. rewrite length_app. cbn. by rewrite Nat.add_1_r.
    + apply drained_shape in Hd as (_ & -> & _).
      * cbn [transcriptionQueue set_queue record_job set_transcriptions].
        rewrite (Hidle eq_refl). cbn [app after_skipped].
        by destruct (skipped w _).
      * done.
      * destruct Hinv as [(_ & Ha & _) | (Hp' & _)]; [|congruence].
        cbn. rewrite Ha. done.
Qed.

Lemma X5_upload_answer_witness :
  responses
    (step (RT := Example.runtime) (Example.world 101 uploads_on_disk)
       (PostTranscribe (Some upload_b) None None)
       (run (RT := Example.runtime) (take 1 two_uploads_then_close) init).1).2
  = [(200, RJob "101" 1)].
Proof.
  destruct (X5_upload_answer (RT := Example.runtime)
              (Example.world 101 uploads_on_disk) upload_b None None
              (run (RT := Example.runtime) (take 1 two_uploads_then_close) init).1)
    as [Hanswer _].
  - exists (take 1 two_uploads_then_close). reflexivity.
  - rewrite Hanswer. vm_compute. reflexivity.
Defined.

(** ** No job is dispatched twice *)

Section Once.
Context `{RT : Runtime}.

Lemma submseteq_NoDup {A} (l k : list A) : l ⊆+ k -> NoDup k -> NoDup l.
Proof.
  intros Hsub Hnd. apply submseteq_Permutation in Hsub as [k' Hk].
  rewrite Hk in Hnd. by apply NoDup_app in Hnd as [? _].
Qed.

(** What a callback pushes and what becomes of the downloads. *)
Lemma before_drain_inbound (w : World) (a : Action) (st : State) :
  exists X,
    transcriptionQueue (before_drain w a st).1 = transcriptionQueue st ++ X
    /\ (q_jobId <$> X) ++ (d_jobId <$> downloads (before_drain w a st).1)
       ⊆+ option_list (issued_id (w, a)) ++ (d_jobId <$> downloads st).
Proof.
  assert (Hsame : forall o : option string,
            (q_jobId <$> []) ++ (d_jobId <$> downloads st)
            ⊆+ option_list o ++ (d_jobId <$> downloads st)).
  { intros o. cbn. by apply submseteq_inserts_l. }
  destruct a as [[f|] m l | url m l info dl_now dl_throws | i dl tot | i pct
                | i msg | i | i msg | i msg | i code | i msg];
    cbn [before_drain step fst].
  - eexists [_]. split; [reflexivity|]. done.
  - exists []. by rewrite app_nil_r.
  - exists []. rewrite app_nil_r. unfold issued_id. cbn [fst snd].
    unfold post_transcribe_youtube.
    destruct info as [videoDetails|];
      [|repeat (case_decide || case_match); by split].
    destruct (decide (js_or url "" = "")); [by split|].
    destruct (extractYoutubeVideoId (js_or url "")) as [videoId|]; [|by split].
    destruct (decide (videoId = "")); [by split|].
    destruct (too_long (v_duration videoDetails)); [by split|].
    destruct dl_throws as [message|]; cbn; (split; [done|]).
    + by apply submseteq_inserts_l with (k := [_]).
    + rewrite fmap_app. cbn. apply Permutation_submseteq.
      by rewrite <- Permutation_cons_append.
  - exists []. rewrite app_nil_r.
    destruct (downloads st !! i); [unfold on_ytdl_progress; case_bool_decide|];
      by split.
  - exists []. rewrite app_nil_r.
    destruct (downloads st !! i);
      [unfold on_ffmpeg_progress; repeat case_match|]; by split.
  - exists []. rewrite app_nil_r.
    destruct (downloads st !! i) as [d|] eqn:Hd; [|by split].
    destruct (d_failed d); [by split|].
    split; [done|]. cbn. rewrite list_fmap_insert. cbn.
    rewrite list_insert_id; [done|]. by rewrite list_lookup_fmap, Hd.
  - destruct (downloads st !! i) as [d|] eqn:Hd;
      [|exists []; rewrite app_nil_r; by split].
    destruct (d_failed d); [exists []; rewrite app_nil_r; by split|].
    eexists [_]. split; [reflexivity|]. cbn.
    apply Permutation_submseteq.
    by rewrite (delete_Permutation (downloads st) i d Hd) at 2.
  - exists []. rewrite app_nil_r.
    destruct (children st !! i) as [c|]; [destruct (c_settled c)|]; by split.
  - exists []. rewrite app_nil_r.
    destruct (children st !! i) as [c|]; [destruct (c_settled c)|]; by split.
  - exists []. rewrite app_nil_r.
    destruct (children st !! i) as [c|]; [|by split].
    unfold on_close. destruct (existsSync w _); destruct (c_settled c); by split.
  - exists []. rewrite app_nil_r.
    destruct (children st !! i) as [c|]; [destruct (c_settled c)|]; by split.
Qed.

Lemma step_inbound (w : World) (a : Action) (st : State) :
  (q_jobId <$> pushed (step w a st).2) ++ (d_jobId <$> downloads (step w a st).1)
  ⊆+ option_list (issued_id (w, a)) ++ (d_jobId <$> downloads st).
Proof.
  destruct (before_drain_inbound w a st) as (X & HX & Hsub).
  destruct (step_drained w a st) as [Hq Hd].
  rewrite HX in Hq. apply app_inv_head in Hq as ->.
  destruct (before_drain w a st).2.
  - destruct Hd as (effs & Hd & _).
    by rewrite (drained_downloads _ _ _ _ Hd).
  - by destruct Hd as [-> _].
Qed.

Lemma step_inbound_inv (w : World) (a : Action) (st : State) (log : list Effect) :
  inbound_inv log st ->
  (forall j, issued_id (w, a) = Some j -> transcriptions st !! j = None) ->
  inbound_inv (log ++ (step w a st).2) (step w a st).1.
Proof.
  intros (Hk & Hnd & Hsome) Hfresh.
  destruct (step_known w a st Hk) as [Hk' Hreg].
  assert (Hsub : inbound_ids (log ++ (step w a st).2) (step w a st).1
                 ⊆+ option_list (issued_id (w, a)) ++ inbound_ids log st).
  { unfold inbound_ids. rewrite pushed_app, fmap_app, <- app_assoc.
    rewrite (Permutation_app_swap_app (option_list _)).
    apply submseteq_skips_l, step_inbound. }
  split; [done|]. split.
  - eapply submseteq_NoDup; [exact Hsub|].
    destruct (issued_id (w, a)) as [k|]; [|done]. cbn.
    apply NoDup_cons. split; [|done].
    intros Hin. apply Hsome in Hin. rewrite (Hfresh k eq_refl) in Hin.
    by destruct Hin.
  - intros j Hj. eapply elem_of_submseteq in Hj; [|exact Hsub].
    destruct (Hreg j) as (Hs & _ & Hi).
    apply elem_of_app in Hj as [Hj | Hj]; [|by apply Hs, Hsome].
    destruct (issued_id (w, a)) as [k|]; [|by apply elem_of_nil in Hj].
    apply list_elem_of_singleton in Hj as ->. by apply Hi.
Qed.

Lemma run_inbound_inv (evs : list (World * Action)) :
  forall (log : list Effect) (st : State),
    inbound_inv log st ->
    NoDup (issued_ids evs) ->
    (forall j, j ∈ issued_ids evs -> transcriptions st !! j = None) ->
    inbound_inv (log ++ (run evs st).2) (run evs st).1.
Proof.
  induction evs as [|[w a] evs IH]; intros log st Hinv Hnd Hfresh.
  { cbn. by rewrite app_nil_r. }
  rewrite run_cons. cbn [fst snd]. rewrite app_assoc.
  rewrite issued_ids_cons in Hnd, Hfresh.
  destruct Hinv as (Hk & Hinv).
  destruct (step_known w a st Hk) as [_ Hreg].
  apply IH.
  - apply step_inbound_inv; [by split|].
    intros j Hj. apply Hfresh. rewrite Hj. by left.
  - destruct (issued_id (w, a)); [by apply NoDup_cons in Hnd as [_ ?] | done].
  - intros j Hj. destruct (Hreg j) as (_ & Hnone & _). apply Hnone.
    + apply Hfresh. destruct (issued_id (w, a)); [by right | done].
    + intros Heq. rewrite Heq in Hnd. by apply NoDup_cons in Hnd as [? _].
Qed.

End Once.

(** X6: no job is dispatched twice.  Over a run from the start in which no
    two accepted submissions were given the same job id, [transcribeAudio]
    is called at most once per job id, and every job id is pushed on the
    queue at most once. *)
Theorem X6_no_job_dispatched_twice `{RT : Runtime} (evs : list (World * Action)) :
  NoDup (issued_ids evs) ->
  NoDup (q_jobId <$> dispatched (run evs init).2)
  /\ NoDup (q_jobId <$> pushed (run evs init).2).
Proof.
  intros Hnd.
  destruct (run_inbound_inv evs [] init) as (_ & Hin & _); [|done|done|].
  { split; [apply known_init|]. split; [constructor|].
    intros j Hj. by apply elem_of_nil in Hj. }
  cbn [app] in Hin. unfold inbound_ids in Hin.
  apply NoDup_app in Hin as [Hpushed _]. split; [|done].
  pose proof (run_queue evs init) as Hq. cbn [transcriptionQueue init app] in Hq.
  rewrite <- Hq, fmap_app in Hpushed. by apply NoDup_app in Hpushed as [? _].
Qed.

Lemma X6_no_job_dispatched_twice_witness :
  NoDup (q_jobId <$> dispatched
           (run (RT := Example.runtime) two_uploads_then_close init).2).
Proof.
  apply (X6_no_job_dispatched_twice (RT := Example.runtime) two_uploads_then_close).
  by_computation.
Defined.

(** ** What a completed entry holds *)

Section Entries.
Context `{RT : Runtime}.

Lemma read_segments_truthy (w : World) (jsonFile : string) :
  truthy_json (read_segments w jsonFile) = true.
Proof.
  unfold read_segments. destruct (existsSync w jsonFile); [|done].
  destruct (JSON_parse (readFileSync w jsonFile)) as [[| | | | |fields]|]; try done.
  cbn. destruct (get_field "segments" fields) as [v|]; [|done].
  cbn. by destruct (truthy_json v) eqn:Hv.
Qed.

Lemma on_close_good (w : World) (code : option Z) (c : Child) (st : State) :
  c_validModel c ∈ model_ids ->
  map_Forall (fun _ r => good_entry r) (transcriptions st) ->
  map_Forall (fun _ r => good_entry r) (transcriptions (on_close w code c st).1).
Proof.
  intros Hm Hreg. unfold on_close.
  destruct (existsSync w (txtFile_of (c_inputPath c))); cbn;
    apply map_Forall_insert_2; try done.
  split; [done|]. split; [by case_decide|].
  apply read_segments_truthy.
Qed.

Lemma drained_entries (w : World) (st st' : State) (effs : list Effect) :
  drained w st st' effs -> entries_inv st -> entries_inv st'.
Proof.
  induction 1 as [st Hb | st item rest Hitem Hp Ha Hex
                     | st item rest r effs0 st' effs Hitem Hp Ha Hex Hd IH];
    intros [Hc Hr]; [done | |].
  - split; [|done]. cbn. apply Forall_app. split; [done|].
    apply Forall_singleton. cbn. apply validModel_of_valid.
  - apply IH. split; [done|]. cbn. apply map_Forall_insert_2; [|done].
    by apply skipped_record in Hex as (msg & details & ->).
Qed.

Lemma before_drain_entries (w : World) (a : Action) (st : State) :
  entries_inv st -> entries_inv (before_drain w a st).1.
Proof.
  intros [Hc Hr].
  destruct a as [[f|] m l | url m l info dl_now dl_throws | i dl tot | i pct
                | i msg | i | i msg | i msg | i code | i msg];
    cbn [before_drain step fst].
  - split; [done|]. cbn. by apply map_Forall_insert_2.
  - done.
  - unfold post_transcribe_youtube.
    repeat (case_decide || case_match); try done;
      (split; [done|]); cbn; rewrite !insert_insert_eq;
      by apply map_Forall_insert_2.
  - destruct (downloads st !! i); [unfold on_ytdl_progress; case_bool_decide|];
      try done; (split; [done|]); cbn; by apply map_Forall_insert_2.
  - destruct (downloads st !! i);
      [unfold on_ffmpeg_progress; repeat case_match|]; try done;
      (split; [done|]); cbn; by apply map_Forall_insert_2.
  - destruct (downloads st !! i) as [d|]; [|done].
    destruct (d_failed d); [done|].
    split; [done|]. cbn. by apply map_Forall_insert_2.
  - destruct (downloads st !! i) as [d|]; [destruct (d_failed d)|]; done.
  - destruct (children st !! i) as [c|] eqn:Hi; [|done].
    destruct (c_settled c); [done|]. cbn. split.
    + apply Forall_insert; [done|]. cbn. by eapply (Forall_lookup_1 _ _ _ _ Hc).
    + by apply map_Forall_insert_2.
  - destruct (children st !! i) as [c|] eqn:Hi; [|done].
    destruct (c_settled c); [done|]. cbn. split; [|done].
    apply Forall_insert; [done|]. cbn. by eapply (Forall_lookup_1 _ _ _ _ Hc).
  - destruct (children st !! i) as [c|] eqn:Hi; [|done].
    pose proof (Forall_lookup_1 _ _ _ _ Hc Hi) as Hm. cbn beta in Hm.
    pose proof (on_close_good w code c
                  (set_children (delete i (children st)) st) Hm Hr) as Hgood.
    assert (Hch : children (on_close w code c
                              (set_children (delete i (children st)) st)).1
                  = delete i (children st)).
    { unfold on_close. by destruct (existsSync w _). }
    destruct (on_close w code c _) as [st1 p]. cbn [fst] in *.
    destruct (c_settled c); cbn [fst].
    + split; [|done]. rewrite Hch. by apply Forall_delete.
    + destruct p;
        unfold processQueue_resume, set_isProcessing, record_job,
          set_transcriptions, set_activeJobs; cbn;
        (split; [rewrite Hch; by apply Forall_delete|]);
        [done | by apply map_Forall_insert_2].
  - destruct (children st !! i) as [c|] eqn:Hi; [|done].
    destruct (c_settled c); [done|]. cbn. split.
    + apply Forall_insert; [done|]. cbn. by eapply (Forall_lookup_1 _ _ _ _ Hc).
    + by repeat apply map_Forall_insert_2.
Qed.

Lemma reachable_entries (st : State) : reachable st -> entries_inv st.
Proof.
  intros [evs ->].
  assert (H : forall st, entries_inv st -> entries_inv (run evs st).1).
  { induction evs as [|[w a] evs IH]; intros st Hinv; [done|].
    rewrite run_cons. cbn [fst]. apply IH.
    apply (before_drain_entries w a) in Hinv.
    destruct (step_drained w a st) as [_ Hd].
    destruct (before_drain w a st).2.
    - destruct Hd as (effs & Hd & _). by eapply drained_entries.
    - by destruct Hd as [-> _]. }
  apply H. split; [constructor | apply map_Forall_empty].
Qed.

End Entries.

(** X7: what a completed entry holds.  In every reachable state, a
    completed entry names a model of [AVAILABLE_MODELS] (the validated one
    the engine was run with, not the raw request), a language that is not
    empty ("auto" stands for an empty one), and a segments value that is
    truthy (the empty list when the segments file gave nothing usable). *)
Theorem X7_completed_entry_fields `{RT : Runtime} (st : State) (jobId : string)
    (transcription : string) (segments : json)
    (model language inputFile txt : string) (json_file : option string)
    (completedAt : Z) :
  reachable st ->
  transcriptions st !! jobId
  = Some (JCompleted transcription segments model language inputFile txt
            json_file completedAt) ->
  model ∈ model_ids /\ language <> "" /\ truthy_json segments = true.
Proof.
  intros Hr Hentry. destruct (reachable_entries st Hr) as [_ Hreg].
  apply (Hreg _ _ Hentry).
Qed.

Lemma X7_completed_entry_fields_witness :
  "medium" ∈ model_ids /\ "en" <> "" /\ truthy_json (JArr []) = true.
Proof.
  apply (X7_completed_entry_fields (RT := Example.runtime)
           (run (RT := Example.runtime) quiet_success init).1 "100"
           "hello world" (JArr []) "medium" "en" "100-a.mp3" "100-a.txt" None 200).
  - exists quiet_success. reflexivity.
  - vm_compute. reflexivity.
Defined.

(** X11: the first record of a remote job is never seen.  The
    remote-reference handler stores a ['started'] record with the video
    title and details and overwrites it within the same callback, so in
    every reachable state no entry is that record: an entry that is
    ['started'] is the record of an upload. *)
Theorem X11_remote_started_record_never_visible `{RT : Runtime}
    (st : State) (jobId : string) (r : JobRecord) :
  reachable st ->
  transcriptions st !! jobId = Some r ->
  status r = started ->
  exists filename filesize model language startedAt,
    r = JStarted filename filesize model language startedAt.
Proof.
  intros Hr Hentry Hstatus. destruct (reachable_entries st Hr) as [_ Hreg].
  specialize (Hreg _ _ Hentry). destruct r; try done. by do 5 eexists.
Qed.

Lemma X11_remote_started_record_never_visible_witness :
  exists filename filesize model language startedAt,
    JStarted "b.mp3" 20 "medium" "en" 101
    = JStarted filename filesize model language startedAt.
Proof.
  apply (X11_remote_started_record_never_visible (RT := Example.runtime)
           (run (RT := Example.runtime) (take 2 two_uploads_then_close) init).1
           "101").
  - exists (take 2 two_uploads_then_close). reflexivity.
  - vm_compute. reflexivity.
  - reflexivity.
Defined.

(** ** Reading the progress *)

Section Progress.

Lemma digit_value_pretty_N_char (d : N) :
  (d < 10)%N -> digit_value (pretty_N_char d) = Some (Z.of_N d).
Proof.
  intros Hd.
  assert (d = 0 \/ d = 1 \/ d = 2 \/ d = 3 \/ d = 4 \/ d = 5 \/ d = 6 \/ d = 7
          \/ d = 8 \/ d = 9)%N as Hcases by lia.
  repeat (destruct Hcases as [-> | Hcases]; [reflexivity|]). by subst.
Qed.

Lemma match_percent_pretty_N_go (x : N) :
  (0 < x)%N ->
  forall s, match_percent None (pretty_N_go x s) = match_percent (Some (Z.of_N x)) s.
Proof.
  induction (N.lt_wf_0 x) as [x _ IH]. intros Hx s.
  rewrite pretty_N_go_step by done.
  assert (Hd : (x `mod` 10 < 10)%N) by (apply N.mod_lt; lia).
  destruct (decide (x `div` 10 = 0)%N) as [Hz | Hnz].
  - rewrite Hz, pretty_N_go_0. cbn [match_percent].
    rewrite digit_value_pretty_N_char by done. cbn.
    f_equal. f_equal. rewrite (N.div_mod x 10) at 2 by lia. rewrite Hz. lia.
  - rewrite IH; [| apply N.div_lt; lia | by apply N.neq_0_lt_0].
    cbn [match_percent]. rewrite digit_value_pretty_N_char by done. cbn.
    f_equal. f_equal. rewrite (N.div_mod x 10) at 3 by lia. lia.
Qed.

Lemma match_percent_toString (n : Z) (s : string) :
  0 <= n ->
  match_percent None (toString n +:+ s) = match_percent (Some n) s.
Proof.
  intros Hn. unfold toString, pretty, pretty_Z.
  destruct n as [|p|p]; [reflexivity | | lia].
  unfold pretty, pretty_positive, pretty, pretty_N. rewrite decide_False by done.
  assert (Happ : forall x t, pretty_N_go x t +:+ s = pretty_N_go x (t +:+ s)).
  { intros x. induction (N.lt_wf_0 x) as [x _ IH]. intros t.
    destruct (decide (0 < x)%N) as [Hx | Hx].
    - rewrite (pretty_N_go_step x t), (pretty_N_go_step x (t +:+ s)) by done.
      rewrite IH; [done|].
      apply N.div_lt; lia.
    - assert (x = 0%N) as -> by lia. by rewrite !pretty_N_go_0. }
  rewrite Happ. cbn [String.append]. by rewrite match_percent_pretty_N_go.
Qed.

Lemma match_percent_skip (prefix s : string) :
  all_chars (fun c => negb (is_digit c)) prefix = true ->
  match_percent None (prefix +:+ s) = match_percent None s.
Proof.
  induction prefix as [|c prefix IH]; [done|]. simpl.
  intros [Hc Hrest]%andb_true_iff.
  unfold is_digit in Hc. apply negb_true_iff, bool_decide_eq_false in Hc.
  destruct (digit_value c); [by destruct Hc|].
  destruct (decide (c = "%"%char)); by apply IH.
Qed.

Lemma match_percent_nonneg (s : string) :
  forall acc n,
    (forall a, acc = Some a -> 0 <= a) ->
    match_percent acc s = Some n -> 0 <= n.
Proof.
  induction s as [|c s IH]; intros acc n Hacc; [done|]. cbn [match_percent].
  destruct (digit_value c) as [d|] eqn:Hd.
  - apply IH. intros a [= <-].
    unfold digit_value in Hd.
    destruct (_ && _)%bool eqn:Hrange; [|done]. injection Hd as <-.
    apply andb_true_iff in Hrange as [H1 H2].
    apply Z.leb_le in H1.
    destruct acc as [a|]; cbn; [specialize (Hacc a eq_refl)|]; lia.
  - destruct (decide (c = "%"%char)).
    + destruct acc as [a|]; [intros [= <-]; by apply Hacc | by apply IH].
    + by apply IH.
Qed.

Lemma match_percent_no_percent (s : string) :
  all_chars (fun c => negb (is_percent c)) s = true ->
  forall acc, match_percent acc s = None.
Proof.
  induction s as [|c s IH]; [done|]. cbn [all_chars].
  intros [Hc Hrest]%andb_true_iff acc. cbn [match_percent].
  unfold is_percent in Hc. apply negb_true_iff, bool_decide_eq_false in Hc.
  destruct (digit_value c); [by apply IH|].
  rewrite decide_False by done. by apply IH.
Qed.

End Progress.

(** *** The number that [parseInt] reads *)

Section ParseInt.
Local Open Scope Z_scope.

Lemma log2_bounds (n : Z) : 0 < n -> 2 ^ Z.log2 n <= n < 2 ^ (Z.log2 n + 1).
Proof. intros H. pose proof (Z.log2_spec n H). by rewrite <- Z.add_1_r in H0. Qed.

(** What [nearest_double] gives for a positive integer: the mantissa and
    the exponent of the last place. *)
Lemma nearest_double_integer (n : Z) :
  0 < n ->
  let e := Z.log2 n - 52 in
  let den := 2 ^ Z.max 0 e in
  let num := n * 2 ^ Z.max 0 (- e) in
  let m0 := num / den in
  let r := num mod den in
  let m := if ((den <? 2 * r)%Z || ((den =? 2 * r)%Z && Z.odd m0))%bool
           then m0 + 1 else m0 in
  nearest_double n 1
  = if (2 ^ (1024 - e) <=? m)%Z then DInfinity false
    else if (m =? 2 ^ 53)%Z then DFinite (2 ^ 52) (e + 1)
    else DFinite m e.
Proof.
  intros Hn. cbv zeta. unfold nearest_double.
  pose proof (log2_bounds n Hn) as [Hlo Hhi].
  pose proof (Z.log2_nonneg n) as Hl.
  rewrite (proj2 (Z.eqb_neq n 0)) by lia.
  rewrite Z.abs_eq by lia. change (Z.log2 1) with 0. rewrite Z.sub_0_r.
  rewrite (Z.max_l 0 (- Z.log2 n)) by lia. rewrite (Z.max_r 0 (Z.log2 n)) by lia.
  rewrite Z.mul_1_l, Z.pow_0_r, Z.mul_1_r.
  rewrite (proj2 (Z.ltb_ge n (2 ^ Z.log2 n))) by lia.
  rewrite (Z.max_l (Z.log2 n - 52) (-1074)) by lia.
  rewrite (proj2 (Z.ltb_ge n 0)) by lia.
  rewrite Z.sgn_pos by lia. rewrite !Z.mul_1_l.
  set (e := Z.log2 n - 52).
  set (den := 2 ^ Z.max 0 e). set (num := n * 2 ^ Z.max 0 (- e)).
  match goal with |- context [if ?c then ?a + 1 else ?a] =>
    set (m := if c then a + 1 else a) end.
  destruct (2 ^ (1024 - e) <=? m)%Z; [done|].
  assert (Hm : 0 < m).
  { assert (Hden : 0 < den) by (subst den; apply Z.pow_pos_nonneg; lia).
    assert (Hnum : den <= num).
    { subst den num e. destruct (Z.le_ge_cases 0 (Z.log2 n - 52)).
      - rewrite (Z.max_r 0 (Z.log2 n - 52)), (Z.max_l 0 (- (Z.log2 n - 52))) by lia.
        rewrite Z.pow_0_r, Z.mul_1_r.
        etrans; [|exact Hlo]. apply Z.pow_le_mono_r; lia.
      - rewrite (Z.max_l 0 (Z.log2 n - 52)) by lia. rewrite Z.pow_0_r.
        assert (0 < 2 ^ Z.max 0 (- (Z.log2 n - 52))) by (apply Z.pow_pos_nonneg; lia).
        nia. }
    assert (0 < num / den) by (apply Z.div_str_pos; lia).
    subst m. destruct (_ || _)%bool; lia. }
  rewrite (proj2 (Z.eqb_neq m 0)) by lia. done.
Qed.

Lemma parseInt_value_zero : parseInt_value 0 = Num 0.
Proof. reflexivity. Qed.

(** Up to [2^53] every integer is a double. *)
Lemma parseInt_value_exact (n : Z) : 0 <= n <= 2 ^ 53 -> parseInt_value n = Num n.
Proof.
  intros [H0 H53].
  destruct (decide (n = 0)) as [-> | Hnz]; [reflexivity|].
  destruct (decide (n = 2 ^ 53)) as [-> | Hne]; [by vm_compute|].
  assert (Hn : 0 < n) by lia.
  unfold parseInt_value, double_of_Z. rewrite nearest_double_integer by done.
  cbv zeta. pose proof (log2_bounds n Hn) as [Hlo Hhi].
  pose proof (Z.log2_nonneg n) as Hl.
  assert (He : Z.log2 n - 52 <= 0).
  { assert (Z.log2 n < 53); [|lia]. apply Z.log2_lt_pow2; lia. }
  set (e := Z.log2 n - 52) in *.
  rewrite (Z.max_l 0 e), (Z.max_r 0 (- e)) by lia.
  rewrite Z.pow_0_r, Z.div_1_r, Z.mod_1_r.
  change (1 <? 2 * 0) with false. change (1 =? 2 * 0) with false. cbn [orb andb].
  assert (Hk : 0 < 2 ^ (- e)) by (apply Z.pow_pos_nonneg; lia).
  assert (Hm : n * 2 ^ (- e) < 2 ^ 53).
  { replace 53 with ((Z.log2 n + 1) + (- e)) by lia.
    rewrite (Z.pow_add_r 2 (Z.log2 n + 1) (- e)) by lia. nia. }
  assert (Hbig : 2 ^ 53 <= 2 ^ (1024 - e)) by (apply Z.pow_le_mono_r; lia).
  rewrite (proj2 (Z.leb_gt _ _)) by lia.
  rewrite (proj2 (Z.eqb_neq _ _)) by lia.
  cbn [Math_round]. f_equal.
  destruct (0 <=? e) eqn:Hsign.
  - apply Z.leb_le in Hsign. assert (e = 0) as -> by lia. cbn. lia.
  - replace (1 - e) with (- e + 1) by lia. rewrite Z.pow_add_r by lia.
    replace (2 * (n * 2 ^ (- e)) + 2 ^ (- e)) with ((2 * n + 1) * 2 ^ (- e)) by lia.
    rewrite Z.pow_1_r, (Z.mul_comm (2 ^ (- e)) 2).
    rewrite Z.div_mul_cancel_r by lia.
    rewrite Z.mul_comm, Z.div_add_l by lia. change (1 / 2) with 0. lia.
Qed.

(** Beyond, the integer read is the neighbouring double: infinity, or an
    integer within one part in [2^53] of the digits' value. *)
Lemma parseInt_value_near (n : Z) :
  0 <= n ->
  parseInt_value n = Infinity false
  \/ exists v, parseInt_value n = Num v /\ 0 <= v /\ Z.abs (v - n) * 2 ^ 53 <= n.
Proof.
  intros H0.
  destruct (Z.le_gt_cases n (2 ^ 53)) as [Hsmall | Hbig].
  { right. exists n. rewrite parseInt_value_exact by lia.
    split; [done|]. split; [done|]. rewrite Z.sub_diag. cbn. lia. }
  assert (Hn : 0 < n) by lia.
  unfold parseInt_value, double_of_Z. rewrite nearest_double_integer by done.
  cbv zeta. pose proof (log2_bounds n Hn) as [Hlo Hhi].
  assert (He : 0 < Z.log2 n - 52).
  { assert (53 <= Z.log2 n); [|lia]. apply Z.log2_le_pow2; lia. }
  set (e := Z.log2 n - 52) in *.
  rewrite (Z.max_r 0 e), (Z.max_l 0 (- e)) by lia.
  rewrite Z.pow_0_r, Z.mul_1_r.
  assert (Hden : 0 < 2 ^ e) by (apply Z.pow_pos_nonneg; lia).
  pose proof (Z.div_mod n (2 ^ e) ltac:(lia)) as Hdm.
  pose proof (Z.mod_pos_bound n (2 ^ e) Hden) as Hr.
  assert (Hm0 : 0 <= n / 2 ^ e) by (apply Z.div_pos; lia).
  set (m0 := n / 2 ^ e) in *. set (r := n mod 2 ^ e) in *.
  match goal with |- context [if ?c then m0 + 1 else m0] =>
    set (m := if c then m0 + 1 else m0) end.
  assert (Hhalf : 2 ^ e = 2 * 2 ^ (e - 1)).
  { replace e with (1 + (e - 1)) at 1 by lia. rewrite Z.pow_add_r by lia. done. }
  assert (Hulp : 2 ^ (e - 1) * 2 ^ 53 <= n).
  { rewrite <- Z.pow_add_r by lia. replace (e - 1 + 53) with (Z.log2 n) by lia. done. }
  assert (Hnear : 0 <= m /\ Z.abs (m * 2 ^ e - n) <= 2 ^ (e - 1)).
  { subst m. destruct (_ || _)%bool eqn:Hup.
    - apply orb_true_iff in Hup as [Hup | Hup].
      + apply Z.ltb_lt in Hup. split; [lia|]. rewrite Z.abs_eq; nia.
      + apply andb_true_iff in Hup as [Hup _]. apply Z.eqb_eq in Hup.
        split; [lia|]. rewrite Z.abs_eq; nia.
    - apply orb_false_iff in Hup as [Hup _]. apply Z.ltb_ge in Hup.
      split; [lia|]. rewrite Z.abs_neq; nia. }
  destruct Hnear as [Hm Hnear].
  destruct (2 ^ (1024 - e) <=? m); [by left | right].
  exists (m * 2 ^ e).
  split; [|split; [nia | nia]].
  destruct (m =? 2 ^ 53) eqn:Hm53; cbn [Math_round].
  - apply Z.eqb_eq in Hm53. rewrite (proj2 (Z.leb_le 0 (e + 1))) by lia.
    f_equal. rewrite Hm53, Z.pow_add_r by lia. change (2 ^ 53) with (2 ^ 52 * 2). lia.
  - by rewrite (proj2 (Z.leb_le 0 e)) by lia.
Qed.

End ParseInt.

(** X8: a percentage that is printed is read back, as far as doubles go.
    For a message made of a text without digits, a non-negative integer in
    decimal, a percent sign and any rest, the progress stored is what
    [parseInt] makes of that integer: the integer itself up to [2^53], and
    beyond either infinity or an integer that differs from it by at most
    one part in [2^53]. *)
Theorem X8_progress_round_trip (prefix rest : string) (n : Z) :
  all_chars (fun c => negb (is_digit c)) prefix = true ->
  0 <= n ->
  progressMatch (prefix +:+ toString n +:+ "%" +:+ rest) = Some (parseInt_value n)
  /\ (n <= 2 ^ 53 -> parseInt_value n = Num n)
  /\ (parseInt_value n = Infinity false
      \/ exists v, parseInt_value n = Num v /\ 0 <= v
                   /\ Z.abs (v - n) * 2 ^ 53 <= n).
Proof.
  intros Hprefix Hn. split; [|split].
  - unfold progressMatch.
    rewrite match_percent_skip by done.
    rewrite match_percent_toString by done. reflexivity.
  - intros Hsmall. by apply parseInt_value_exact.
  - by apply parseInt_value_near.
Qed.

Lemma X8_progress_round_trip_witness :
  progressMatch ("Transcribing: " +:+ toString 45 +:+ "%" +:+ " done")
  = Some (Num 45)
  /\ progressMatch ("" +:+ toString 9007199254740993 +:+ "%" +:+ "")
     = Some (Num 9007199254740992).
Proof.
  destruct (X8_progress_round_trip "Transcribing: " " done" 45) as (H & Hexact & _);
    [reflexivity | lia |].
  destruct (X8_progress_round_trip "" "" 9007199254740993) as (H' & _);
    [reflexivity | lia |].
  split.
  - rewrite H, Hexact by lia. reflexivity.
  - rewrite H'. vm_compute. reflexivity.
Defined.

(** X9: what [progressMatch] never gives.  A message without a percent sign
    has no progress, and a progress that is found is never negative: it is
    a non-negative integer or positive infinity. *)
Theorem X9_progress_absent_or_non_negative (message : string) :
  (all_chars (fun c => negb (is_percent c)) message = true ->
   progressMatch message = None)
  /\ (forall n, progressMatch message = Some (Num n) -> 0 <= n)
  /\ progressMatch message <> Some NaN
  /\ progressMatch message <> Some (Infinity true).
Proof.
  split.
  { intros H. unfold progressMatch. by rewrite match_percent_no_percent. }
  unfold progressMatch.
  destruct (match_percent None message) as [k|] eqn:Hk; [|done].
  assert (Hk0 : 0 <= k) by (eapply match_percent_nonneg; [|exact Hk]; done).
  cbn [fmap option_fmap option_map].
  destruct (parseInt_value_near k Hk0) as [-> | (v & -> & Hv & _)].
  - split; [by intros n [=]|]. by split; intros [=].
  - split; [by intros n [= <-]|]. by split; intros [=].
Qed.

Lemma X9_progress_absent_or_non_negative_witness :
  progressMatch "Detecting language using up to the first 30 seconds" = None.
Proof.
  apply (X9_progress_absent_or_non_negative
           "Detecting language using up to the first 30 seconds").
  reflexivity.
Defined.

(** ** Stored uploads *)

Section Filename.

Lemma pretty_N_go_digits (x : N) :
  forall s, all_chars is_digit s = true -> all_chars is_digit (pretty_N_go x s) = true.
Proof.
  induction (N.lt_wf_0 x) as [x _ IH]. intros s Hs.
  destruct (decide (0 < x)%N) as [Hx | Hx].
  - rewrite pretty_N_go_step by done. apply IH; [apply N.div_lt; lia|].
    cbn [all_chars]. rewrite Hs, andb_true_r. unfold is_digit.
    apply bool_decide_eq_true.
    rewrite digit_value_pretty_N_char by (apply N.mod_lt; lia). eauto.
  - assert (x = 0%N) as -> by lia. by rewrite pretty_N_go_0.
Qed.

Lemma toString_digits (t : Z) : 0 <= t -> all_chars is_digit (toString t) = true.
Proof.
  intros Ht. unfold toString, pretty, pretty_Z.
  destruct t as [|p|p]; [reflexivity | | lia].
  unfold pretty, pretty_positive, pretty, pretty_N. rewrite decide_False by done.
  by apply pretty_N_go_digits.
Qed.

(** Two texts that start with digits up to a dash are equal only if the
    digits and the rests are. *)
Lemma digits_dash_inj (d1 d2 n1 n2 : string) :
  all_chars is_digit d1 = true ->
  all_chars is_digit d2 = true ->
  d1 +:+ "-" +:+ n1 = d2 +:+ "-" +:+ n2 ->
  d1 = d2 /\ n1 = n2.
Proof.
  revert d2. induction d1 as [|c d1 IH]; intros [|c' d2]; cbn.
  - intros _ _ [= H]. done.
  - intros _ [Hc _]%andb_true_iff [= <- _]. discriminate Hc.
  - intros [Hc _]%andb_true_iff _ [= -> _]. discriminate Hc.
  - intros [_ H1]%andb_true_iff [_ H2]%andb_true_iff [= -> Heq].
    destruct (IH d2 H1 H2 Heq) as [-> ->]. done.
Qed.

End Filename.

(** X10: the name under which multer stores an upload determines the clock
    reading and the original name: with clock readings that are not
    negative, two uploads get the same stored name only when they are
    handled in the same millisecond under the same original name. *)
Theorem X10_stored_name_determines_upload (t1 t2 : Z) (name1 name2 : string) :
  0 <= t1 -> 0 <= t2 ->
  storage_filename t1 name1 = storage_filename t2 name2 ->
  t1 = t2 /\ name1 = name2.
Proof.
  intros H1 H2 Heq. unfold storage_filename in Heq.
  apply digits_dash_inj in Heq as [Ht ->]; [|by apply toString_digits..].
  split; [|done]. by apply (inj pretty).
Qed.

Lemma X10_stored_name_determines_upload_witness :
  storage_filename 100 "a.mp3" = storage_filename (50 + 50) ("a" +:+ ".mp3")
  /\ 100 = 50 + 50 /\ "a.mp3" = "a" +:+ ".mp3".
Proof.
  split; [reflexivity|].
  apply X10_stored_name_determines_upload; [lia | lia | reflexivity].
Defined.

(** ** Jobs that are held nowhere *)

Section LetGo.
Context `{RT : Runtime}.

Lemma holders_ids (st : State) :
  (holders st).*1
  = (q_jobId <$> transcriptionQueue st) ++ (c_jobId <$> children st)
    ++ (d_jobId <$> downloads st).
Proof.
  unfold holders, holders_of. by rewrite !fmap_app, <- !list_fmap_compose.
Qed.

Lemma queued_id_held (st : State) (item : QueueItem) :
  item ∈ transcriptionQueue st -> q_jobId item ∈ (holders st).*1.
Proof.
  intros Hin. rewrite holders_ids, elem_of_app. left.
  apply list_elem_of_fmap. by exists item.
Qed.

Lemma step_let_go (w : World) (a : Action) (st : State) (j : string) :
  j ∉ (holders st).*1 ->
  issued_id (w, a) <> Some j ->
  (j ∉ (holders (step w a st).1).*1)
  /\ transcriptions (step w a st).1 !! j = transcriptions st !! j
  /\ (j ∉ (q_jobId <$> dispatched (step w a st).2))
  /\ (j ∉ (q_jobId <$> pushed (step w a st).2)).
Proof.
  intros Hfree Hnew.
  destruct (before_drain_touch w a st j) as (Hh & Hr & _).
  assert (Hmid : j ∉ (holders (before_drain w a st).1).*1).
  { intros Hin. by destruct (Hh Hin). }
  assert (Hreg : transcriptions (before_drain w a st).1 !! j = transcriptions st !! j).
  { destruct Hr as [-> | [_ [Hin | Heq]]]; done. }
  destruct (step_drained w a st) as [Hq Hd].
  assert (Hpushed : j ∉ (q_jobId <$> pushed (step w a st).2)).
  { intros Hin. apply list_elem_of_fmap in Hin as (item & -> & Hin).
    apply Hmid, queued_id_held. rewrite Hq. apply elem_of_app. by right. }
  destruct (before_drain w a st).2.
  - destruct Hd as (effs & Hd & ->).
    destruct (drained_touch w _ _ effs j Hd) as [Hh' Hr'].
    split; [by intros Hin; apply Hmid, Hh'|]. split; [|split; [|done]].
    + destruct Hr' as [-> | [_ Hin]]; done.
    + intros Hin. apply list_elem_of_fmap in Hin as (item & -> & Hin).
      apply Hmid, queued_id_held. by eapply drained_dispatched_queued.
  - destruct Hd as [-> ->]. split; [done|]. split; [done|]. split; [|done].
    cbn. apply not_elem_of_nil.
Qed.

End LetGo.

(** X12: a job that is held nowhere is left alone.  If no queue item, no
    live child and no live download carries a job id, then over any run in
    which that id is not handed out again the id is never pushed on the
    queue and never dispatched, its registry entry (or its absence) stays
    exactly as it is, and it is still held nowhere at the end.  A download
    stays among the live downloads after its conversion has failed, because
    its progress handlers are never removed and still write to the
    registry; so this covers a job whose engine run is over, whose input
    file was missing, whose spawn threw or whose download could not be set
    up, and it does not cover a job whose download failed. *)
Theorem X12_job_held_nowhere_is_left_alone `{RT : Runtime}
    (evs : list (World * Action)) (st : State) (jobId : string) :
  jobId ∉ (q_jobId <$> transcriptionQueue st) ->
  jobId ∉ (c_jobId <$> children st) ->
  jobId ∉ (d_jobId <$> downloads st) ->
  jobId ∉ issued_ids evs ->
  transcriptions (run evs st).1 !! jobId = transcriptions st !! jobId
  /\ (jobId ∉ (q_jobId <$> dispatched (run evs st).2))
  /\ (jobId ∉ (q_jobId <$> pushed (run evs st).2))
  /\ (jobId ∉ (q_jobId <$> transcriptionQueue (run evs st).1))
  /\ (jobId ∉ (c_jobId <$> children (run evs st).1))
  /\ (jobId ∉ (d_jobId <$> downloads (run evs st).1)).
Proof.
  intros Hq Hc Hd Hids.
  assert (Hfree : jobId ∉ (holders st).*1).
  { rewrite holders_ids, !elem_of_app. tauto. }
  clear Hq Hc Hd.
  assert (H : transcriptions (run evs st).1 !! jobId = transcriptions st !! jobId
              /\ (jobId ∉ (q_jobId <$> dispatched (run evs st).2))
              /\ (jobId ∉ (q_jobId <$> pushed (run evs st).2))
              /\ (jobId ∉ (holders (run evs st).1).*1)).
  { revert st Hfree. induction evs as [|[w a] evs IH]; intros st Hfree.
    { cbn. repeat split; (done || apply not_elem_of_nil). }
    rewrite issued_ids_cons in Hids.
    assert (Hnew : issued_id (w, a) <> Some jobId).
    { intros Heq. rewrite Heq in Hids. apply Hids. by left. }
    assert (Hrest : jobId ∉ issued_ids evs).
    { intros Hin. apply Hids. destruct (issued_id (w, a)); [by right | done]. }
    destruct (step_let_go w a st jobId Hfree Hnew) as (Hf1 & Hr1 & Hd1 & Hp1).
    destruct (IH Hrest _ Hf1) as (Hr2 & Hd2 & Hp2 & Hf2).
    rewrite run_cons. cbn [fst snd].
    rewrite dispatched_app, pushed_app, !fmap_app, !not_elem_of_app.
    rewrite Hr2, Hr1. done. }
  destruct H as (Hr & Hdisp & Hpush & Hheld).
  rewrite holders_ids, !not_elem_of_app in Hheld. tauto.
Qed.

Lemma X12_job_held_nowhere_is_left_alone_witness :
  transcriptions
    (run (RT := Example.runtime) (drop 1 quiet_success)
       (run (RT := Example.runtime) two_uploads_then_close init).1).1 !! "100"
  = transcriptions (run (RT := Example.runtime) two_uploads_then_close init).1 !! "100".
Proof.
  apply (X12_job_held_nowhere_is_left_alone (RT := Example.runtime)
           (drop 1 quiet_success)
           (run (RT := Example.runtime) two_uploads_then_close init).1 "100").
  - by_computation.
  - by_computation.
  - by_computation.
  - by_computation.
Defined.

(** ** The entry of a failed job *)

(** X13: which failure entry is left when the awaited engine run fails.  For
    a child whose outcome is awaited, when ['close'] finds no transcript or
    the child reports an error, the entry written by the handler is
    overwritten by the [catch] block of [processQueue] within the same
    callback: after the callback the entry is "Failed to process file in
    queue" with the error message as detail ("Transcription file not found"
    for a missing transcript), so the stderr text that the ['close'] handler
    had stored as detail is not there any more.  (No queued job carries the
    same id.) *)
Theorem X13_failure_entry_is_the_schedulers `{RT : Runtime}
    (w : World) (st : State) (i : nat) (c : Child) (code : option Z)
    (message : string) :
  children st !! i = Some c ->
  c_settled c = false ->
  c_jobId c ∉ (q_jobId <$> transcriptionQueue st) ->
  (existsSync w (txtFile_of (c_inputPath c)) = false ->
   transcriptions (step w (ChildClose i code) st).1 !! c_jobId c
   = Some (JError "Failed to process file in queue"
             (Some "Transcription file not found")))
  /\ transcriptions (step w (ChildError i message) st).1 !! c_jobId c
     = Some (JError "Failed to process file in queue" (Some message)).
Proof.
  intros Hc Hs Hfree. split.
  - intros Hex. cbn [step]. rewrite Hc, Hs, on_close_missing by done.
    match goal with |- context [microtasks w _ ?s] =>
      pose proof (microtasks_drained w s (c_jobId c)
                    (Rejected "Transcription file not found")) as Hd end.
    rewrite (drained_registry_other _ _ _ _ _ Hd) by done.
    cbn. apply lookup_insert_eq.
  - cbn [step]. rewrite Hc, Hs. cbn [on_error].
    match goal with |- context [microtasks w _ ?s] =>
      pose proof (microtasks_drained w s (c_jobId c) (Rejected message)) as Hd end.
    rewrite (drained_registry_other _ _ _ _ _ Hd) by done.
    cbn. apply lookup_insert_eq.
Qed.

Lemma X13_failure_entry_is_the_schedulers_witness :
  transcriptions
    (step (RT := Example.runtime) (Example.world 9 []) (ChildClose 0 (Some 1))
       (mkState ∅ [] true 1
          [mkChild "/var/www/whisper-app/backend/uploads/5-talk.mp3" "5" "medium"
             "en" "" "boom" false] [])).1 !! "5"
  = Some (JError "Failed to process file in queue"
            (Some "Transcription file not found")).
Proof.
  destruct (X13_failure_entry_is_the_schedulers (RT := Example.runtime)
    (Example.world 9 []) 
    (mkState ∅ [] true 1
       [mkChild "/var/www/whisper-app/backend/uploads/5-talk.mp3" "5" "medium"
          "en" "" "boom" false] [])
    0
    (mkChild "/var/www/whisper-app/backend/uploads/5-talk.mp3" "5" "medium"
       "en" "" "boom" false)
    (Some 1) "") as [Hclose _].
  - reflexivity.
  - reflexivity.
  - cbn. apply not_elem_of_nil.
  - apply Hclose. vm_compute. reflexivity.
Defined.

(** ** Output chunks of a running child *)

Lemma append_assoc (a b c : string) : (a +:+ b) +:+ c = a +:+ (b +:+ c).
Proof.
  induction a as [|x a IH]; [done|].
  change (String x ((a +:+ b) +:+ c) = String x (a +:+ (b +:+ c))). by rewrite IH.
Qed.

Lemma append_empty_r (a : string) : a +:+ "" = a.
Proof.
  induction a as [|x a IH]; [done|].
  change (String x (a +:+ "") = String x a). by rewrite IH.
Qed.

(** X14: how the ['data'] events of a running child compose.  After any
    sequence of stdout and stderr chunks for a child whose outcome is
    awaited, the closure holds all stdout text and all stderr text, each in
    order of arrival; if there was a stdout chunk, the job's entry is
    "processing" with the whole stdout text as details and the progress
    read from the last stdout chunk alone; stderr chunks do not touch the
    registry; the queue and the scheduler's flags are as before and nothing
    is emitted. *)
Theorem X14_output_chunks_accumulate `{RT : Runtime}
    (chunks : list (World * Chunk)) (i : nat) (c : Child) (st : State) :
  children st !! i = Some c ->
  c_settled c = false ->
  let out := c_output c +:+ join (stdout_of chunks) in
  let st' := (run (data_event i <$> chunks) st).1 in
  children st'
  = <[i := mkChild (c_inputPath c) (c_jobId c) (c_validModel c) (c_language c)
             out (c_errorOutput c +:+ join (stderr_of chunks)) false]> (children st)
  /\ transcriptions st'
     = match last (stdout_of chunks) with
       | Some message =>
           <[c_jobId c := JProcessing (progressMatch message) out]> (transcriptions st)
       | None => transcriptions st
       end
  /\ transcriptionQueue st' = transcriptionQueue st
  /\ isProcessing st' = isProcessing st
  /\ activeJobs st' = activeJobs st
  /\ downloads st' = downloads st
  /\ (run (data_event i <$> chunks) st).2 = [].
Proof.
  revert c st. induction chunks as [|[w ch] chunks IH]; intros c st Hc Hs.
  - cbn. rewrite !append_empty_r. split; [|done].
    destruct c; cbn in *. subst. by rewrite list_insert_id.
  - cbn [fmap list_fmap data_event fst snd]. destruct ch as [m|m].
    + change (data_event i (w, Out m)) with (w, ChildStdout i m).
      rewrite run_cons. cbn [step]. rewrite Hc, Hs. cbn [on_stdout].
      cbn [fst snd app].
      match goal with |- context [run _ ?s] => set (st1 := s) end.
      match type of st1 with _ => idtac end.
      set (c1 := mkChild (c_inputPath c) (c_jobId c) (c_validModel c)
                   (c_language c) (c_output c +:+ m) (c_errorOutput c) (c_settled c)).
      assert (Hc1 : children st1 !! i = Some c1).
      { subst st1. cbn. apply list_lookup_insert_eq. by eapply lookup_lt_Some. }
      destruct (IH c1 st1 Hc1 Hs) as (Hch & Hreg & Hq & Hp & Ha & Hd & Heff).
      subst c1. cbn in Hch, Hreg.
      change (stdout_of ((w, Out m) :: chunks)) with (m :: stdout_of chunks).
      change (stderr_of ((w, Out m) :: chunks)) with (stderr_of chunks).
      cbn [join foldr]. fold (join (stdout_of chunks)).
      rewrite <- append_assoc.
      split; [|split; [|by rewrite Hq, Hp, Ha, Hd, Heff]].
      * rewrite Hch. subst st1. cbn. by rewrite list_insert_insert_eq.
      * rewrite Hreg, last_cons.
        destruct (last (stdout_of chunks)) as [y|] eqn:Hl.
        -- cbn. by rewrite insert_insert_eq.
        -- apply last_None in Hl. rewrite Hl. cbn. by rewrite append_empty_r.
    + change (data_event i (w, Err m)) with (w, ChildStderr i m).
      rewrite run_cons. cbn [step]. rewrite Hc, Hs.
      cbn [fst snd app].
      match goal with |- context [run _ ?s] => set (st1 := s) end.
      assert (Hc1 : children st1 !! i = Some (on_stderr m c)).
      { subst st1. cbn. apply list_lookup_insert_eq. by eapply lookup_lt_Some. }
      destruct (IH (on_stderr m c) st1 Hc1 Hs) as (Hch & Hreg & Hq & Hp & Ha & Hd & Heff).
      cbn in Hch, Hreg.
      change (stdout_of ((w, Err m) :: chunks)) with (stdout_of chunks).
      change (stderr_of ((w, Err m) :: chunks)) with (m :: stderr_of chunks).
      cbn [join foldr]. fold (join (stderr_of chunks)).
      rewrite <- append_assoc.
      split; [|split; [|by rewrite Hq, Hp, Ha, Hd, Heff]].
      * rewrite Hch. subst st1. cbn. by rewrite list_insert_insert_eq.
      * rewrite Hreg. by subst st1.
Qed.

Lemma X14_output_chunks_accumulate_witness :
  transcriptions
    (run (RT := Example.runtime)
       (data_event 0 <$> [(Example.world 6 [], Out "12% ");
                          (Example.world 7 [], Err "warning");
                          (Example.world 8 [], Out "almost")])
       (mkState ∅ [] true 1
          [mkChild "/var/www/whisper-app/backend/uploads/5-talk.mp3" "5" "medium"
             "en" "" "" false] [])).1
  = <["5" := JProcessing None "12% almost"]> ∅.
Proof.
  destruct (X14_output_chunks_accumulate (RT := Example.runtime)
    [(Example.world 6 [], Out "12% ");
     (Example.world 7 [], Err "warning");
     (Example.world 8 [], Out "almost")]
    0
    (mkChild "/var/www/whisper-app/backend/uploads/5-talk.mp3" "5" "medium"
       "en" "" "" false)
    (mkState ∅ [] true 1
       [mkChild "/var/www/whisper-app/backend/uploads/5-talk.mp3" "5" "medium"
          "en" "" "" false] [])) as (_ & Hreg & _).
  - reflexivity.
  - reflexivity.
  - rewrite Hreg. vm_compute. reflexivity.
Defined.
